(** * Verification of the secure file shredder (shredder/main.go)

    A shallow embedding of [SecureShredFile] and of the exported [shred]
    wrapper, together with the properties of the chunk planner, the
    overwrite driver, the finalizer and the progress reports.

    Modelling conventions.
    - Go's [int] and [int64] are 64-bit two's complement integers: they are
      values of [Z] and every operation that can leave the range is wrapped
      by [wrap64].
    - Go's [float64] is IEEE 754 binary64: values are [spec_float] and the
      operations are the ones of the standard library's [SpecFloat] at
      precision 53 and maximal exponent 1024 (round to nearest, ties to
      even).
    - The operating system is a finite map from paths to file contents, one
      open handle, and an oracle that decides which system call fails, which
      bytes the random source returns and what the clock reads.  Every
      effect of a run is recorded, in order, in a trace of events. *)

From Stdlib Require Import ZArith List Bool Lia.
From Stdlib.Strings Require Import String Ascii Byte.
From Stdlib Require DecimalString DecimalZ DecimalPos.
From Stdlib Require QArith Qpower Qabs Lqa.
From Stdlib Require Import Floats.SpecFloat.
From stdpp Require Import gmap strings list.

Local Open Scope Z_scope.

(** ** Machine integers *)

Module Int64.

Definition modulus : Z := 2 ^ 64.
Definition min_signed : Z := - 2 ^ 63.
Definition max_signed : Z := 2 ^ 63 - 1.

(** Two's complement wrap-around of an arbitrary integer into int64. *)
Definition wrap64 (z : Z) : Z := (z + 2 ^ 63) mod modulus - 2 ^ 63.

Definition in_range (z : Z) : Prop := min_signed <= z <= max_signed.

Definition add (a b : Z) : Z := wrap64 (a + b).
Definition mul (a b : Z) : Z := wrap64 (a * b).

End Int64.

(** ** IEEE 754 binary64 *)

Module Float64.

Definition prec : Z := 53.
Definition emax : Z := 1024.

(** [float64(x)] for an integer [x]: the nearest binary64 value. *)
Definition of_int (z : Z) : spec_float := binary_normalize prec emax z 0 false.

Definition div (x y : spec_float) : spec_float := SFdiv prec emax x y.
Definition mul (x y : spec_float) : spec_float := SFmul prec emax x y.

(** [math.Ceil]: the least integral value not below [x]; infinities, NaN
    and zeros are returned unchanged, and a negative argument above -1
    gives negative zero. *)
Definition Ceil (x : spec_float) : spec_float :=
  match x with
  | S754_finite s m e =>
      if 0 <=? e then x
      else
        let d := 2 ^ (- e) in
        if s then
          match Z.pos m / d with
          | Z0 => S754_zero true
          | q => binary_normalize prec emax (- q) 0 true
          end
        else binary_normalize prec emax (- ((- Z.pos m) / d)) 0 false
  | _ => x
  end.

(** The integer part of a finite value, rounding toward zero. *)
Definition trunc (x : spec_float) : option Z :=
  match x with
  | S754_zero _ => Some 0
  | S754_finite s m e =>
      let a := if 0 <=? e then Z.pos m * 2 ^ e else Z.pos m / 2 ^ (- e) in
      Some (if s then - a else a)
  | _ => None
  end.

(** [int64(x)] and [int(x)] for a float64 [x].  The language leaves the
    result open when the truncated value does not fit; the amd64
    instruction the compiler emits returns the "integer indefinite" value
    [-2^63] for NaN, infinities and out-of-range values, which is what is
    modelled here. *)
Definition to_int64 (x : spec_float) : Z :=
  match trunc x with
  | Some z =>
      if (Int64.min_signed <=? z) && (z <=? Int64.max_signed) then z
      else Int64.min_signed
  | None => Int64.min_signed
  end.

End Float64.

(** ** Chunk planner (main.go, lines 40-47 and 58-65) *)

Definition chunkSize : Z := 64 * 1024.

(** Lines 44-47: one chunk for an empty file, otherwise
    [int64(math.Ceil(float64(fileSize) / float64(chunkSize)))]. *)
Definition numChunks (fileSize : Z) : Z :=
  if 0 <? fileSize then
    Float64.to_int64
      (Float64.Ceil (Float64.div (Float64.of_int fileSize) (Float64.of_int chunkSize)))
  else 1.

(** Lines 59-65 (and 96-102): the length of the buffer written for window
    [j].  Go's [%] truncates toward zero, as [Z.rem] does. *)
Definition bufferSize (fileSize j : Z) : Z :=
  let bufferSize :=
    if (j =? numChunks fileSize - 1) && negb (Z.rem fileSize chunkSize =? 0)
    then Z.rem fileSize chunkSize
    else chunkSize in
  if bufferSize =? 0 then chunkSize else bufferSize.

(** Line 49: [int64(passes)*numChunks + numChunks], in int64 arithmetic. *)
Definition totalSteps (passes fileSize : Z) : Z :=
  Int64.add (Int64.mul passes (numChunks fileSize)) (numChunks fileSize).

(** Lines 84 and 115:
    [int(float64(currentStep) / float64(totalSteps) * 100)]. *)
Definition percentage (currentStep totalSteps : Z) : Z :=
  Float64.to_int64
    (Float64.mul
       (Float64.div (Float64.of_int currentStep) (Float64.of_int totalSteps))
       (Float64.of_int 100)).

Example numChunks_150000 : numChunks 150000 = 3.
Proof. reflexivity. Qed.

(** ** Go values: errors, byte strings, formatting *)

(** The error number carried by an operating-system error. *)
Inductive Errno :=
| ENOENT                        (* no such file or directory *)
| ErrClosed                     (* file already closed *)
| Errno_other (text : string).  (* any other failure, with its text *)

Definition Errno_text (e : Errno) : string :=
  match e with
  | ENOENT => "no such file or directory"
  | ErrClosed => "file already closed"
  | Errno_other text => text
  end.

(** Go [error] values, as far as the program builds or inspects them. *)
Inductive error :=
| errorString (msg : string)                  (* errors.New, fmt.Errorf without %w *)
| PathError (op path : string) (e : Errno)    (* *os.PathError *)
| LinkError (op old new : string) (e : Errno) (* *os.LinkError *)
| wrapError (msg : string) (cause : error).   (* fmt.Errorf with %w *)

(** The [Error()] method. *)
Definition Error (e : error) : string :=
  match e with
  | errorString msg => msg
  | PathError op path e => op ++ " " ++ path ++ ": " ++ Errno_text e
  | LinkError op old new e => op ++ " " ++ old ++ " " ++ new ++ ": " ++ Errno_text e
  | wrapError msg _ => msg
  end.

(** [os.IsNotExist] looks through path and link errors only. *)
Definition os_IsNotExist (e : error) : bool :=
  match e with
  | PathError _ _ ENOENT | LinkError _ _ _ ENOENT => true
  | _ => false
  end.

(** [fmt.Errorf(prefix + "%w", cause)], where [prefix] is the text already
    formatted in front of the wrapped error. *)
Definition fmt_Errorf_w (prefix : string) (cause : error) : error :=
  wrapError (prefix ++ Error cause) cause.

(** [strconv.FormatInt(z, 10)] and the verb [%d]. *)
Definition strconv_FormatInt (z : Z) : string :=
  DecimalString.NilZero.string_of_int (Z.to_int z).

(** [[]byte(s)] *)
Definition bytes_of_string (s : string) : list byte := list_byte_of_string s.

(** *** base64.URLEncoding.WithPadding(base64.NoPadding) *)

Module Base64.

Definition encodeURL : string :=
  "ABCDEFGHIJKLMNOPQRSTUVWXYZabcdefghijklmnopqrstuvwxyz0123456789-_".

(** The character of a 6-bit value. *)
Definition sextet (v : Z) : ascii :=
  match String.get (Z.to_nat (Z.land v 63)) encodeURL with
  | Some c => c
  | None => "A"%char
  end.

Definition byteZ (b : byte) : Z := Z.of_N (Byte.to_N b).

(** [EncodeToString]: three bytes give four characters; a tail of one or
    two bytes gives two or three characters and, without padding, nothing
    more. *)
Fixpoint EncodeToString (src : list byte) : string :=
  match src with
  | [] => EmptyString
  | [a] =>
      let v := Z.shiftl (byteZ a) 16 in
      String (sextet (Z.shiftr v 18)) (String (sextet (Z.shiftr v 12)) EmptyString)
  | [a; b] =>
      let v := Z.lor (Z.shiftl (byteZ a) 16) (Z.shiftl (byteZ b) 8) in
      String (sextet (Z.shiftr v 18))
        (String (sextet (Z.shiftr v 12))
           (String (sextet (Z.shiftr v 6)) EmptyString))
  | a :: b :: c :: rest =>
      let v := Z.lor (Z.lor (Z.shiftl (byteZ a) 16) (Z.shiftl (byteZ b) 8)) (byteZ c) in
      String (sextet (Z.shiftr v 18))
        (String (sextet (Z.shiftr v 12))
           (String (sextet (Z.shiftr v 6))
              (String (sextet v) (EncodeToString rest))))
  end.

End Base64.

(** ** The operating system *)

(** The calls the program makes that can fail, with their arguments.  A
    write is recorded with the offset it starts at and the bytes it carries,
    a read of the random source with the bytes it delivered. *)
Inductive syscall :=
| Stat (name : string)
| OpenFile (name : string)
| Seek (offset : Z)
| RandRead (n : Z) (data : list byte)
| Write (offset : Z) (data : list byte)
| Sync
| Close
| Truncate (name : string) (size : Z)
| Rename (oldpath newpath : string)
| Remove (name : string).

(** What a run does, in the order it does it. *)
Inductive event :=
| Call (c : syscall) (ok : bool)   (* a system call and whether it succeeded *)
| Now (unix : Z)                   (* time.Now().Unix() and what it returned *)
| Progress (percentage : Z)        (* the progress callback is invoked *)
| Log (msg : string)               (* a line handed to the logger *)
| Exit (code : Z).                 (* os.Exit *)

(** The state of the machine: the files by path, the one handle the program
    holds (the path it was opened at and its offset), and how many calls and
    random bytes have been consumed from the oracle. *)
Record World := mkWorld {
  fs : gmap string (list byte);
  handle : option (string * Z);
  ticks : nat;
  drawn : nat
}.

(** The oracle: [fault k] is the error text with which the [k]-th fallible
    call fails, if it does; [entropy i] is the [i]-th byte the random source
    delivers; [clock] is the Unix time. *)
Record Env := mkEnv {
  fault : nat -> option string;
  entropy : nat -> byte;
  clock : Z
}.

(** Contents after writing [data] at offset [off]: bytes past the end extend
    the file, a gap is read back as zeros. *)
Definition write_at (content : list byte) (off : nat) (data : list byte) : list byte :=
  take off content ++ replicate (off - length content) x00
    ++ data ++ drop (off + length data) content.

(** Contents after truncating (or extending) to [size] bytes. *)
Definition resize (content : list byte) (size : nat) : list byte :=
  take size content ++ replicate (size - length content) x00.

(** ** Programs: state, trace and early return *)

(** A statement either falls through with a value or executes [return]. *)
Inductive step (R A : Type) : Type :=
| Next (a : A)
| Return (r : R).
Arguments Next {R A} a.
Arguments Return {R A} r.

Definition M (R A : Type) : Type := World -> step R A * World * list event.

Definition ret {R A} (a : A) : M R A := fun w => (Next a, w, []).

Definition return_ {R A} (r : R) : M R A := fun w => (Return r, w, []).

Definition bind {R A B} (m : M R A) (k : A -> M R B) : M R B := fun w =>
  match m w with
  | (Next a, w1, t1) => let '(s, w2, t2) := k a w1 in (s, w2, t1 ++ t2)
  | (Return r, w1, t1) => (Return r, w1, t1)
  end.

Notation "x <- m ;; k" := (bind m (fun x => k))
  (at level 100, m at next level, right associativity).
Notation "m ;;; k" := (bind m (fun _ => k))
  (at level 100, right associativity).

Definition emit {R} (t : list event) : M R unit := fun w => (Next tt, w, t).

(** [defer d; body]: [d] runs when the function leaves [body], whichever way,
    and cannot change what is returned. *)
Definition defer {R A} (d : M R unit) (body : M R A) : M R A := fun w =>
  let '(s, w1, t1) := body w in
  let '(_, w2, t2) := d w1 in
  (s, w2, t1 ++ t2).

(** A function body run to its result. *)
Definition call {R} (body : M R R) : World -> R * World * list event := fun w =>
  match body w with
  | (Next r, w1, t1) | (Return r, w1, t1) => (r, w1, t1)
  end.

(** A for loop [for j := j0; j < j0 + n; j++] threading the local state [s]. *)
Fixpoint for_range {R S} (n : nat) (j : Z) (body : Z -> S -> M R S) (s : S) : M R S :=
  match n with
  | O => ret s
  | S n' => s' <- body j s ;; for_range n' (j + 1) body s'
  end.

Definition log_Printf {R} (msg : string) : M R unit := emit [Log msg].

Section Engine.

(** [filepath.Dir] and [filepath.Join] belong to the Go library; the engine
    only composes them, so they are parameters of the model. *)
Variable filepath_Dir : string -> string.
Variable filepath_Join : string -> string -> string.

Variable env : Env.

(** *** System calls

    Every fallible call consumes one tick of the oracle.  A call the oracle
    fails has no effect on the files. *)

Definition tick (w : World) : World :=
  mkWorld (fs w) (handle w) (S (ticks w)) (drawn w).

(** [os.Stat(name)], reduced to the size it reports. *)
Definition os_Stat {R} (name : string) : M R (error + Z) := fun w =>
  match fault env (ticks w) with
  | Some text => (Next (inl (PathError "stat" name (Errno_other text))), tick w, [Call (Stat name) false])
  | None =>
      match fs w !! name with
      | None => (Next (inl (PathError "stat" name ENOENT)), tick w, [Call (Stat name) false])
      | Some content => (Next (inr (Z.of_nat (length content))), tick w, [Call (Stat name) true])
      end
  end.

(** [os.OpenFile(name, os.O_RDWR, 0)]: the handle starts at offset 0. *)
Definition os_OpenFile {R} (name : string) : M R (option error) := fun w =>
  match fault env (ticks w) with
  | Some text => (Next (Some (PathError "open" name (Errno_other text))), tick w, [Call (OpenFile name) false])
  | None =>
      match fs w !! name with
      | None => (Next (Some (PathError "open" name ENOENT)), tick w, [Call (OpenFile name) false])
      | Some _ =>
          (Next None, mkWorld (fs w) (Some (name, 0)) (S (ticks w)) (drawn w),
           [Call (OpenFile name) true])
      end
  end.

(** [file.Seek(offset, io.SeekStart)] *)
Definition file_Seek {R} (offset : Z) : M R (option error) := fun w =>
  match fault env (ticks w), handle w with
  | Some text, Some (name, _) =>
      (Next (Some (PathError "seek" name (Errno_other text))), tick w, [Call (Seek offset) false])
  | Some text, None =>
      (Next (Some (PathError "seek" "" (Errno_other text))), tick w, [Call (Seek offset) false])
  | None, None =>
      (Next (Some (PathError "seek" "" ErrClosed)), tick w, [Call (Seek offset) false])
  | None, Some (name, _) =>
      (Next None, mkWorld (fs w) (Some (name, offset)) (S (ticks w)) (drawn w),
       [Call (Seek offset) true])
  end.

(** [rand.Read(data)] for a buffer of [n] bytes: the next [n] bytes of the
    random source. *)
Definition rand_Read {R} (n : Z) : M R (error + list byte) := fun w =>
  match fault env (ticks w) with
  | Some text => (Next (inl (errorString text)), tick w, [Call (RandRead n []) false])
  | None =>
      let data := map (entropy env) (seq (drawn w) (Z.to_nat n)) in
      (Next (inr data),
       mkWorld (fs w) (handle w) (S (ticks w)) (drawn w + Z.to_nat n)%nat,
       [Call (RandRead n data) true])
  end.

(** [file.Write(data)]: at the handle's offset, which then advances. *)
Definition file_Write {R} (data : list byte) : M R (option error) := fun w =>
  match handle w with
  | None => (Next (Some (PathError "write" "" ErrClosed)), tick w, [Call (Write 0 data) false])
  | Some (name, off) =>
      match fault env (ticks w) with
      | Some text =>
          (Next (Some (PathError "write" name (Errno_other text))), tick w,
           [Call (Write off data) false])
      | None =>
          match fs w !! name with
          | None =>
              (Next (Some (PathError "write" name ENOENT)), tick w,
               [Call (Write off data) false])
          | Some content =>
              (Next None,
               mkWorld (<[name := write_at content (Z.to_nat off) data]> (fs w))
                 (Some (name, off + Z.of_nat (length data))) (S (ticks w)) (drawn w),
               [Call (Write off data) true])
          end
      end
  end.

(** [file.Sync()] *)
Definition file_Sync {R} : M R (option error) := fun w =>
  match fault env (ticks w), handle w with
  | Some text, Some (name, _) =>
      (Next (Some (PathError "sync" name (Errno_other text))), tick w, [Call Sync false])
  | Some text, None =>
      (Next (Some (PathError "sync" "" (Errno_other text))), tick w, [Call Sync false])
  | None, None => (Next (Some (PathError "sync" "" ErrClosed)), tick w, [Call Sync false])
  | None, Some _ => (Next None, tick w, [Call Sync true])
  end.

(** [file.Close()]: the handle is gone afterwards even when the call reports
    an error; closing twice is an error. *)
Definition file_Close {R} (name : string) : M R (option error) := fun w =>
  let w' := mkWorld (fs w) None (S (ticks w)) (drawn w) in
  match handle w with
  | None => (Next (Some (PathError "close" name ErrClosed)), w', [Call Close false])
  | Some _ =>
      match fault env (ticks w) with
      | Some text => (Next (Some (PathError "close" name (Errno_other text))), w', [Call Close false])
      | None => (Next None, w', [Call Close true])
      end
  end.

(** [os.Truncate(name, size)] *)
Definition os_Truncate {R} (name : string) (size : Z) : M R (option error) := fun w =>
  match fault env (ticks w) with
  | Some text =>
      (Next (Some (PathError "truncate" name (Errno_other text))), tick w,
       [Call (Truncate name size) false])
  | None =>
      match fs w !! name with
      | None =>
          (Next (Some (PathError "truncate" name ENOENT)), tick w,
           [Call (Truncate name size) false])
      | Some content =>
          (Next None,
           mkWorld (<[name := resize content (Z.to_nat size)]> (fs w))
             (handle w) (S (ticks w)) (drawn w),
           [Call (Truncate name size) true])
      end
  end.

(** [os.Rename(oldpath, newpath)]: the file moves, replacing whatever was at
    [newpath]; renaming a path to itself changes nothing. *)
Definition os_Rename {R} (oldpath newpath : string) : M R (option error) := fun w =>
  match fault env (ticks w) with
  | Some text =>
      (Next (Some (LinkError "rename" oldpath newpath (Errno_other text))), tick w,
       [Call (Rename oldpath newpath) false])
  | None =>
      match fs w !! oldpath with
      | None =>
          (Next (Some (LinkError "rename" oldpath newpath ENOENT)), tick w,
           [Call (Rename oldpath newpath) false])
      | Some content =>
          (Next None,
           mkWorld (<[newpath := content]> (delete oldpath (fs w)))
             (handle w) (S (ticks w)) (drawn w),
           [Call (Rename oldpath newpath) true])
      end
  end.

(** [os.Remove(name)] *)
Definition os_Remove {R} (name : string) : M R (option error) := fun w =>
  match fault env (ticks w) with
  | Some text =>
      (Next (Some (PathError "remove" name (Errno_other text))), tick w,
       [Call (Remove name) false])
  | None =>
      match fs w !! name with
      | None =>
          (Next (Some (PathError "remove" name ENOENT)), tick w, [Call (Remove name) false])
      | Some _ =>
          (Next None, mkWorld (delete name (fs w)) (handle w) (S (ticks w)) (drawn w),
           [Call (Remove name) true])
      end
  end.

(** [time.Now().Unix()] *)
Definition time_Now_Unix {R} : M R Z := fun w => (Next (clock env), w, [Now (clock env)]).

(** ** The engine (main.go, lines 19-155) *)

(** A progress callback is a function value that may be nil; what it does
    with the percentage is to hand lines to a logger. *)
Definition ProgressCallback : Type := option (Z -> list string).

(** [if progressCallback != nil { progressCallback(percentage) }] *)
Definition report {R} (progressCallback : ProgressCallback) (percentage : Z) : M R unit :=
  match progressCallback with
  | Some body => emit (Progress percentage :: map Log (body percentage))
  | None => ret tt
  end.

(** What [SecureShredFile] returns: [(bool, string, error)]. *)
Definition Result : Type := bool * string * option error.

(** Lines 59-85: one window of a random pass. *)
Definition random_chunk (filePath : string) (fileSize totalSteps : Z)
    (progressCallback : ProgressCallback) (j currentStep : Z) : M Result Z :=
  let bufferSize := bufferSize fileSize j in
  r <- rand_Read bufferSize ;;
  match r with
  | inl err =>
      return_ (false, "", Some (fmt_Errorf_w
        ("error generating random data for " ++ filePath ++ ": ") err))
  | inr data =>
      err <- file_Write data ;;
      match err with
      | Some err =>
          return_ (false, "", Some (fmt_Errorf_w
            ("error writing random data to " ++ filePath ++ ": ") err))
      | None =>
          err <- file_Sync ;;
          match err with
          | Some err =>
              return_ (false, "", Some (fmt_Errorf_w
                ("error syncing file " ++ filePath ++ " after writing random data: ") err))
          | None =>
              let currentStep := Int64.add currentStep 1 in
              report progressCallback (percentage currentStep totalSteps) ;;;
              ret currentStep
          end
      end
  end.

(** Lines 53-86: one random pass. *)
Definition random_pass (filePath : string) (fileSize totalSteps : Z)
    (progressCallback : ProgressCallback) (i currentStep : Z) : M Result Z :=
  err <- file_Seek 0 ;;
  match err with
  | Some err =>
      return_ (false, "", Some (fmt_Errorf_w ("error seeking file " ++ filePath ++ ": ") err))
  | None =>
      for_range (Z.to_nat (numChunks fileSize)) 0
        (random_chunk filePath fileSize totalSteps progressCallback) currentStep
  end.

(** Lines 96-116: one window of the zero pass; [zeroBuffer[:bufferSize]] is
    [bufferSize] zero bytes. *)
Definition zero_chunk (filePath : string) (fileSize totalSteps : Z)
    (progressCallback : ProgressCallback) (j currentStep : Z) : M Result Z :=
  let zeroBuffer := replicate (Z.to_nat chunkSize) x00 in
  let bufferSize := bufferSize fileSize j in
  err <- file_Write (take (Z.to_nat bufferSize) zeroBuffer) ;;
  match err with
  | Some err =>
      return_ (false, "", Some (fmt_Errorf_w ("error writing zeros to " ++ filePath ++ ": ") err))
  | None =>
      err <- file_Sync ;;
      match err with
      | Some err =>
          return_ (false, "", Some (fmt_Errorf_w
            ("error syncing file " ++ filePath ++ " after writing zeros: ") err))
      | None =>
          let currentStep := Int64.add currentStep 1 in
          report progressCallback (percentage currentStep totalSteps) ;;;
          ret currentStep
      end
  end.

(** Lines 119-154: close, truncate, rename, final report. *)
Definition finalize (filePath : string) (progressCallback : ProgressCallback) : M Result Result :=
  closeErr <- file_Close filePath ;;
  match closeErr with
  | Some closeErr =>
      return_ (false, "", Some (fmt_Errorf_w
        ("error closing file " ++ filePath ++ " before final operations: ") closeErr))
  | None =>
      err <- os_Truncate filePath 0 ;;
      match err with
      | Some err =>
          return_ (false, "", Some (fmt_Errorf_w ("error truncating file " ++ filePath ++ ": ") err))
      | None =>
          let dir := filepath_Dir filePath in
          r <- rand_Read 32 ;;
          match r with
          | inl err =>
              return_ (false, "", Some (fmt_Errorf_w
                "error generating random bytes for new file name: " err))
          | inr randomBytes =>
              let randomSuffix := Base64.EncodeToString randomBytes in
              now <- time_Now_Unix ;;
              let timestampStr := strconv_FormatInt now in
              let timestampEncoded := Base64.EncodeToString (bytes_of_string timestampStr) in
              let newFileName := (timestampEncoded ++ "_" ++ randomSuffix)%string in
              let newPath := filepath_Join dir newFileName in
              err <- os_Rename filePath newPath ;;
              match err with
              | Some err =>
                  return_ (false, "", Some (fmt_Errorf_w
                    ("error renaming file from " ++ filePath ++ " to " ++ newPath ++ ": ") err))
              | None =>
                  log_Printf ("Redacted: " ++ filePath ++ " -> Renamed to: " ++ newPath) ;;;
                  report progressCallback 100 ;;;
                  return_ (true, newPath, None)
              end
          end
      end
  end.

(** Lines 40-154: everything after the handle is open. *)
Definition overwrite (filePath : string) (fileSize passes : Z)
    (progressCallback : ProgressCallback) : M Result Result :=
  let totalSteps := totalSteps passes fileSize in
  let currentStep := 0 in
  currentStep <- for_range (Z.to_nat passes) 0
    (random_pass filePath fileSize totalSteps progressCallback) currentStep ;;
  err <- file_Seek 0 ;;
  match err with
  | Some err =>
      return_ (false, "", Some (fmt_Errorf_w
        ("error seeking file " ++ filePath ++ " before zeroing: ") err))
  | None =>
      for_range (Z.to_nat (numChunks fileSize)) 0
        (zero_chunk filePath fileSize totalSteps progressCallback) currentStep ;;;
      finalize filePath progressCallback
  end.

(** Lines 34-38: the deferred close, which logs when closing fails. *)
Definition deferred_close (filePath : string) : M Result unit :=
  closeErr <- file_Close filePath ;;
  match closeErr with
  | Some closeErr => log_Printf ("Error closing file " ++ filePath ++ ": " ++ Error closeErr)
  | None => ret tt
  end.

(** Lines 21-155. *)
Definition SecureShredFile_body (filePath : string) (passes : Z)
    (progressCallback : ProgressCallback) : M Result Result :=
  r <- os_Stat filePath ;;
  match r with
  | inl err =>
      if os_IsNotExist err then
        return_ (false, "", Some (errorString ("file does not exist: " ++ filePath)))
      else
        return_ (false, "", Some (fmt_Errorf_w
          ("error getting file info for " ++ filePath ++ ": ") err))
  | inr fileSize =>
      err <- os_OpenFile filePath ;;
      match err with
      | Some err =>
          return_ (false, "", Some (fmt_Errorf_w
            ("no write permission or error opening file " ++ filePath ++ ": ") err))
      | None =>
          defer (deferred_close filePath)
            (overwrite filePath fileSize passes progressCallback)
      end
  end.

Definition SecureShredFile (filePath : string) (passes : Z)
    (progressCallback : ProgressCallback) : World -> Result * World * list event :=
  call (SecureShredFile_body filePath passes progressCallback).

(** ** The exported wrapper (main.go, lines 157-192) *)

(** How [shred] ends: it returns, or [log.Fatalf] ends the process. *)
Inductive exit_status := Returned | Exited (code : Z).

(** Lines 162-164: the callback [shred] installs. *)
Definition shred_progressCallback : ProgressCallback :=
  Some (fun percentage =>
          [(String (ascii_of_nat 13) "Shredding progress: "
              ++ strconv_FormatInt percentage ++ "%")%string]).

Definition shred_body (path : string) (count : Z) : M exit_status exit_status :=
  let filePath := path in
  let passes := count in
  log_Printf (String (ascii_of_nat 10) "Starting file shredding...") ;;;
  res <- (fun w => let '(r, w', t) := SecureShredFile filePath passes shred_progressCallback w
                   in (Next r, w', t)) ;;
  let '(success, newPath, shredErr) := res in
  log_Printf "" ;;;
  match shredErr with
  | Some shredErr =>
      log_Printf ("File shredding failed: " ++ Error shredErr) ;;;
      emit [Exit 1] ;;;
      return_ (Exited 1)
  | None =>
      (if success then
         log_Printf ("File shredded successfully! Original: " ++ filePath
                     ++ ", Renamed to: " ++ newPath ++ String (ascii_of_nat 10) "") ;;;
         r <- os_Stat filePath ;;
         match r with
         | inl err =>
             if negb (os_IsNotExist err) then
               log_Printf ("Warning: Original file '" ++ filePath
                           ++ "' still exists after shredding." ++ String (ascii_of_nat 10) "")
             else
               log_Printf ("Original file '" ++ filePath ++ "' no longer exists."
                           ++ String (ascii_of_nat 10) "")
         | inr _ =>
             log_Printf ("Warning: Original file '" ++ filePath
                         ++ "' still exists after shredding." ++ String (ascii_of_nat 10) "")
         end
       else
         log_Printf ("File shredding failed for " ++ filePath ++ ". New path: " ++ newPath
                     ++ String (ascii_of_nat 10) "")) ;;;
      (if success then
         err <- os_Remove newPath ;;
         match err with
         | Some err => log_Printf ("Error removing renamed file " ++ newPath ++ ": " ++ Error err)
         | None =>
             log_Printf ("Cleaned up renamed file '" ++ newPath ++ "'."
                         ++ String (ascii_of_nat 10) "")
         end
       else ret tt) ;;;
      return_ Returned
  end.

Definition shred (path : string) (count : Z) : World -> exit_status * World * list event :=
  call (shred_body path count).

End Engine.

(** ** Concrete environments for running the model *)

Module Sample.

(** A lexical [Dir] and [Join] for clean slash-separated paths, enough to
    run the engine on examples: the directory of [a/b/c] is [a/b]. *)
Fixpoint split_last (s : string) : option (string * string) :=
  match s with
  | EmptyString => None
  | String c rest =>
      match split_last rest with
      | Some (d, base) => Some (String c d, base)
      | None => if Ascii.eqb c "/" then Some (EmptyString, rest) else None
      end
  end.

Definition Dir (path : string) : string :=
  match split_last path with
  | Some (EmptyString, _) => "/"
  | Some (d, _) => d
  | None => "."
  end.

Definition Join (dir name : string) : string :=
  if String.eqb dir "/" then (dir ++ name)%string
  else if String.eqb dir "." then name
  else (dir ++ "/" ++ name)%string.

(** A random source that counts: byte [i] is [i mod 256]. *)
Definition counting (i : nat) : byte :=
  match Byte.of_N (N.of_nat (i mod 256)) with
  | Some b => b
  | None => x00
  end.

(** No call fails. *)
Definition reliable : Env := mkEnv (fun _ => None) counting 1700000000.

(** Only the [k]-th fallible call fails, with the text [text]. *)
Definition failing (k : nat) (text : string) : Env :=
  mkEnv (fun i => if Nat.eqb i k then Some text else None) counting 1700000000.

(** One file of [n] bytes [x41] at [path], no open handle. *)
Definition disk (path : string) (n : nat) : World :=
  mkWorld {[ path := replicate n x41 ]} None 0 0.

End Sample.

(** ** Observations on traces *)

(** The percentages handed to the progress callback, in order. *)
Definition progress_of (t : list event) : list Z :=
  omap (fun e => match e with Progress p => Some p | _ => None end) t.

(** The writes that succeeded, in order: offset and bytes. *)
Definition writes_of (t : list event) : list (Z * list byte) :=
  omap (fun e => match e with Call (Write off data) true => Some (off, data) | _ => None end) t.

(** The reads of the random source that succeeded, in order. *)
Definition rand_reads_of (t : list event) : list (list byte) :=
  omap (fun e => match e with Call (RandRead _ data) true => Some data | _ => None end) t.

(** The window a write covers: offset and length. *)
Definition window_of (wr : Z * list byte) : Z * Z := (wr.1, Z.of_nat (length wr.2)).

(** The windows one pass writes: [n] windows from index [j], the first at
    offset [off], each where the one before ended (lines 58-65 and 73). *)
Fixpoint windows_from (fileSize : Z) (n : nat) (j off : Z) : list (Z * Z) :=
  match n with
  | O => []
  | S n' =>
      (off, bufferSize fileSize j)
        :: windows_from fileSize n' (j + 1) (off + bufferSize fileSize j)
  end.

Definition windows (fileSize : Z) : list (Z * Z) :=
  windows_from fileSize (Z.to_nat (numChunks fileSize)) 0 0.

(** Total number of bytes a list of windows covers. *)
Definition covered (ws : list (Z * Z)) : Z := foldr (fun w acc => w.2 + acc) 0 ws.

(** The replacement file name of lines 135-140 for a given clock reading and
    given random bytes. *)
Definition obfuscated_name (unix : Z) (randomBytes : list byte) : string :=
  (Base64.EncodeToString (bytes_of_string (strconv_FormatInt unix))
     ++ "_" ++ Base64.EncodeToString randomBytes)%string.

(** The size [os.Stat] reports for [path], if the file exists. *)
Definition size_of (w : World) (path : string) : option Z :=
  (fun content => Z.of_nat (length content)) <$> fs w !! path.

(** A trace ends with a write and its flush, both successful. *)
Definition flushed (pre : list event) : Prop :=
  exists pre' off data, pre = pre' ++ [Call (Write off data) true; Call Sync true].

(** A trace ends with the successful rename and the log line that follows it. *)
Definition renamed (pre : list event) : Prop :=
  exists pre' old new msg, pre = pre' ++ [Call (Rename old new) true; Log msg].

(** Non-decreasing sequences of integers. *)
Fixpoint nondecreasing (l : list Z) : Prop :=
  match l with
  | [] => True
  | x :: rest => match rest with [] => True | y :: _ => x <= y end /\ nondecreasing rest
  end.

(** Whether [path] occurs in the text [msg]. *)
Definition mentions (msg path : string) : bool :=
  match String.index 0 path msg with
  | Some _ => true
  | None => false
  end.

(** The events of one callback invocation, if there is a callback. *)
Definition report_events (progressCallback : ProgressCallback) (percentage : Z) : list event :=
  match progressCallback with
  | Some body => Progress percentage :: map Log (body percentage)
  | None => []
  end.

(** The calls the overwrite passes make on the open handle. *)
Definition overwrite_call (c : syscall) : Prop :=
  match c with
  | Seek _ | RandRead _ _ | Write _ _ | Sync => True
  | _ => False
  end.

(** The events of the overwrite passes. *)
Definition overwrite_event (e : event) : Prop :=
  match e with
  | Call c _ => overwrite_call c
  | Progress _ | Log _ => True
  | _ => False
  end.

(** The last event of a trace is a failed call. *)
Definition ends_failed (t : list event) : Prop :=
  exists pre c, t = pre ++ [Call c false].

(** The failure results of [SecureShredFile]: [false, "", err] with a non-nil
    [err]. *)
Definition failure (r : Result) : Prop := exists e, r = (false, EmptyString, Some e).

(** Every progress report in the trace comes right after a successful write
    and its successful flush, or is the report of 100 that follows the
    rename. *)
Definition reported_after_flush (t : list event) : Prop :=
  forall pre p post, t = pre ++ Progress p :: post ->
    flushed pre \/ (renamed pre /\ p = 100).

(** What the bodies of the two chunk loops have in common.  Either a call
    fails and the body returns the failure at once, or the window is
    written and flushed, the step counter advances and the report is made;
    in the zero pass ([zero = true]) the bytes written are zeros and nothing
    comes before the write. *)
Definition chunk_like (zero : bool) (L T : Z) (cb : ProgressCallback)
    (body : Z -> Z -> M Result Z) : Prop :=
  forall j cs w,
    (exists e w' t,
        body j cs w = (Return (false, EmptyString, Some e), w', t)
        /\ progress_of t = [] /\ Forall overwrite_event t /\ ends_failed t) \/
    (exists name off content data rr k d,
        handle w = Some (name, off) /\ fs w !! name = Some content /\
        Z.of_nat (length data) = bufferSize L j /\
        (zero = true -> data = replicate (length data) x00 /\ rr = []) /\
        Forall overwrite_event rr /\ progress_of rr = [] /\ writes_of rr = [] /\
        body j cs w
        = (Next (Int64.add cs 1),
           mkWorld (<[name := write_at content (Z.to_nat off) data]> (fs w))
             (Some (name, off + bufferSize L j)) k d,
           rr ++ [Call (Write off data) true; Call Sync true]
              ++ report_events cb (percentage (Int64.add cs 1) T))).

(** The percentages reported for steps [cs + 1] to [cs + n]. *)
Definition reports (cb : ProgressCallback) (T cs : Z) (n : nat) : list Z :=
  match cb with
  | Some _ => map (fun k => percentage (Int64.wrap64 (cs + Z.of_nat k)) T) (seq 1 n)
  | None => []
  end.

(** A write of zero bytes only. *)
Definition zero_write (wr : Z * list byte) : Prop := wr.2 = replicate (length wr.2) x00.

(** The rename attempts of a trace, in order: source, target, outcome. *)
Definition renames_of (t : list event) : list (string * string * bool) :=
  omap (fun e => match e with Call (Rename old new) ok => Some (old, new, ok) | _ => None end) t.

(** The trace of the finalizer up to the rename, when nothing failed before
    it (lines 119-143). *)
Definition finalizer_prefix (filePath : string) (randomBytes : list byte) (unix : Z)
    : list event :=
  [Call Close true; Call (Truncate filePath 0) true;
   Call (RandRead 32 randomBytes) true; Now unix].

(** Every rename attempt in the trace moves [filePath] to a name built from
    the clock and from the 32 bytes the random source has just delivered,
    in the directory of [filePath]. *)
Definition rename_target (env : Env) (filepath_Dir : string -> string)
    (filepath_Join : string -> string -> string) (filePath : string)
    (t : list event) : Prop :=
  forall pre old new ok post, t = pre ++ Call (Rename old new) ok :: post ->
    old = filePath /\
    exists randomBytes pre' d,
      pre = pre' ++ [Call (RandRead 32 randomBytes) true; Now (clock env)] /\
      randomBytes = map (entropy env) (seq d 32) /\
      new = filepath_Join (filepath_Dir filePath) (obfuscated_name (clock env) randomBytes).

(** A block of the overwrite phase behaves in an orderly way: its events are
    those of the overwrite passes, reports follow flushes, and if the block
    executes [return] it returns a failure right after a call that failed. *)
Definition orderly {A} (s : step Result A) (t : list event) : Prop :=
  Forall overwrite_event t /\ reported_after_flush t /\
  forall r, s = Return r -> failure r /\ ends_failed t.

(** How the engine can end once the handle is open: with a failure right
    after a failed call, or with success, the returned path being the target
    of the one rename of the trace, which succeeded. *)
Definition engine_result (filePath : string) (r : Result) (t : list event) : Prop :=
  (failure r /\ ends_failed t) \/
  (exists newPath, r = (true, newPath, None) /\ renames_of t = [(filePath, newPath, true)]).

(** The anatomy of a successful run on a file of [L] bytes: the trace is
    made of the status and open calls, the random passes [t_rand], the seek
    and the zero pass [t_zero], the finalizer, the final report and the
    deferred close, which finds the handle closed already. *)
Definition successful_run (env : Env) (filepath_Dir : string -> string)
    (filepath_Join : string -> string -> string) (filePath : string) (passes : Z)
    (cb : ProgressCallback) (L : Z) (newPath : string) (t : list event) : Prop :=
  let T := totalSteps passes L in
  let n := Z.to_nat (numChunks L) in
  exists t_rand t_zero d,
    let randomBytes := map (entropy env) (seq d 32) in
    t = [Call (Stat filePath) true; Call (OpenFile filePath) true]
          ++ t_rand ++ [Call (Seek 0) true] ++ t_zero
          ++ finalizer_prefix filePath randomBytes (clock env)
          ++ [Call (Rename filePath newPath) true;
              Log ("Redacted: " ++ filePath ++ " -> Renamed to: " ++ newPath)]
          ++ report_events cb 100
          ++ [Call Close false;
              Log ("Error closing file " ++ filePath ++ ": "
                   ++ Error (PathError "close" filePath ErrClosed))] /\
    newPath = filepath_Join (filepath_Dir filePath) (obfuscated_name (clock env) randomBytes) /\
    Forall overwrite_event t_rand /\
    map window_of (writes_of t_rand) = concat (replicate (Z.to_nat passes) (windows L)) /\
    progress_of t_rand = reports cb T 0 (Z.to_nat passes * n) /\
    Forall overwrite_event t_zero /\
    map window_of (writes_of t_zero) = windows L /\
    Forall zero_write (writes_of t_zero) /\
    rand_reads_of t_zero = [] /\
    progress_of t_zero = reports cb T (Int64.wrap64 (Z.of_nat (Z.to_nat passes * n))) n /\
    (Z.to_nat passes = 0%nat -> t_rand = []).

(** ** Rounding to nearest, ties to even, on integers

    [rne num den] is the integer nearest to [num / den], the even one of the
    two when they are equally near.  It is what [SpecFloat]'s rounding
    computes from a mantissa with its round and sticky bits, which
    [repr num den] relates to the quotient they came from. *)
Definition rne (num den : Z) : Z :=
  let q := num / den in
  let r := num mod den in
  if 2 * r <? den then q
  else if den <? 2 * r then q + 1
  else if Z.even q then q else q + 1.

(** The record [mrs] holds the integer part of [num / den], whether the
    fraction is at least one half (round bit), and whether anything is left
    besides (sticky bit). *)
Definition repr (num den : Z) (mrs : shr_record) : Prop :=
  shr_m mrs = num / den /\
  shr_r mrs = (den <=? 2 * (num mod den)) /\
  shr_s mrs = negb ((num mod den =? 0) || (2 * (num mod den) =? den)).

(** [x] is the positive normal float whose value is [rne a b * 2^c]: the
    mantissa [rne a b] at exponent [c], or [2^52] at exponent [c + 1] when
    [rne a b] is [2^53]. *)
Definition rounds_to (a b c : Z) (x : spec_float) : Prop :=
  exists M E,
    x = S754_finite false M E /\
    2 ^ 52 <= Z.pos M < 2 ^ 53 /\
    ((E = c /\ Z.pos M = rne a b) \/
     (E = c + 1 /\ Z.pos M = 2 ^ 52 /\ rne a b = 2 ^ 53)).

(** The order of positive normal floats: by exponent, then by mantissa. *)
Definition Fle (x y : spec_float) : Prop :=
  match x, y with
  | S754_finite false M E, S754_finite false M' E' =>
      2 ^ 52 <= Z.pos M < 2 ^ 53 /\ 2 ^ 52 <= Z.pos M' < 2 ^ 53 /\
      (E < E' \/ (E = E' /\ Z.pos M <= Z.pos M'))
  | _, _ => False
  end.

(** The order of the reals [a/b * 2^c] and [a'/b' * 2^c'] when both
    quotients lie between [2^52] and [2^53]. *)
Definition Tle (a b c a' b' c' : Z) : Prop :=
  c < c' \/ (c = c' /\ a * b' <= a' * b).

(** ** Footprint and errors of a run *)

(** The handle, if the program holds one, is on [filePath]. *)
Definition held (filePath : string) (w : World) : Prop :=
  forall name off, handle w = Some (name, off) -> name = filePath.

(** From [w] to [w'] no file other than [filePath] has changed, and a file
    that was at [filePath] is still there, whatever it holds now. *)
Definition confined (filePath : string) (w w' : World) : Prop :=
  (forall p, p <> filePath -> fs w' !! p = fs w !! p) /\
  (is_Some (fs w !! filePath) -> is_Some (fs w' !! filePath)).

(** The failures of the engine: the result is [false, "", err], and [err]
    is either the plain "file does not exist" error or wraps its cause
    behind a text of the program, which contains [filePath] unless the
    failure is that of the random source while the new name is made. *)
Definition explained (filePath : string) (r : Result) : Prop :=
  exists e, r = (false, EmptyString, Some e) /\
    (e = errorString ("file does not exist: " ++ filePath) \/
     exists text cause,
       e = fmt_Errorf_w text cause /\
       (text = "error generating random bytes for new file name: "%string \/
        exists before after, text = (before ++ filePath ++ after)%string)).

(** A block that leaves the handle where it is, touches no file but
    [filePath], and returns nothing but explained failures. *)
Definition tidy {A} (filePath : string) (m : M Result A) : Prop :=
  forall w s w' t, held filePath w -> m w = (s, w', t) ->
    held filePath w' /\ confined filePath w w' /\
    forall r, s = Return r -> explained filePath r.

(** A block that is tidy unless it returns success, in which case the file
    that was at [filePath] is at the returned path and nothing else has
    changed. *)
Definition settled {A} (filePath : string) (m : M Result A) : Prop :=
  forall w s w' t, held filePath w -> m w = (s, w', t) ->
    (exists newPath c,
        s = Return (true, newPath, None) /\
        fs w' = <[newPath := c]> (delete filePath (fs w))) \/
    (held filePath w' /\ confined filePath w w' /\
     forall r, s = Return r -> explained filePath r).

(** Every successful write carries zero bytes only, or exactly the bytes the
    random source has delivered in the call just before it. *)
Definition sourced (env : Env) (t : list event) : Prop :=
  forall pre off data post, t = pre ++ Call (Write off data) true :: post ->
    data = replicate (length data) x00 \/
    exists pre' n d,
      pre = pre' ++ [Call (RandRead n data) true] /\
      data = map (entropy env) (seq d (Z.to_nat n)).

(** ** The shape of the new name *)

(** The characters of the URL-safe base64 alphabet: letters, digits, [-]
    and [_]. *)
Definition url_safe (c : ascii) : bool :=
  let n := nat_of_ascii c in
  (Nat.leb 65 n && Nat.leb n 90) || (Nat.leb 97 n && Nat.leb n 122)
  || (Nat.leb 48 n && Nat.leb n 57) || Nat.eqb n 45 || Nat.eqb n 95.

Fixpoint string_forall (p : ascii -> bool) (s : string) : bool :=
  match s with
  | EmptyString => true
  | String c rest => p c && string_forall p rest
  end.

(** ** The logger (main.go, lines 17 and 194-208)

    The exported functions share two pieces of process state: the package
    variable [logFile] and the output of the standard logger.  What the
    logger writes is recorded in the trace, not in the files. *)

(** Where the standard logger writes: the standard error stream when the
    process starts, or the file [log.SetOutput] was given. *)
Inductive log_writer := Stderr | LogTo (file : string).

Record Process := mkProcess {
  world : World;
  logFile : option string;     (* line 17: [var logFile *os.File]; [None] is nil *)
  log_output : log_writer;
  open_logs : list string      (* the files [init_logger] opened that are still open *)
}.

(** [os.OpenFile(name, os.O_CREATE|os.O_WRONLY|os.O_APPEND, 0666)]: the file
    is created empty when it does not exist, and is left as it is when it
    does. *)
Definition os_OpenFile_append (env : Env) (name : string) (w : World)
    : (error + string) * World * list event :=
  match fault env (ticks w) with
  | Some text =>
      (inl (PathError "open" name (Errno_other text)), tick w, [Call (OpenFile name) false])
  | None =>
      (inr name,
       mkWorld (match fs w !! name with
                | Some _ => fs w
                | None => <[name := []]> (fs w)
                end) (handle w) (S (ticks w)) (drawn w),
       [Call (OpenFile name) true])
  end.

(** Lines 195-201.  [logFile, err := os.OpenFile(...)] declares both
    variables in the scope of the function: the package variable of the same
    name is not assigned. *)
Definition init_logger (env : Env) (p : Process) : exit_status * Process * list event :=
  match os_OpenFile_append env "shredder.log" (world p) with
  | (inl err, w', t) =>
      (Exited 1, mkProcess w' (logFile p) (log_output p) (open_logs p),
       t ++ [Log ("Failed to open log file: " ++ Error err); Exit 1])
  | (inr local_logFile, w', t) =>
      (Returned,
       mkProcess w' (logFile p) (LogTo local_logFile) (local_logFile :: open_logs p), t)
  end.

(** One descriptor on [file] less. *)
Fixpoint close_one (file : string) (open : list string) : list string :=
  match open with
  | [] => []
  | f :: rest => if String.eqb f file then rest else f :: close_one file rest
  end.

(** Lines 204-208: the result of [Close] is dropped. *)
Definition close_logger (env : Env) (p : Process) : exit_status * Process * list event :=
  match logFile p with
  | Some file =>
      (Returned,
       mkProcess (tick (world p)) (logFile p) (log_output p) (close_one file (open_logs p)),
       [Call Close match fault env (ticks (world p)) with Some _ => false | None => true end])
  | None => (Returned, p, [])
  end.

(** [shred] as a step of the process. *)
Definition shred_in (filepath_Dir : string -> string)
    (filepath_Join : string -> string -> string) (env : Env)
    (path : string) (count : Z) (p : Process) : exit_status * Process * list event :=
  let '(st, w', t) := shred filepath_Dir filepath_Join env path count (world p) in
  (st, mkProcess w' (logFile p) (log_output p) (open_logs p), t).

(** The calls a host process can make. *)
Inductive export :=
| Shred (path : string) (count : Z)
| InitLogger
| CloseLogger.

(** A sequence of calls, up to the first that ends the process. *)
Fixpoint calls (filepath_Dir : string -> string)
    (filepath_Join : string -> string -> string) (env : Env)
    (cs : list export) (p : Process) : exit_status * Process * list event :=
  match cs with
  | [] => (Returned, p, [])
  | c :: rest =>
      let '(st, p1, t1) :=
        match c with
        | Shred path count => shred_in filepath_Dir filepath_Join env path count p
        | InitLogger => init_logger env p
        | CloseLogger => close_logger env p
        end in
      match st with
      | Returned =>
          let '(st', p2, t2) := calls filepath_Dir filepath_Join env rest p1 in
          (st', p2, t1 ++ t2)
      | Exited code => (Exited code, p1, t1)
      end
  end.

(** The process as it starts. *)
Definition start (w : World) : Process := mkProcess w None Stderr [].

(** ** Floats as rationals

    The value of a float64 as an exact rational, to measure how far the
    floating-point percentage of lines 84 and 115 is from [100 * k / T]. *)
Module Exact.
Import QArith Qpower.

(** The rational a positive finite float stands for. *)
Definition value (x : spec_float) : Q :=
  match x with
  | S754_finite false m e => inject_Z (Z.pos m) * 2 ^ e
  | _ => 0
  end.

(** Half a unit in the last place of a float64 significand, [2^-53]. *)
Definition eps : Q := 1 # 9007199254740992.

End Exact.

(** * Properties *)

(** ** Sequencing *)

Lemma bind_inv {R A B} (m : M R A) (k : A -> M R B) w s w' t :
  bind m k w = (s, w', t) ->
  (exists r, m w = (Return r, w', t) /\ s = Return r) \/
  (exists a w1 t1 t2, m w = (Next a, w1, t1) /\ k a w1 = (s, w', t2) /\ t = t1 ++ t2).
Proof.
  unfold bind. destruct (m w) as [[[a | r] w1] t1].
  - destruct (k a w1) as [[s2 w2] t2] eqn:Hk. intros [= <- <- <-].
    right. eauto 10.
  - intros [= <- <- <-]. left. eauto.
Qed.

Lemma for_range_S {R S} n j (body : Z -> S -> M R S) s :
  for_range (Datatypes.S n) j body s = bind (body j s) (fun s' => for_range n (j + 1) body s').
Proof. reflexivity. Qed.

(** ** Integers and the planner *)

Lemma wrap64_small z : Int64.min_signed <= z <= Int64.max_signed -> Int64.wrap64 z = z.
Proof.
  unfold Int64.wrap64, Int64.min_signed, Int64.max_signed, Int64.modulus. intros H.
  rewrite Z.mod_small; lia.
Qed.

Lemma wrap64_add_l a b : Int64.wrap64 (Int64.wrap64 a + b) = Int64.wrap64 (a + b).
Proof.
  unfold Int64.wrap64, Int64.modulus.
  replace ((a + 2 ^ 63) mod 2 ^ 64 - 2 ^ 63 + b + 2 ^ 63)
    with ((a + 2 ^ 63) mod 2 ^ 64 + b) by lia.
  rewrite Z.add_mod_idemp_l by lia.
  replace (a + 2 ^ 63 + b) with (a + b + 2 ^ 63) by lia. reflexivity.
Qed.

Lemma wrap64_idem a : Int64.wrap64 (Int64.wrap64 a) = Int64.wrap64 a.
Proof. pose proof (wrap64_add_l a 0) as H. now rewrite !Z.add_0_r in H. Qed.

Lemma bufferSize_eq fileSize j :
  bufferSize fileSize j =
  if (j =? numChunks fileSize - 1) && negb (Z.rem fileSize chunkSize =? 0)
  then Z.rem fileSize chunkSize else chunkSize.
Proof.
  unfold bufferSize.
  destruct ((j =? numChunks fileSize - 1) && negb (Z.rem fileSize chunkSize =? 0)) eqn:E.
  - apply andb_true_iff in E as [_ E]. apply negb_true_iff in E. now rewrite E.
  - reflexivity.
Qed.

Lemma bufferSize_bounds fileSize j : 0 <= fileSize -> 0 < bufferSize fileSize j <= chunkSize.
Proof.
  intros H. rewrite bufferSize_eq.
  destruct ((j =? numChunks fileSize - 1) && negb (Z.rem fileSize chunkSize =? 0)) eqn:E.
  - apply andb_true_iff in E as [_ E]. apply negb_true_iff, Z.eqb_neq in E.
    pose proof (Z.rem_bound_pos fileSize chunkSize H ltac:(reflexivity)). lia.
  - unfold chunkSize. lia.
Qed.

(** ** The float64 operations of the percentage *)

Lemma digits2_pos_bounds p :
  2 ^ (Z.pos (digits2_pos p) - 1) <= Z.pos p < 2 ^ Z.pos (digits2_pos p).
Proof.
  assert (forall d, 0 < d -> 2 ^ d = 2 * 2 ^ (d - 1)) as Hpow.
  { intros d Hd. rewrite <- Z.pow_succ_r by lia. f_equal. lia. }
  induction p as [p IH | p IH |]; cbn [digits2_pos].
  - rewrite Pos2Z.inj_succ.
    replace (Z.succ (Z.pos (digits2_pos p)) - 1) with (Z.pos (digits2_pos p)) by lia.
    rewrite (Hpow (Z.succ _)) by lia.
    replace (Z.succ (Z.pos (digits2_pos p)) - 1) with (Z.pos (digits2_pos p)) by lia.
    pose proof (Hpow (Z.pos (digits2_pos p)) ltac:(lia)). lia.
  - rewrite Pos2Z.inj_succ.
    replace (Z.succ (Z.pos (digits2_pos p)) - 1) with (Z.pos (digits2_pos p)) by lia.
    rewrite (Hpow (Z.succ _)) by lia.
    replace (Z.succ (Z.pos (digits2_pos p)) - 1) with (Z.pos (digits2_pos p)) by lia.
    pose proof (Hpow (Z.pos (digits2_pos p)) ltac:(lia)). lia.
  - cbn. lia.
Qed.

(** The number of binary digits is determined by the power-of-two bounds. *)
Lemma digits2_pos_unique p d :
  2 ^ (d - 1) <= Z.pos p < 2 ^ d -> Z.pos (digits2_pos p) = d.
Proof.
  intros [Hlo Hhi]. pose proof (digits2_pos_bounds p) as [Blo Bhi].
  assert (0 < d) as Hd.
  { destruct (Z.ltb_spec 0 d); [assumption |].
    assert (2 ^ d <= 2 ^ 0) by (apply Z.pow_le_mono_r; lia). change (2 ^ 0) with 1 in *. lia. }
  destruct (Z.lt_trichotomy (Z.pos (digits2_pos p)) d) as [Hlt | [Heq | Hgt]]; [| exact Heq |].
  - assert (2 ^ Z.pos (digits2_pos p) <= 2 ^ (d - 1)) by (apply Z.pow_le_mono_r; lia). lia.
  - assert (2 ^ d <= 2 ^ (Z.pos (digits2_pos p) - 1)) by (apply Z.pow_le_mono_r; lia). lia.
Qed.

Ltac bool_cases :=
  repeat match goal with
    | |- context [?a <=? ?b] => destruct (Z.leb_spec a b)
    | |- context [?a <? ?b] => destruct (Z.ltb_spec a b)
    | |- context [?a =? ?b] => destruct (Z.eqb_spec a b)
    end;
  cbn [negb orb andb]; intros; first [reflexivity | discriminate | exfalso; lia].

Lemma shr_1_repr num den mrs :
  0 <= num -> 0 < den -> repr num den mrs -> repr num (2 * den) (shr_1 mrs).
Proof.
  intros Hnum Hden (Hm & Hr & Hs).
  assert (num / (2 * den) = num / den / 2) as Hq.
  { rewrite (Z.mul_comm 2 den). now rewrite Z.div_div by lia. }
  assert (num mod (2 * den) = num mod den + den * ((num / den) mod 2)) as Hrem.
  { rewrite (Z.mul_comm 2 den). apply Z.rem_mul_r; lia. }
  pose proof (Z.mod_pos_bound num den Hden) as Hb.
  pose proof (Z.div_pos num den Hnum Hden) as Hq0.
  destruct mrs as [m r s]. cbn [shr_m shr_r shr_s] in *.
  unfold repr. rewrite Hq, Hrem, <- Hm. subst r s.
  destruct m as [| [p | p |] | p]; cbn [shr_1 shr_m shr_r shr_s]; try lia.
  - change (0 / 2) with 0. change (0 mod 2) with 0. rewrite Z.mul_0_r, Z.add_0_r.
    split; [reflexivity |]. split; bool_cases.
  - assert (Z.pos p~1 / 2 = Z.pos p) as -> by (symmetry; apply Z.div_unique with 1; lia).
    assert (Z.pos p~1 mod 2 = 1) as -> by (symmetry; apply Z.mod_unique with (Z.pos p); lia).
    split; [reflexivity |]. split; bool_cases.
  - assert (Z.pos p~0 / 2 = Z.pos p) as -> by (symmetry; apply Z.div_unique with 0; lia).
    assert (Z.pos p~0 mod 2 = 0) as -> by (symmetry; apply Z.mod_unique with (Z.pos p); lia).
    rewrite Z.mul_0_r, Z.add_0_r.
    split; [reflexivity |]. split; bool_cases.
  - change (1 / 2) with 0. change (1 mod 2) with 1.
    split; [reflexivity |]. split; bool_cases.
Qed.

Lemma iter_pos_shr_1_repr num p : forall den mrs,
  0 <= num -> 0 < den -> repr num den mrs ->
  repr num (den * 2 ^ Z.pos p) (SpecFloat.iter_pos shr_1 p mrs).
Proof.
  induction p as [p IH | p IH |]; intros den mrs Hnum Hden H; cbn [SpecFloat.iter_pos].
  - assert (0 < 2 ^ Z.pos p) as Hp by (apply Z.pow_pos_nonneg; lia).
    replace (den * 2 ^ Z.pos p~1) with ((2 * den) * 2 ^ Z.pos p * 2 ^ Z.pos p).
    + apply IH; [lia | nia | apply IH; [lia | lia | now apply shr_1_repr]].
    + replace (Z.pos p~1) with (1 + Z.pos p + Z.pos p) by lia.
      rewrite !Z.pow_add_r by lia. change (2 ^ 1) with 2. ring.
  - assert (0 < 2 ^ Z.pos p) as Hp by (apply Z.pow_pos_nonneg; lia).
    replace (den * 2 ^ Z.pos p~0) with (den * 2 ^ Z.pos p * 2 ^ Z.pos p).
    + apply IH; [lia | nia | now apply IH].
    + replace (Z.pos p~0) with (Z.pos p + Z.pos p) by lia.
      rewrite !Z.pow_add_r by lia. ring.
  - change (2 ^ 1) with 2. rewrite Z.mul_comm. now apply shr_1_repr.
Qed.

Lemma rne_repr num den mrs :
  0 < den -> repr num den mrs ->
  round_nearest_even (shr_m mrs) (loc_of_shr_record mrs) = rne num den.
Proof.
  intros Hden (Hm & Hr & Hs). pose proof (Z.mod_pos_bound num den Hden) as Hb.
  destruct mrs as [m r s]. cbn [shr_m shr_r shr_s] in *. subst m.
  unfold rne. cbv zeta.
  destruct r, s; cbn [loc_of_shr_record round_nearest_even];
    symmetry in Hr, Hs; revert Hr Hs; bool_cases.
Qed.

Lemma repr_exact m : repr m 1 (shr_record_of_loc m loc_Exact).
Proof.
  unfold repr. cbn [shr_record_of_loc shr_m shr_r shr_s].
  rewrite Z.div_1_r, Z.mod_1_r. repeat split.
Qed.

Lemma repr_div q r m2 :
  0 <= r < m2 -> repr (q * m2 + r) m2 (shr_record_of_loc q (new_location m2 r)).
Proof.
  intros Hr.
  assert ((q * m2 + r) / m2 = q) as Hq by (symmetry; apply Z.div_unique with r; lia).
  assert ((q * m2 + r) mod m2 = r) as Hm by (symmetry; apply Z.mod_unique with q; lia).
  unfold repr. rewrite Hq, Hm.
  unfold new_location, new_location_even, new_location_odd.
  destruct (Z.even m2) eqn:Ev.
  - destruct (Z.eqb_spec r 0) as [-> | Hne].
    + cbn [shr_record_of_loc shr_m shr_r shr_s]. split; [reflexivity |]. split; bool_cases.
    + destruct (Z.compare_spec (2 * r) m2);
        cbn [shr_record_of_loc shr_m shr_r shr_s]; (split; [reflexivity |]); split; bool_cases.
  - assert (2 * r <> m2) as Hodd.
    { intros <-. rewrite Z.even_mul in Ev. discriminate Ev. }
    destruct (Z.eqb_spec r 0) as [-> | Hne].
    + cbn [shr_record_of_loc shr_m shr_r shr_s]. split; [reflexivity |]. split; bool_cases.
    + destruct (Z.compare_spec (2 * r + 1) m2);
        cbn [shr_record_of_loc shr_m shr_r shr_s]; (split; [reflexivity |]); split; bool_cases.
Qed.

Lemma rne_bounds num den : 0 < den -> num / den <= rne num den <= num / den + 1.
Proof.
  intros H. unfold rne. cbv zeta.
  destruct (2 * (num mod den) <? den), (den <? 2 * (num mod den)), (Z.even (num / den)); lia.
Qed.

Lemma rne_exact q den : 0 < den -> rne (q * den) den = q.
Proof.
  intros H. unfold rne. cbv zeta. rewrite Z.div_mul, Z.mod_mul by lia.
  destruct (Z.ltb_spec (2 * 0) den); [reflexivity | lia].
Qed.

(** Rounding is monotone in the quotient it rounds. *)
Lemma rne_mono a b a' b' :
  0 < b -> 0 < b' -> a * b' <= a' * b -> rne a b <= rne a' b'.
Proof.
  intros Hb Hb' Hle.
  pose proof (Z.div_mod a b ltac:(lia)) as Ha.
  pose proof (Z.div_mod a' b' ltac:(lia)) as Ha'.
  pose proof (Z.mod_pos_bound a b Hb) as Hr.
  pose proof (Z.mod_pos_bound a' b' Hb') as Hr'.
  pose proof (rne_bounds a b Hb) as Hn.
  pose proof (rne_bounds a' b' Hb') as Hn'.
  set (q := a / b) in *. set (r := a mod b) in *.
  set (q' := a' / b') in *. set (r' := a' mod b') in *.
  assert (q <= q') as Hq.
  { destruct (Z.le_gt_cases q q') as [|Hgt]; [assumption | exfalso].
    assert (b * b' * (q' + 1) <= b * b' * q) by (apply Z.mul_le_mono_nonneg_l; nia).
    nia. }
  destruct (Z.eq_dec q q') as [Heq | Hne]; [| lia].
  assert (r * b' <= r' * b) as Hrr by nia.
  unfold rne. cbv zeta. fold q r q' r'. rewrite <- Heq.
  destruct (Z.ltb_spec (2 * r) b), (Z.ltb_spec b (2 * r)),
    (Z.ltb_spec (2 * r') b'), (Z.ltb_spec b' (2 * r')), (Z.even q); try lia; exfalso; nia.
Qed.

Lemma Zdigits2_unique m d : 0 < d -> 2 ^ (d - 1) <= m < 2 ^ d -> Zdigits2 m = d.
Proof.
  intros Hd H. assert (0 < 2 ^ (d - 1)) by (apply Z.pow_pos_nonneg; lia).
  destruct m as [| p | p]; try lia. cbn [Zdigits2]. now apply digits2_pos_unique.
Qed.

(** The first shift of [binary_round_aux]: a mantissa of [53 + n] digits
    loses its [n] low digits, which go into the round and sticky bits. *)
Lemma shr_fexp_spec num den mx ex lx n :
  0 <= num -> 0 < den ->
  repr num den (shr_record_of_loc mx lx) ->
  0 <= n -> 2 ^ (52 + n) <= mx < 2 ^ (53 + n) ->
  -1074 <= ex + n ->
  exists rec1,
    shr_fexp Float64.prec Float64.emax mx ex lx = (rec1, ex + n) /\
    repr num (den * 2 ^ n) rec1.
Proof.
  intros Hnum Hden Hrep Hn Hmx Hex. unfold shr_fexp.
  rewrite (Zdigits2_unique mx (53 + n)) by (try lia; replace (53 + n - 1) with (52 + n) by lia; exact Hmx).
  assert (fexp Float64.prec Float64.emax (53 + n + ex) - ex = n) as ->.
  { unfold fexp, emin, Float64.prec, Float64.emax. lia. }
  destruct n as [| p | p]; [| | lia]; cbn [shr].
  - exists (shr_record_of_loc mx lx). split; [now rewrite Z.add_0_r |].
    change (2 ^ 0) with 1. now rewrite Z.mul_1_r.
  - eexists. split; [reflexivity |]. now apply iter_pos_shr_1_repr.
Qed.

(** What [binary_round_aux] returns for a positive mantissa of at least 53
    digits, away from overflow and underflow: the rounded mantissa, or
    [2^52] one exponent higher when rounding carried into a 54th digit. *)
Lemma binary_round_aux_spec num den mx ex lx n :
  0 <= num -> 0 < den -> mx = num / den ->
  repr num den (shr_record_of_loc mx lx) ->
  0 <= n -> 2 ^ (52 + n) <= mx < 2 ^ (53 + n) ->
  -1074 <= ex + n -> ex + n + 1 <= 971 ->
  exists M E,
    binary_round_aux Float64.prec Float64.emax false mx ex lx = S754_finite false M E /\
    2 ^ 52 <= Z.pos M < 2 ^ 53 /\
    ((E = ex + n /\ Z.pos M = rne num (den * 2 ^ n)) \/
     (E = ex + n + 1 /\ Z.pos M = 2 ^ 52 /\ rne num (den * 2 ^ n) = 2 ^ 53)).
Proof.
  intros Hnum Hden Hmx Hrep Hn Hb Hlo Hhi.
  destruct (shr_fexp_spec num den mx ex lx n Hnum Hden Hrep Hn Hb Hlo) as (rec1 & E1 & Hrep1).
  assert (0 < 2 ^ n) as Hpn by (apply Z.pow_pos_nonneg; lia).
  assert (0 < den * 2 ^ n) as Hden1 by nia.
  unfold binary_round_aux. rewrite E1.
  rewrite (rne_repr num (den * 2 ^ n) rec1 Hden1 Hrep1).
  pose proof (rne_bounds num (den * 2 ^ n) Hden1) as HA.
  assert (num / (den * 2 ^ n) = mx / 2 ^ n) as Hq by (rewrite <- Z.div_div by lia; now rewrite <- Hmx).
  assert (2 ^ 52 <= mx / 2 ^ n < 2 ^ 53) as Hq2.
  { rewrite !Z.pow_add_r in Hb by lia. split.
    - apply Z.div_le_lower_bound; lia.
    - apply Z.div_lt_upper_bound; lia. }
  set (A := rne num (den * 2 ^ n)) in *.
  assert (2 ^ 52 <= A <= 2 ^ 53) as HA2 by lia.
  destruct (Z.eq_dec A (2 ^ 53)) as [HA53 | HA53].
  - rewrite HA53. unfold shr_fexp.
    change (Zdigits2 (2 ^ 53)) with 54.
    assert (fexp Float64.prec Float64.emax (54 + (ex + n)) - (ex + n) = 1) as ->.
    { unfold fexp, emin, Float64.prec, Float64.emax. lia. }
    cbn [shr shr_record_of_loc SpecFloat.iter_pos]. 
    change (shr_m (shr_1 {| shr_m := 2 ^ 53; shr_r := false; shr_s := false |}))
      with (Z.pos (Z.to_pos (2 ^ 52))). cbv iota beta.
    assert ((ex + n + 1 <=? Float64.emax - Float64.prec) = true) as ->
      by (apply Z.leb_le; unfold Float64.prec, Float64.emax; lia).
    eexists _, _. split; [reflexivity |]. split; [cbn; lia |]. right. auto.
  - unfold shr_fexp.
    rewrite (Zdigits2_unique A 53) by (change (53 - 1) with 52; lia).
    assert (fexp Float64.prec Float64.emax (53 + (ex + n)) - (ex + n) = 0) as ->.
    { unfold fexp, emin, Float64.prec, Float64.emax. lia. }
    cbn [shr shr_record_of_loc shr_m].
    assert (0 < 2 ^ 52) by reflexivity.
    destruct A as [| M | M] eqn:EA; try lia.
    assert ((ex + n <=? Float64.emax - Float64.prec) = true) as ->
      by (apply Z.leb_le; unfold Float64.prec, Float64.emax; lia).
    exists M, (ex + n). split; [reflexivity |]. split; [lia |]. left. auto.
Qed.

(** Rounding is monotone: on scaled quotients in the same range, the order
    of the reals is the order of the floats they round to. *)
Lemma rounds_to_mono a b c x a' b' c' x' :
  0 < b -> 0 < b' ->
  2 ^ 52 * b <= a < 2 ^ 53 * b -> 2 ^ 52 * b' <= a' < 2 ^ 53 * b' ->
  rounds_to a b c x -> rounds_to a' b' c' x' ->
  Tle a b c a' b' c' -> Fle x x'.
Proof.
  intros Hb Hb' Ha Ha' (M & E & -> & HM & Hx) (M' & E' & -> & HM' & Hx') Hle.
  cbn [Fle]. split; [exact HM |]. split; [exact HM' |].
  destruct Hle as [Hc | [-> Hab]].
  - destruct Hx as [[-> _] | (-> & -> & _)], Hx' as [[-> _] | (-> & -> & _)]; lia.
  - pose proof (rne_mono a b a' b' Hb Hb' Hab) as Hr.
    destruct Hx as [[-> Hm] | (-> & Hm & Hr1)], Hx' as [[-> Hm'] | (-> & Hm' & Hr1')]; lia.
Qed.

Lemma Fle_refl M E : 2 ^ 52 <= Z.pos M < 2 ^ 53 -> Fle (S754_finite false M E) (S754_finite false M E).
Proof. intros H. cbn. split; [exact H |]. split; [exact H |]. right. lia. Qed.

Lemma Fle_trans x y z : Fle x y -> Fle y z -> Fle x z.
Proof.
  destruct x as [| | | [] M E], y as [| | | [] M' E'], z as [| | | [] M'' E'']; cbn; try tauto.
  intros (H1 & H2 & H3) (_ & H4 & H5). split; [exact H1 |]. split; [exact H4 |]. lia.
Qed.

(** *** Conversion from integers *)

Lemma Pos_iter_xO p s : Z.pos (Pos.iter xO p s) = Z.pos p * 2 ^ Z.pos s.
Proof.
  induction s as [| s IH] using Pos.peano_ind.
  - cbn [Pos.iter]. change (2 ^ 1) with 2. lia.
  - rewrite Pos.iter_succ, Pos2Z.inj_xO, IH, Pos2Z.inj_succ, Z.pow_succ_r by lia. ring.
Qed.

(** [float64(k)] is exact up to [2^53]. *)
Lemma of_int_exact k :
  1 <= k <= 2 ^ 53 ->
  exists M E,
    Float64.of_int k = S754_finite false M E /\
    2 ^ 52 <= Z.pos M < 2 ^ 53 /\ -52 <= E <= 1 /\
    Z.pos M * 2 ^ (E + 52) = k * 2 ^ 52.
Proof.
  intros Hk. destruct (Z.eq_dec k (2 ^ 53)) as [-> | Hne].
  { eexists _, _. split; [vm_compute; reflexivity |]. split; [cbn; lia |]. split; [lia |]. reflexivity. }
  destruct k as [| p | p]; try lia.
  unfold Float64.of_int, binary_normalize, binary_round.
  pose proof (digits2_pos_bounds p) as Hd.
  set (d := Z.pos (digits2_pos p)) in *.
  assert (1 <= d <= 53) as Hd53.
  { split; [subst d; lia |].
    destruct (Z.le_gt_cases d 53) as [| Hgt]; [assumption | exfalso].
    assert (2 ^ 53 <= 2 ^ (d - 1)) by (apply Z.pow_le_mono_r; lia). lia. }
  assert (fexp Float64.prec Float64.emax (d + 0) = d - 53) as ->.
  { unfold fexp, emin, Float64.prec, Float64.emax. lia. }
  unfold shl_align.
  destruct (d - 53 - 0) as [| s | s] eqn:Es; try lia.
  - (* d = 53 *)
    assert (d = 53) as Hd' by lia. rewrite Hd' in Hd. change (53 - 1) with 52 in Hd.
    destruct (binary_round_aux_spec (Z.pos p) 1 (Z.pos p) 0 loc_Exact 0)
      as (M & E & HE & HM & Hcase); try lia.
    + now rewrite Z.div_1_r.
    + apply repr_exact.
    + change (2 ^ 0) with 1 in Hcase. rewrite Z.mul_1_r in Hcase.
      pose proof (rne_exact (Z.pos p) 1 ltac:(lia)) as Hr. rewrite Z.mul_1_r in Hr.
      rewrite Hr in Hcase.
      exists M, E. split; [exact HE |]. split; [exact HM |].
      destruct Hcase as [[-> ->] | (_ & _ & Hc)]; [| lia].
      split; [lia |]. reflexivity.
  - (* d < 53 *)
    pose proof (Pos_iter_xO p s) as Hmz. set (mz := Pos.iter xO p s) in *.
    assert (Z.pos s = 53 - d) as Hs by lia.
    assert (2 ^ d * 2 ^ Z.pos s = 2 ^ 53) as Hp1 by (rewrite <- Z.pow_add_r by lia; f_equal; lia).
    assert (2 ^ (d - 1) * 2 ^ Z.pos s = 2 ^ 52) as Hp2 by (rewrite <- Z.pow_add_r by lia; f_equal; lia).
    assert (0 < 2 ^ Z.pos s) as Hps by (apply Z.pow_pos_nonneg; lia).
    assert (2 ^ 52 <= Z.pos mz < 2 ^ 53) as Hmzb by nia.
    destruct (binary_round_aux_spec (Z.pos mz) 1 (Z.pos mz) (d - 53) loc_Exact 0)
      as (M & E & HE & HM & Hcase); try lia.
    + now rewrite Z.div_1_r.
    + apply repr_exact.
    + change (2 ^ 0) with 1 in Hcase. rewrite Z.mul_1_r in Hcase.
      pose proof (rne_exact (Z.pos mz) 1 ltac:(lia)) as Hr. rewrite Z.mul_1_r in Hr.
      rewrite Hr in Hcase.
      exists M, E. split; [exact HE |]. split; [exact HM |].
      destruct Hcase as [[-> ->] | (_ & _ & Hc)]; [| lia].
      split; [lia |]. rewrite Z.add_0_r, Hmz.
      replace (d - 53 + 52) with (d - 1) by lia.
      rewrite <- Hp2. ring.
Qed.

Lemma rounds_to_finite a b c x :
  rounds_to a b c x ->
  exists M E, x = S754_finite false M E /\ 2 ^ 52 <= Z.pos M < 2 ^ 53 /\ c <= E <= c + 1.
Proof.
  intros (M & E & -> & HM & Hc). exists M, E. split; [reflexivity |]. split; [exact HM |].
  destruct Hc as [[-> _] | (-> & _)]; lia.
Qed.

(** [float64(k)] for any positive [k] below [2^400]: with [d] the number of
    binary digits of [k], the nearest float to [k], which is [k] itself when
    [d <= 53]. *)
Lemma of_int_rounds k :
  1 <= k < 2 ^ 400 ->
  let d := Zdigits2 k in
  1 <= d <= 400 /\
  rounds_to (k * 2 ^ Z.max 0 (53 - d)) (2 ^ Z.max 0 (d - 53)) (d - 53) (Float64.of_int k) /\
  2 ^ 52 * 2 ^ Z.max 0 (d - 53) <= k * 2 ^ Z.max 0 (53 - d) < 2 ^ 53 * 2 ^ Z.max 0 (d - 53).
Proof.
  intros Hk d. destruct k as [| p | p]; try lia. subst d. cbn [Zdigits2].
  pose proof (digits2_pos_bounds p) as Hd.
  set (d := Z.pos (digits2_pos p)) in *.
  assert (1 <= d <= 400) as Hd400.
  { split; [subst d; lia |].
    destruct (Z.le_gt_cases d 400) as [| Hgt]; [assumption | exfalso].
    assert (2 ^ 400 <= 2 ^ (d - 1)) by (apply Z.pow_le_mono_r; lia). lia. }
  split; [exact Hd400 |].
  unfold Float64.of_int, binary_normalize, binary_round.
  fold d.
  assert (fexp Float64.prec Float64.emax (d + 0) = d - 53) as ->.
  { unfold fexp, emin, Float64.prec, Float64.emax. lia. }
  unfold shl_align.
  destruct (d - 53 - 0) as [| s | s] eqn:Es.
  - (* d = 53 *)
    assert (d = 53) as Hd' by lia. rewrite Hd' in *. change (53 - 1) with 52 in Hd.
    change (Z.max 0 (53 - 53)) with 0. change (2 ^ 0) with 1. rewrite Z.mul_1_r.
    split; [| lia].
    destruct (binary_round_aux_spec (Z.pos p) 1 (Z.pos p) 0 loc_Exact 0)
      as (M & E & HE & HM & Hcase); try lia.
    + now rewrite Z.div_1_r.
    + apply repr_exact.
    + change (2 ^ 0) with 1 in Hcase. rewrite Z.mul_1_r in Hcase.
      rewrite HE. exists M, E. auto.
  - (* d > 53 *)
    assert (Z.pos s = d - 53) as Hs by lia.
    replace (Z.max 0 (53 - d)) with 0 by lia. replace (Z.max 0 (d - 53)) with (d - 53) by lia.
    change (2 ^ 0) with 1. rewrite Z.mul_1_r.
    assert (2 ^ 52 * 2 ^ (d - 53) = 2 ^ (d - 1)) as Hp1 by (rewrite <- Z.pow_add_r by lia; f_equal; lia).
    assert (2 ^ 53 * 2 ^ (d - 53) = 2 ^ d) as Hp2 by (rewrite <- Z.pow_add_r by lia; f_equal; lia).
    split; [| lia].
    destruct (binary_round_aux_spec (Z.pos p) 1 (Z.pos p) 0 loc_Exact (d - 53))
      as (M & E & HE & HM & Hcase); try lia.
    + now rewrite Z.div_1_r.
    + apply repr_exact.
    + replace (52 + (d - 53)) with (d - 1) by lia. replace (53 + (d - 53)) with d by lia. exact Hd.
    + rewrite Z.mul_1_l, Z.add_0_l in Hcase. rewrite HE. exists M, E. auto.
  - (* d < 53 *)
    pose proof (Pos_iter_xO p s) as Hmz. set (mz := Pos.iter xO p s) in *.
    assert (Z.pos s = 53 - d) as Hs by lia.
    replace (Z.max 0 (53 - d)) with (Z.pos s) by lia. replace (Z.max 0 (d - 53)) with 0 by lia.
    change (2 ^ 0) with 1. rewrite !Z.mul_1_r. rewrite <- Hmz.
    assert (2 ^ d * 2 ^ Z.pos s = 2 ^ 53) as Hp1 by (rewrite <- Z.pow_add_r by lia; f_equal; lia).
    assert (2 ^ (d - 1) * 2 ^ Z.pos s = 2 ^ 52) as Hp2 by (rewrite <- Z.pow_add_r by lia; f_equal; lia).
    assert (0 < 2 ^ Z.pos s) as Hps by (apply Z.pow_pos_nonneg; lia).
    assert (2 ^ 52 <= Z.pos mz < 2 ^ 53) as Hmzb by nia.
    split; [| exact Hmzb].
    destruct (binary_round_aux_spec (Z.pos mz) 1 (Z.pos mz) (d - 53) loc_Exact 0)
      as (M & E & HE & HM & Hcase); try lia.
    + now rewrite Z.div_1_r.
    + apply repr_exact.
    + change (2 ^ 0) with 1 in Hcase. rewrite Z.mul_1_r, Z.add_0_r in Hcase.
      rewrite HE. exists M, E. auto.
Qed.

(** The conversion of a positive [int64] yields a positive normal float. *)
Lemma of_int_normal k :
  1 <= k < 2 ^ 63 ->
  exists M E,
    Float64.of_int k = S754_finite false M E /\
    2 ^ 52 <= Z.pos M < 2 ^ 53 /\ -52 <= E <= 11.
Proof.
  intros Hk.
  assert (2 ^ 63 < 2 ^ 400) as Hbig by (apply Z.pow_lt_mono_r; lia).
  destruct (of_int_rounds k ltac:(lia)) as (Hd & Hr & Hn). cbv zeta in *.
  assert (Zdigits2 k <= 63) as Hd63.
  { destruct k as [| p | p]; try lia. cbn [Zdigits2] in *.
    pose proof (digits2_pos_bounds p) as B.
    destruct (Z.le_gt_cases (Z.pos (digits2_pos p)) 63) as [| Hgt]; [assumption | exfalso].
    assert (2 ^ 63 <= 2 ^ (Z.pos (digits2_pos p) - 1)) by (apply Z.pow_le_mono_r; lia).
    lia. }
  apply rounds_to_finite in Hr as (M & E & HE & HM & HE'). exists M, E.
  split; [exact HE |]. split; [exact HM | lia].
Qed.

Lemma Zdigits2_mono k k' : 1 <= k <= k' -> Zdigits2 k <= Zdigits2 k'.
Proof.
  intros H. destruct k as [| p | p], k' as [| p' | p']; try lia. cbn [Zdigits2].
  pose proof (digits2_pos_bounds p) as B. pose proof (digits2_pos_bounds p') as B'.
  destruct (Z.le_gt_cases (Z.pos (digits2_pos p)) (Z.pos (digits2_pos p'))) as [| Hgt];
    [assumption | exfalso].
  assert (2 ^ Z.pos (digits2_pos p') <= 2 ^ (Z.pos (digits2_pos p) - 1))
    by (apply Z.pow_le_mono_r; lia).
  lia.
Qed.

(** The conversion keeps the order. *)
Lemma of_int_mono k k' :
  1 <= k <= k' -> k' < 2 ^ 400 -> Fle (Float64.of_int k) (Float64.of_int k').
Proof.
  intros Hk Hk'.
  destruct (of_int_rounds k ltac:(lia)) as (Hd & Hr & Hn).
  destruct (of_int_rounds k' ltac:(lia)) as (Hd' & Hr' & Hn').
  cbv zeta in *.
  pose proof (Zdigits2_mono k k' Hk) as Hdd.
  set (d := Zdigits2 k) in *. set (d' := Zdigits2 k') in *.
  refine (rounds_to_mono _ _ _ _ _ _ _ _ _ _ Hn Hn' Hr Hr' _).
  - apply Z.pow_pos_nonneg; lia.
  - apply Z.pow_pos_nonneg; lia.
  - unfold Tle. destruct (Z.eq_dec d d') as [<- | Hne]; [right | left; lia].
    split; [reflexivity |].
    assert (0 < 2 ^ Z.max 0 (53 - d)) by (apply Z.pow_pos_nonneg; lia).
    assert (0 < 2 ^ Z.max 0 (d - 53)) by (apply Z.pow_pos_nonneg; lia).
    nia.
Qed.

(** *** Division *)

Lemma div_rounds M1 E1 M2 E2 :
  2 ^ 52 <= Z.pos M1 < 2 ^ 53 -> 2 ^ 52 <= Z.pos M2 < 2 ^ 53 ->
  -400 <= E1 <= 400 -> -400 <= E2 <= 400 ->
  let n := if Z.pos M1 <? Z.pos M2 then 0 else 1 in
  rounds_to (Z.pos M1 * 2 ^ 53) (Z.pos M2 * 2 ^ n) (E1 - E2 - 53 + n)
    (Float64.div (S754_finite false M1 E1) (S754_finite false M2 E2)) /\
  2 ^ 52 * (Z.pos M2 * 2 ^ n) <= Z.pos M1 * 2 ^ 53 < 2 ^ 53 * (Z.pos M2 * 2 ^ n).
Proof.
  intros HM1 HM2 HE1 HE2 n.
  assert (2 ^ 52 * (Z.pos M2 * 2 ^ n) <= Z.pos M1 * 2 ^ 53 < 2 ^ 53 * (Z.pos M2 * 2 ^ n)) as Hnorm.
  { subst n. destruct (Z.ltb_spec (Z.pos M1) (Z.pos M2)).
    - change (2 ^ 0) with 1. change (2 ^ 53) with (2 * 2 ^ 52) in *. lia.
    - change (2 ^ 1) with 2. change (2 ^ 53) with (2 * 2 ^ 52) in *. lia. }
  split; [| exact Hnorm].
  unfold Float64.div, SFdiv, SFdiv_core_binary.
  rewrite (Zdigits2_unique (Z.pos M1) 53), (Zdigits2_unique (Z.pos M2) 53)
    by (try lia; change (53 - 1) with 52; assumption).
  assert (Z.min (fexp Float64.prec Float64.emax (53 + E1 - (53 + E2))) (E1 - E2)
          = E1 - E2 - 53) as ->.
  { unfold fexp, emin, Float64.prec, Float64.emax. lia. }
  replace (E1 - E2 - (E1 - E2 - 53)) with 53 by lia.
  rewrite Z.shiftl_mul_pow2 by lia.
  pose proof (Z.div_eucl_eq (Z.pos M1 * 2 ^ 53) (Z.pos M2) ltac:(lia)) as Heq.
  pose proof (Z.mod_pos_bound (Z.pos M1 * 2 ^ 53) (Z.pos M2) ltac:(lia)) as Hr.
  unfold Z.modulo in Hr.
  destruct (Z.div_eucl (Z.pos M1 * 2 ^ 53) (Z.pos M2)) as [q r] eqn:Ediv.
  cbn [xorb].
  assert (Z.pos M1 * 2 ^ 53 = q * Z.pos M2 + r) as Hnum by lia.
  assert (q = (Z.pos M1 * 2 ^ 53) / Z.pos M2) as Hq.
  { apply Z.div_unique with r; lia. }
  assert (0 <= n) as Hn by (subst n; destruct (Z.pos M1 <? Z.pos M2); lia).
  assert (0 < 2 ^ n) as Hpn by (apply Z.pow_pos_nonneg; lia).
  assert (2 ^ (52 + n) <= q < 2 ^ (53 + n)) as Hqb.
  { rewrite !Z.pow_add_r by lia. rewrite Hq. split.
    - apply Z.div_le_lower_bound; [lia | nia].
    - apply Z.div_lt_upper_bound; [lia | nia]. }
  destruct (binary_round_aux_spec (Z.pos M1 * 2 ^ 53) (Z.pos M2) q (E1 - E2 - 53)
              (new_location (Z.pos M2) r) n) as (M & E & HE & HM & Hcase); try lia.
  - rewrite Hnum. now apply repr_div.
  - subst n. destruct (Z.pos M1 <? Z.pos M2); lia.
  - rewrite HE. exists M, E. auto.
Qed.

(** Division by a fixed normal float is monotone. *)
Lemma div_mono M1 E1 M1' E1' M2 E2 :
  2 ^ 52 <= Z.pos M2 < 2 ^ 53 ->
  -400 <= E1 <= 400 -> -400 <= E1' <= 400 -> -400 <= E2 <= 400 ->
  Fle (S754_finite false M1 E1) (S754_finite false M1' E1') ->
  Fle (Float64.div (S754_finite false M1 E1) (S754_finite false M2 E2))
      (Float64.div (S754_finite false M1' E1') (S754_finite false M2 E2)).
Proof.
  intros HM2 HE1 HE1' HE2 (HM1 & HM1' & Hle).
  destruct (div_rounds M1 E1 M2 E2 HM1 HM2 HE1 HE2) as [Hr Hn].
  destruct (div_rounds M1' E1' M2 E2 HM1' HM2 HE1' HE2) as [Hr' Hn'].
  cbv zeta in *.
  refine (rounds_to_mono _ _ _ _ _ _ _ _ _ _ Hn Hn' Hr Hr' _).
  - destruct (Z.pos M1 <? Z.pos M2); lia.
  - destruct (Z.pos M1' <? Z.pos M2); lia.
  - unfold Tle.
    assert (0 < Z.pos M1 * Z.pos M2) as HP by lia.
    assert (Z.pos M1 * Z.pos M2 < 2 * (Z.pos M1' * Z.pos M2)) as HP2 by nia.
    assert (Z.pos M1 <= Z.pos M1' -> Z.pos M1 * Z.pos M2 <= Z.pos M1' * Z.pos M2) as HP3
      by (intros; nia).
    destruct (Z.ltb_spec (Z.pos M1) (Z.pos M2)), (Z.ltb_spec (Z.pos M1') (Z.pos M2));
      change (2 ^ 0) with 1; change (2 ^ 1) with 2; change (2 ^ 53) with 9007199254740992 in *;
      destruct Hle as [Hlt | [-> Hm]]; try (left; lia);
      try (specialize (HP3 Hm)); try (right; split; [lia | nia]).
    destruct (Z.eq_dec E1' (E1 + 1)) as [-> | Hne]; [right; split; [lia | nia] | left; lia].
Qed.

(** The quotient of a normal float by itself is one. *)
Lemma div_self M E :
  2 ^ 52 <= Z.pos M < 2 ^ 53 -> -400 <= E <= 400 ->
  Float64.div (S754_finite false M E) (S754_finite false M E)
  = S754_finite false 4503599627370496 (-52).
Proof.
  intros HM HE. destruct (div_rounds M E M E HM HM HE HE) as [(M' & E' & -> & HM' & Hc) _].
  rewrite Z.ltb_irrefl in Hc. change (2 ^ 1) with 2 in Hc.
  replace (Z.pos M * 2 ^ 53) with (2 ^ 52 * (Z.pos M * 2)) in Hc
    by (change (2 ^ 53) with (2 ^ 52 * 2); ring).
  rewrite rne_exact in Hc by lia.
  destruct Hc as [[-> Hm] | (_ & _ & Hc)]; [| discriminate Hc].
  f_equal; [| lia]. change (2 ^ 52) with (Z.pos 4503599627370496) in Hm. now injection Hm.
Qed.

(** *** Multiplication by 100 *)

Lemma of_int_100 : Float64.of_int 100 = S754_finite false 7036874417766400 (-46).
Proof. reflexivity. Qed.

Lemma mul100_rounds M1 E1 :
  2 ^ 52 <= Z.pos M1 < 2 ^ 53 -> -400 <= E1 <= 400 ->
  let P := Z.pos M1 * 7036874417766400 in
  let n := if P <? 2 ^ 105 then 52 else 53 in
  rounds_to P (2 ^ n) (E1 - 46 + n)
    (Float64.mul (S754_finite false M1 E1) (Float64.of_int 100)) /\
  2 ^ 52 * 2 ^ n <= P < 2 ^ 53 * 2 ^ n.
Proof.
  intros HM1 HE1 P n.
  assert (2 ^ 52 * 2 ^ n <= P < 2 ^ 53 * 2 ^ n) as Hnorm.
  { subst n P. change (2 ^ 52) with 4503599627370496 in *. change (2 ^ 53) with 9007199254740992 in *.
    destruct (Z.ltb_spec (Z.pos M1 * 7036874417766400) (2 ^ 105));
      [change (2 ^ 52) with 4503599627370496 | change (2 ^ 53) with 9007199254740992];
      change (2 ^ 105) with 40564819207303340847894502572032 in *; lia. }
  split; [| exact Hnorm].
  rewrite of_int_100. unfold Float64.mul, SFmul. cbn [xorb].
  change (Z.pos (M1 * 7036874417766400)) with P.
  assert (0 <= n) as Hn by (subst n; destruct (P <? 2 ^ 105); lia).
  assert (0 < 2 ^ n) as Hpn by (apply Z.pow_pos_nonneg; lia).
  destruct (binary_round_aux_spec P 1 P (E1 + -46) loc_Exact n)
    as (M & E & HE & HM & Hcase); try lia.
  - now rewrite Z.div_1_r.
  - apply repr_exact.
  - rewrite !Z.pow_add_r by lia. lia.
  - subst n. destruct (P <? 2 ^ 105); lia.
  - rewrite HE. exists M, E. rewrite Z.mul_1_l in Hcase.
    replace (E1 - 46 + n) with (E1 + -46 + n) by lia. auto.
Qed.

Lemma mul100_mono M1 E1 M1' E1' :
  -400 <= E1 <= 400 -> -400 <= E1' <= 400 ->
  Fle (S754_finite false M1 E1) (S754_finite false M1' E1') ->
  Fle (Float64.mul (S754_finite false M1 E1) (Float64.of_int 100))
      (Float64.mul (S754_finite false M1' E1') (Float64.of_int 100)).
Proof.
  intros HE1 HE1' (HM1 & HM1' & Hle).
  destruct (mul100_rounds M1 E1 HM1 HE1) as [Hr Hn].
  destruct (mul100_rounds M1' E1' HM1' HE1') as [Hr' Hn'].
  cbv zeta in *.
  destruct (Z.ltb_spec (Z.pos M1 * 7036874417766400) (2 ^ 105)) as [H1 | H1],
    (Z.ltb_spec (Z.pos M1' * 7036874417766400) (2 ^ 105)) as [H2 | H2];
    (refine (rounds_to_mono _ _ _ _ _ _ _ _ _ _ Hn Hn' Hr Hr' _);
     [reflexivity | reflexivity |]);
    unfold Tle;
    change (2 ^ 52) with 4503599627370496 in *; change (2 ^ 53) with 9007199254740992 in *;
    change (2 ^ 105) with 40564819207303340847894502572032 in *;
    destruct Hle as [Hlt | [-> Hm]]; try (left; lia); try (right; split; [lia | lia]).
  destruct (Z.eq_dec E1' (E1 + 1)) as [-> | Hne]; [right; split; [lia | lia] | left; lia].
Qed.

Lemma mul100_one :
  Float64.mul (S754_finite false 4503599627370496 (-52)) (Float64.of_int 100)
  = Float64.of_int 100.
Proof. reflexivity. Qed.

(** *** Conversion to integers *)

Lemma trunc_positive M E :
  Float64.trunc (S754_finite false M E)
  = Some (if 0 <=? E then Z.pos M * 2 ^ E else Z.pos M / 2 ^ (- E)).
Proof. reflexivity. Qed.

(** Truncation keeps the order of positive normal floats. *)
Lemma trunc_mono M E M' E' :
  Fle (S754_finite false M E) (S754_finite false M' E') ->
  exists z z',
    Float64.trunc (S754_finite false M E) = Some z /\
    Float64.trunc (S754_finite false M' E') = Some z' /\
    0 <= z <= z'.
Proof.
  intros (HM & HM' & Hle). rewrite !trunc_positive. eexists _, _.
  split; [reflexivity |]. split; [reflexivity |].
  change (2 ^ 52) with 4503599627370496 in *. change (2 ^ 53) with 9007199254740992 in *.
  destruct (Z.leb_spec 0 E) as [HE | HE], (Z.leb_spec 0 E') as [HE' | HE'].
  - assert (0 < 2 ^ E) by (apply Z.pow_pos_nonneg; lia).
    split; [nia |]. destruct Hle as [Hlt | [<- Hm]]; [| nia].
    assert (2 ^ E' = 2 ^ (E' - E) * 2 ^ E) as -> by (rewrite <- Z.pow_add_r by lia; f_equal; lia).
    assert (2 ^ 1 <= 2 ^ (E' - E)) as H2 by (apply Z.pow_le_mono_r; lia).
    change (2 ^ 1) with 2 in H2.
    apply Z.le_trans with (9007199254740992 * 2 ^ E); [nia |].
    rewrite Z.mul_assoc. apply Z.mul_le_mono_nonneg_r; [lia | nia].
  - exfalso. lia.
  - assert (0 < 2 ^ (- E)) by (apply Z.pow_pos_nonneg; lia).
    assert (0 < 2 ^ E') by (apply Z.pow_pos_nonneg; lia).
    assert (2 ^ 1 <= 2 ^ (- E)) as H2 by (apply Z.pow_le_mono_r; lia).
    change (2 ^ 1) with 2 in H2.
    split; [apply Z.div_pos; lia |].
    apply Z.le_trans with (Z.pos M / 2).
    + apply Z.div_le_compat_l; lia.
    + apply Z.le_trans with 4503599627370496; [| nia].
      apply Z.div_le_upper_bound; lia.
  - assert (0 < 2 ^ (- E)) by (apply Z.pow_pos_nonneg; lia).
    assert (0 < 2 ^ (- E')) by (apply Z.pow_pos_nonneg; lia).
    split; [apply Z.div_pos; lia |].
    destruct Hle as [Hlt | [<- Hm]]; [| apply Z.div_le_mono; lia].
    assert (2 ^ (- E) = 2 ^ (E' - E) * 2 ^ (- E')) as -> by (rewrite <- Z.pow_add_r by lia; f_equal; lia).
    assert (0 < 2 ^ (E' - E)) by (apply Z.pow_pos_nonneg; lia).
    assert (2 ^ 1 <= 2 ^ (E' - E)) as H2 by (apply Z.pow_le_mono_r; lia).
    change (2 ^ 1) with 2 in H2.
    rewrite <- Z.div_div by lia. apply Z.div_le_mono; [lia |].
    apply Z.le_trans with (Z.pos M / 2).
    + apply Z.div_le_compat_l; lia.
    + apply Z.le_trans with 4503599627370496; [| lia].
      apply Z.div_le_upper_bound; lia.
Qed.

(** *** The percentage *)

(** The percentage is between 0 and 100 and grows with the step, whenever
    the total is a positive [int64]. *)
Lemma percentage_mono k k' T :
  1 <= k <= k' -> k' <= T -> T < 2 ^ 63 ->
  0 <= percentage k T <= percentage k' T /\ percentage k' T <= 100.
Proof.
  intros Hk Hk' HT. unfold percentage.
  assert (2 ^ 63 < 2 ^ 400) as Hbig by (apply Z.pow_lt_mono_r; lia).
  pose proof (of_int_mono k k' Hk ltac:(lia)) as Hkk.
  pose proof (of_int_mono k' T ltac:(lia) ltac:(lia)) as HkT.
  destruct (of_int_normal k ltac:(lia)) as (M1 & E1 & F1 & HM1 & HE1).
  destruct (of_int_normal k' ltac:(lia)) as (M2 & E2 & F2 & HM2 & HE2).
  destruct (of_int_normal T ltac:(lia)) as (M3 & E3 & F3 & HM3 & HE3).
  rewrite F1, F2, F3 in *.
  pose proof (div_mono M1 E1 M2 E2 M3 E3 HM3 ltac:(lia) ltac:(lia) ltac:(lia) Hkk) as Hq.
  pose proof (div_mono M2 E2 M3 E3 M3 E3 HM3 ltac:(lia) ltac:(lia) ltac:(lia) HkT) as Hq1.
  rewrite div_self in Hq1 by lia.
  destruct (div_rounds M1 E1 M3 E3 HM1 HM3 ltac:(lia) ltac:(lia)) as [Hr1 _].
  destruct (div_rounds M2 E2 M3 E3 HM2 HM3 ltac:(lia) ltac:(lia)) as [Hr2 _].
  cbv zeta in Hr1, Hr2.
  apply rounds_to_finite in Hr1 as (Q1 & G1 & D1 & HQ1 & HG1).
  apply rounds_to_finite in Hr2 as (Q2 & G2 & D2 & HQ2 & HG2).
  rewrite D1, D2 in *.
  assert (-400 <= G1 <= 400) as HG1'.
  { destruct Hq as (_ & _ & Hq), Hq1 as (_ & _ & Hq1). destruct (Z.pos M1 <? Z.pos M3); lia. }
  assert (-400 <= G2 <= 400) as HG2'.
  { destruct Hq as (_ & _ & Hq), Hq1 as (_ & _ & Hq1). destruct (Z.pos M2 <? Z.pos M3); lia. }
  pose proof (mul100_mono Q1 G1 Q2 G2 HG1' HG2' Hq) as Hw.
  pose proof (mul100_mono Q2 G2 4503599627370496 (-52) HG2' ltac:(lia) Hq1) as Hw1.
  rewrite mul100_one in Hw1.
  destruct (mul100_rounds Q1 G1 HQ1 HG1') as [Hs1 _].
  destruct (mul100_rounds Q2 G2 HQ2 HG2') as [Hs2 _].
  cbv zeta in Hs1, Hs2.
  apply rounds_to_finite in Hs1 as (W1 & J1 & V1 & HW1 & HJ1).
  apply rounds_to_finite in Hs2 as (W2 & J2 & V2 & HW2 & HJ2).
  rewrite V1, V2 in *. rewrite of_int_100 in Hw1.
  destruct (trunc_mono _ _ _ _ Hw) as (z1 & z2 & T1 & T2 & Hz).
  destruct (trunc_mono _ _ _ _ Hw1) as (z2' & z3 & T2' & T3 & Hz').
  rewrite T2 in T2'. injection T2' as <-.
  assert (z3 = 100) as -> by (vm_compute in T3; congruence).
  unfold Float64.to_int64. rewrite T1, T2.
  assert ((Int64.min_signed <=? z1) && (z1 <=? Int64.max_signed) = true) as ->.
  { apply andb_true_iff. split; apply Z.leb_le; unfold Int64.min_signed, Int64.max_signed; lia. }
  assert ((Int64.min_signed <=? z2) && (z2 <=? Int64.max_signed) = true) as ->.
  { apply andb_true_iff. split; apply Z.leb_le; unfold Int64.min_signed, Int64.max_signed; lia. }
  lia.
Qed.

(** The last step reports 100. *)
Lemma percentage_last T : 1 <= T < 2 ^ 63 -> percentage T T = 100.
Proof.
  intros HT. unfold percentage.
  assert (2 ^ 63 < 2 ^ 400) as Hbig by (apply Z.pow_lt_mono_r; lia).
  destruct (of_int_normal T ltac:(lia)) as (M & E & -> & HM & HE).
  rewrite div_self by lia. rewrite mul100_one. reflexivity.
Qed.

(** *** The planner *)

(** The number of chunks of a file whose size is an [int64] is positive. *)
Lemma numChunks_positive L : 0 <= L < 2 ^ 63 -> 1 <= numChunks L <= 2 ^ 49.
Proof.
  intros HL. unfold numChunks.
  destruct (Z.ltb_spec 0 L) as [Hpos | Hz]; [| split; [lia | change (2 ^ 49) with 562949953421312; lia]].
  destruct (of_int_normal L ltac:(lia)) as (M & E & -> & HM & HE).
  change (Float64.of_int chunkSize) with (S754_finite false 4503599627370496 (-36)).
  destruct (div_rounds M E 4503599627370496 (-36) HM ltac:(cbn; lia) ltac:(lia) ltac:(lia))
    as [Hr _].
  cbv zeta in Hr. apply rounds_to_finite in Hr as (Q & G & -> & HQ & HG).
  assert (-69 <= G <= -4) as HG' by (destruct (Z.pos M <? 4503599627370496); lia).
  unfold Float64.Ceil. destruct (Z.leb_spec 0 G) as [| _]; [lia |].
  fold (Float64.of_int (- (- Z.pos Q / 2 ^ (- G)))).
  set (c := - (- Z.pos Q / 2 ^ (- G))).
  assert (1 <= c <= 2 ^ 49) as Hc.
  { subst c. assert (2 ^ 4 <= 2 ^ (- G)) as Hd by (apply Z.pow_le_mono_r; lia).
    change (2 ^ 4) with 16 in Hd. change (2 ^ 53) with 9007199254740992 in HQ.
    change (2 ^ 49) with 562949953421312.
    assert (- Z.pos Q / 2 ^ (- G) < 0) by (apply Z.div_lt_upper_bound; lia).
    assert (- 562949953421312 <= - Z.pos Q / 2 ^ (- G)) by (apply Z.div_le_lower_bound; nia).
    lia. }
  assert (2 ^ 49 <= 2 ^ 53) as H49 by (apply Z.pow_le_mono_r; lia).
  destruct (of_int_exact c ltac:(lia)) as (M' & E' & -> & HM' & HE' & Hv).
  unfold Float64.to_int64. rewrite trunc_positive.
  assert ((if 0 <=? E' then Z.pos M' * 2 ^ E' else Z.pos M' / 2 ^ (- E')) = c) as ->.
  { destruct (Z.leb_spec 0 E') as [H0 | H0].
    - rewrite Z.pow_add_r in Hv by lia. 
      assert (0 < 2 ^ 52) by (apply Z.pow_pos_nonneg; lia). nia.
    - assert (2 ^ 52 = 2 ^ (E' + 52) * 2 ^ (- E')) as Hs
        by (rewrite <- Z.pow_add_r by lia; f_equal; lia).
      assert (0 < 2 ^ (E' + 52)) by (apply Z.pow_pos_nonneg; lia).
      assert (0 < 2 ^ (- E')) by (apply Z.pow_pos_nonneg; lia).
      assert (Z.pos M' = c * 2 ^ (- E')) as -> by nia.
      apply Z.div_mul; lia. }
  assert ((Int64.min_signed <=? c) && (c <=? Int64.max_signed) = true) as ->.
  { apply andb_true_iff. change (2 ^ 49) with 562949953421312 in Hc.
    split; apply Z.leb_le; unfold Int64.min_signed, Int64.max_signed, Int64.modulus; lia. }
  exact Hc.
Qed.

(** Up to [2^53] an integer survives the way to [float64] and back. *)
Lemma to_int64_of_int c : 1 <= c <= 2 ^ 53 -> Float64.to_int64 (Float64.of_int c) = c.
Proof.
  intros Hc. destruct (of_int_exact c Hc) as (M & E & -> & HM & HE & Hv).
  unfold Float64.to_int64. rewrite trunc_positive.
  assert ((if 0 <=? E then Z.pos M * 2 ^ E else Z.pos M / 2 ^ (- E)) = c) as ->.
  { destruct (Z.leb_spec 0 E) as [H0 | H0].
    - rewrite Z.pow_add_r in Hv by lia.
      assert (0 < 2 ^ 52) by (apply Z.pow_pos_nonneg; lia). nia.
    - assert (2 ^ 52 = 2 ^ (E + 52) * 2 ^ (- E)) as Hs
        by (rewrite <- Z.pow_add_r by lia; f_equal; lia).
      assert (0 < 2 ^ (E + 52)) by (apply Z.pow_pos_nonneg; lia).
      assert (0 < 2 ^ (- E)) by (apply Z.pow_pos_nonneg; lia).
      assert (Z.pos M = c * 2 ^ (- E)) as -> by nia.
      apply Z.div_mul; lia. }
  assert ((Int64.min_signed <=? c) && (c <=? Int64.max_signed) = true) as ->; [| reflexivity].
  apply andb_true_iff. change (2 ^ 53) with 9007199254740992 in Hc.
  split; apply Z.leb_le; unfold Int64.min_signed, Int64.max_signed; lia.
Qed.

(** The ceiling of [a / b] as [math.Ceil] finds it, and as a quotient. *)
Lemma ceiling_div a b : 0 < b -> - (- a / b) = (a + b - 1) / b.
Proof.
  intros Hb. apply Z.div_unique with (b - 1 - (- a) mod b).
  - left. pose proof (Z.mod_pos_bound (- a) b Hb). lia.
  - pose proof (Z.div_mod (- a) b ltac:(lia)). lia.
Qed.

(** Lines 44-47 compute [max(1, ceil(fileSize / chunkSize))] for every file
    of at most [2^53] bytes. *)
Lemma numChunks_exact L :
  0 <= L <= 2 ^ 53 -> numChunks L = Z.max 1 ((L + chunkSize - 1) / chunkSize).
Proof.
  intros HL. unfold numChunks.
  destruct (Z.ltb_spec 0 L) as [Hpos | Hz].
  2:{ assert (L = 0) as -> by lia. reflexivity. }
  assert (1 <= (L + chunkSize - 1) / chunkSize <= 2 ^ 53) as Hq.
  { unfold chunkSize. change (64 * 1024) with 65536. split.
    - apply Z.div_le_lower_bound; lia.
    - apply Z.lt_le_incl, Z.div_lt_upper_bound; lia. }
  rewrite Z.max_r by lia.
  destruct (of_int_exact L ltac:(lia)) as (M & E & -> & HM & HE & Hv).
  change (Float64.of_int chunkSize) with (S754_finite false 4503599627370496 (-36)).
  destruct (div_rounds M E 4503599627370496 (-36) HM ltac:(cbn; lia) ltac:(lia) ltac:(lia))
    as [(Q & G & -> & HQ & Hcase) _].
  assert ((Z.pos M <? 4503599627370496) = false) as Hn
    by (apply Z.ltb_ge; change (2 ^ 52) with 4503599627370496 in HM; lia).
  rewrite Hn in Hcase. change (4503599627370496 * 2 ^ 1) with (2 ^ 53) in Hcase.
  rewrite rne_exact in Hcase by (apply Z.pow_pos_nonneg; lia).
  destruct Hcase as [[-> HQM] | (_ & _ & Hbad)]; [| lia].
  replace (E - (-36) - 53 + 1) with (E - 16) by lia.
  unfold Float64.Ceil. destruct (Z.leb_spec 0 (E - 16)) as [| _]; [lia |].
  fold (Float64.of_int (- (- Z.pos Q / 2 ^ (- (E - 16))))).
  assert (- (- Z.pos Q / 2 ^ (- (E - 16))) = (L + chunkSize - 1) / chunkSize) as ->.
  { rewrite <- ceiling_div by (unfold chunkSize; lia). f_equal.
    assert (0 < 2 ^ (E + 52)) as Hp by (apply Z.pow_pos_nonneg; lia).
    rewrite <- (Z.div_mul_cancel_r (- Z.pos Q) (2 ^ (- (E - 16))) (2 ^ (E + 52))) by lia.
    rewrite <- Z.pow_add_r by lia. replace (- (E - 16) + (E + 52)) with 68 by lia.
    rewrite HQM, Z.mul_opp_l, Hv, <- Z.mul_opp_l.
    change (2 ^ 68) with (chunkSize * 2 ^ 52).
    apply Z.div_mul_cancel_r; [unfold chunkSize; lia | lia]. }
  apply to_int64_of_int. exact Hq.
Qed.

(** ** Trace predicates *)

Lemma progress_of_app t1 t2 : progress_of (t1 ++ t2) = progress_of t1 ++ progress_of t2.
Proof. apply omap_app. Qed.

Lemma writes_of_app t1 t2 : writes_of (t1 ++ t2) = writes_of t1 ++ writes_of t2.
Proof. apply omap_app. Qed.

Lemma rand_reads_of_app t1 t2 : rand_reads_of (t1 ++ t2) = rand_reads_of t1 ++ rand_reads_of t2.
Proof. apply omap_app. Qed.

Lemma progress_of_cons e t :
  progress_of (e :: t) = match e with Progress p => [p] | _ => [] end ++ progress_of t.
Proof. destruct e; reflexivity. Qed.

Lemma writes_of_cons e t :
  writes_of (e :: t)
  = match e with Call (Write off data) true => [(off, data)] | _ => [] end ++ writes_of t.
Proof. destruct e as [[] [] | | | |]; reflexivity. Qed.

Lemma rand_reads_of_cons e t :
  rand_reads_of (e :: t)
  = match e with Call (RandRead _ data) true => [data] | _ => [] end ++ rand_reads_of t.
Proof. destruct e as [[] [] | | | |]; reflexivity. Qed.

Lemma renames_of_app t1 t2 : renames_of (t1 ++ t2) = renames_of t1 ++ renames_of t2.
Proof. apply omap_app. Qed.

Lemma renames_of_cons e t :
  renames_of (e :: t)
  = match e with Call (Rename old new) ok => [(old, new, ok)] | _ => [] end ++ renames_of t.
Proof. destruct e as [[] | | | |]; reflexivity. Qed.

Lemma renames_of_logs ls : renames_of (map Log ls) = [].
Proof. induction ls; [reflexivity | exact IHls]. Qed.

Lemma renames_of_report cb p : renames_of (report_events cb p) = [].
Proof. destruct cb as [body |]; [| reflexivity]. exact (renames_of_logs _). Qed.

Lemma renames_of_overwrite t : Forall overwrite_event t -> renames_of t = [].
Proof.
  induction 1 as [| e t He _ IH]; [reflexivity |].
  rewrite renames_of_cons, IH. destruct e as [[] | | | |]; try reflexivity; destruct He.
Qed.

Lemma progress_of_logs ls : progress_of (map Log ls) = [].
Proof. induction ls; [reflexivity | exact IHls]. Qed.

Lemma writes_of_logs ls : writes_of (map Log ls) = [].
Proof. induction ls; [reflexivity | exact IHls]. Qed.

Lemma rand_reads_of_logs ls : rand_reads_of (map Log ls) = [].
Proof. induction ls; [reflexivity | exact IHls]. Qed.

Lemma progress_of_report cb p :
  progress_of (report_events cb p) = match cb with Some _ => [p] | None => [] end.
Proof.
  destruct cb as [body |]; [| reflexivity].
  unfold report_events. change (Progress p :: map Log (body p)) with ([Progress p] ++ map Log (body p)).
  rewrite progress_of_app, progress_of_logs. reflexivity.
Qed.

Lemma writes_of_report cb p : writes_of (report_events cb p) = [].
Proof. destruct cb as [body |]; [| reflexivity]. exact (writes_of_logs _). Qed.

Lemma overwrite_event_report cb p : Forall overwrite_event (report_events cb p).
Proof.
  destruct cb as [body |]; [| constructor].
  constructor; [exact I |]. induction (body p); constructor; [exact I | assumption].
Qed.

Lemma ends_failed_app t1 t2 : ends_failed t2 -> ends_failed (t1 ++ t2).
Proof. intros (pre & c & ->). exists (t1 ++ pre), c. now rewrite app_assoc. Qed.

(** A trace without progress reports satisfies [reported_after_flush]. *)
Lemma reported_after_flush_quiet t : progress_of t = [] -> reported_after_flush t.
Proof.
  intros H pre p post ->. rewrite progress_of_app in H.
  apply app_eq_nil in H as [_ H]. discriminate H.
Qed.

Lemma flushed_app t pre : flushed pre -> flushed (t ++ pre).
Proof. intros (pre' & off & data & ->). exists (t ++ pre'), off, data. now rewrite app_assoc. Qed.

Lemma renamed_app t pre : renamed pre -> renamed (t ++ pre).
Proof.
  intros (pre' & old & new & msg & ->). exists (t ++ pre'), old, new, msg.
  now rewrite app_assoc.
Qed.

Lemma flushed_nil : ~ flushed [].
Proof. intros (pre' & off & data & H). destruct pre'; discriminate H. Qed.

Lemma renamed_nil : ~ renamed [].
Proof. intros (pre' & old & new & msg & H). destruct pre'; discriminate H. Qed.

(** The property is kept when traces are put one after the other. *)
Lemma reported_after_flush_app t1 t2 :
  reported_after_flush t1 -> reported_after_flush t2 -> reported_after_flush (t1 ++ t2).
Proof.
  intros H1 H2 pre p post E.
  apply app_eq_app in E as [l [[-> E] | [-> E]]].
  - destruct l as [| x l].
    + simpl in E. destruct (H2 [] p post (eq_sym E)) as [F | [F _]].
      * now apply flushed_nil in F.
      * now apply renamed_nil in F.
    + injection E as <- ->. apply (H1 pre p l). reflexivity.
  - destruct (H2 l p post E) as [F | [F ->]].
    + left. now apply flushed_app.
    + right. split; [now apply renamed_app | reflexivity].
Qed.

(** In a trace with a single report, the report is found in one place. *)
Lemma progress_split_unique pre p post pre' p' post' :
  progress_of pre = [] -> progress_of post = [] ->
  pre ++ Progress p :: post = pre' ++ Progress p' :: post' ->
  pre' = pre /\ p' = p.
Proof.
  intros Hpre Hpost. revert pre' Hpre.
  induction pre as [| x pre IH]; intros [| y pre'] Hpre E.
  - injection E as -> _. auto.
  - injection E as <- E. rewrite E, progress_of_app in Hpost.
    apply app_eq_nil in Hpost as [_ Hpost]. discriminate Hpost.
  - injection E as -> _. discriminate Hpre.
  - injection E as -> E.
    assert (progress_of pre = []) as Hq.
    { unfold progress_of in *. simpl in Hpre. destruct y; try discriminate Hpre; exact Hpre. }
    destruct (IH pre' Hq E) as [-> ->]. auto.
Qed.

(** One report right after a flush, in a trace with no other report. *)
Lemma reported_after_flush_one pre p post :
  progress_of pre = [] -> progress_of post = [] -> flushed pre \/ (renamed pre /\ p = 100) ->
  reported_after_flush (pre ++ Progress p :: post).
Proof.
  intros Hpre Hpost F pre' p' post' E.
  destruct (progress_split_unique _ _ _ _ _ _ Hpre Hpost E) as [-> ->]. exact F.
Qed.

(** ** The sequence of percentages *)

(** Line 49 without wrap-around. *)
Lemma totalSteps_exact passes L :
  0 <= passes -> 0 <= L < 2 ^ 63 -> (passes + 1) * numChunks L < 2 ^ 63 ->
  totalSteps passes L = (passes + 1) * numChunks L /\ 1 <= totalSteps passes L.
Proof.
  intros Hp HL Hb. destruct (numChunks_positive L HL) as [Hn _].
  unfold totalSteps, Int64.add, Int64.mul. rewrite wrap64_add_l.
  replace (passes * numChunks L + numChunks L) with ((passes + 1) * numChunks L) by ring.
  rewrite wrap64_small; [split; nia |].
  unfold Int64.min_signed, Int64.max_signed. nia.
Qed.

Lemma nondecreasing_map_seq (f : nat -> Z) a m final :
  (forall i, (a <= i < a + m)%nat -> f i <= f (S i) \/ (S i = a + m)%nat) ->
  (forall i, (a <= i < a + m)%nat -> f i <= final) ->
  nondecreasing (map f (seq a m) ++ [final]).
Proof.
  revert a. induction m as [| m IH]; intros a Hstep Hfin; [cbn; auto |].
  cbn [seq map app nondecreasing]. split.
  - destruct m as [| m]; cbn [seq map app].
    + apply Hfin. lia.
    + destruct (Hstep a ltac:(lia)) as [H | H]; [exact H | lia].
  - apply IH.
    + intros i Hi. destruct (Hstep i ltac:(lia)) as [H | H]; [left; exact H | right; lia].
    + intros i Hi. apply Hfin. lia.
Qed.

(** The percentages of steps 1 to [m], followed by the final 100. *)
Lemma reports_shape body T m :
  1 <= T < 2 ^ 63 -> Z.of_nat m <= T ->
  let l := reports (Some body) T 0 m ++ [100] in
  nondecreasing l /\ Forall (fun p => 0 <= p <= 100) l /\ last l = Some 100.
Proof.
  intros HT Hm l. subst l.
  assert (forall k, (1 <= k < 1 + m)%nat -> Int64.wrap64 (0 + Z.of_nat k) = Z.of_nat k) as Hw.
  { intros k Hk. apply wrap64_small. unfold Int64.min_signed, Int64.max_signed. lia. }
  unfold reports. split; [| split].
  - apply nondecreasing_map_seq.
    + intros i Hi. destruct (Nat.eq_dec (S i) (1 + m)%nat) as [| Hne]; [right; assumption | left].
      rewrite (Hw i), (Hw (S i)) by lia.
      apply (percentage_mono (Z.of_nat i) (Z.of_nat (S i)) T); lia.
    + intros i Hi. rewrite (Hw i) by lia.
      apply (percentage_mono (Z.of_nat i) (Z.of_nat i) T); lia.
  - apply Forall_app. split; [| repeat constructor; lia].
    apply Forall_forall. intros p Hin. apply list_elem_of_In in Hin.
    apply in_map_iff in Hin as (k & <- & Hk).
    apply in_seq in Hk. rewrite (Hw k) by lia.
    pose proof (percentage_mono (Z.of_nat k) (Z.of_nat k) T). lia.
  - apply last_snoc.
Qed.

(** ** Orderly blocks *)

Lemma orderly_bind {A B} (m : M Result A) (k : A -> M Result B) w s w' t :
  (forall s1 w1 t1, m w = (s1, w1, t1) -> orderly s1 t1) ->
  (forall a w1 s2 w2 t2, k a w1 = (s2, w2, t2) -> orderly s2 t2) ->
  bind m k w = (s, w', t) -> orderly s t.
Proof.
  intros Hm Hk H.
  apply bind_inv in H as [(r & H & ->) | (a & w1 & t1 & t2 & H1 & H2 & ->)].
  - destruct (Hm _ _ _ H) as (Hov & Hfl & Hret).
    split; [exact Hov |]. split; [exact Hfl |].
    intros r' [= <-]. exact (Hret r eq_refl).
  - destruct (Hm _ _ _ H1) as (Hov1 & Hfl1 & _).
    destruct (Hk _ _ _ _ _ H2) as (Hov2 & Hfl2 & Hret2).
    split; [apply Forall_app; split; assumption |].
    split; [now apply reported_after_flush_app |].
    intros r Hr. destruct (Hret2 r Hr) as [Hf He].
    split; [exact Hf | now apply ends_failed_app].
Qed.

Lemma orderly_prefix {A} (s : step Result A) t0 t :
  Forall overwrite_event t0 -> progress_of t0 = [] -> orderly s t -> orderly s (t0 ++ t).
Proof.
  intros Hov0 Hq (Hov & Hfl & Hret).
  split; [apply Forall_app; split; assumption |].
  split; [apply reported_after_flush_app; [now apply reported_after_flush_quiet | exact Hfl] |].
  intros r Hr. destruct (Hret r Hr) as [Hf He].
  split; [exact Hf | now apply ends_failed_app].
Qed.

Lemma for_range_orderly {S} (body : Z -> S -> M Result S) :
  (forall j s w s' w' t, body j s w = (s', w', t) -> orderly s' t) ->
  forall n j s w s' w' t, for_range n j body s w = (s', w', t) -> orderly s' t.
Proof.
  intros Hbody. induction n as [| n IH]; intros j s w s' w' t H.
  - injection H as <- <- <-. split; [constructor |].
    split; [now apply reported_after_flush_quiet | discriminate].
  - rewrite for_range_S in H. revert H. apply orderly_bind.
    + intros s1 w1 t1. apply Hbody.
    + intros a w1 s2 w2 t2. apply IH.
Qed.

Section EngineFacts.

Variable filepath_Dir : string -> string.
Variable filepath_Join : string -> string -> string.
Variable env : Env.

(** A trace without rename attempts satisfies [rename_target]. *)
Lemma rename_target_quiet filePath t :
  renames_of t = [] -> rename_target env filepath_Dir filepath_Join filePath t.
Proof.
  intros H pre old new ok post ->. rewrite renames_of_app, renames_of_cons in H.
  apply app_eq_nil in H as [_ H]. discriminate H.
Qed.

(** In a trace with a single rename attempt, the attempt is found in one
    place. *)
Lemma rename_split_unique pre c ok post pre' old new ok' post' :
  renames_of pre = [] -> renames_of post = [] ->
  pre ++ Call c ok :: post = pre' ++ Call (Rename old new) ok' :: post' ->
  pre' = pre /\ c = Rename old new /\ ok' = ok.
Proof.
  intros Hpre Hpost. revert pre' Hpre.
  induction pre as [| x pre IH]; intros [| y pre'] Hpre E.
  - injection E as -> -> _. auto.
  - injection E as <- E. rewrite E, renames_of_app, renames_of_cons in Hpost.
    apply app_eq_nil in Hpost as [_ Hpost]. discriminate Hpost.
  - injection E as -> _. discriminate Hpre.
  - injection E as -> E.
    assert (renames_of pre = []) as Hq.
    { rewrite renames_of_cons in Hpre. now apply app_eq_nil in Hpre as [_ Hpre]. }
    destruct (IH pre' Hq E) as (-> & -> & ->). auto.
Qed.

(** One rename attempt of the right form, in a trace with no other. *)
Lemma rename_target_one filePath pre0 d ok post :
  renames_of pre0 = [] -> renames_of post = [] ->
  rename_target env filepath_Dir filepath_Join filePath
    (pre0 ++ [Call (RandRead 32 (map (entropy env) (seq d 32))) true; Now (clock env)]
       ++ Call (Rename filePath
                  (filepath_Join (filepath_Dir filePath)
                     (obfuscated_name (clock env) (map (entropy env) (seq d 32))))) ok
       :: post).
Proof.
  intros Hpre Hpost pre old new ok' post' E. rewrite app_assoc in E.
  apply rename_split_unique in E as (-> & [= <- <-] & ->); [| | exact Hpost].
  - split; [reflexivity |]. exists (map (entropy env) (seq d 32)), pre0, d. auto.
  - rewrite renames_of_app, Hpre. reflexivity.
Qed.

(** The property is kept when traces are put one after the other. *)
Lemma rename_target_app filePath t1 t2 :
  rename_target env filepath_Dir filepath_Join filePath t1 ->
  rename_target env filepath_Dir filepath_Join filePath t2 ->
  rename_target env filepath_Dir filepath_Join filePath (t1 ++ t2).
Proof.
  intros H1 H2 pre old new ok post E.
  apply app_eq_app in E as [l [[-> E] | [-> E]]].
  - destruct l as [| x l].
    + simpl in E. destruct (H2 [] old new ok post (eq_sym E)) as (_ & rb & pre' & d & F & _).
      destruct pre'; discriminate F.
    + injection E as <- ->. apply (H1 pre old new ok l). reflexivity.
  - destruct (H2 l old new ok post E) as (-> & rb & pre' & d & -> & Hrb & Hnew).
    split; [reflexivity |]. exists rb, (t1 ++ pre'), d. rewrite app_assoc. auto.
Qed.

(** ** The system calls, case by case *)

Lemma os_Stat_cases {R} name w :
  (exists e, @os_Stat env R name w = (Next (inl e), tick w, [Call (Stat name) false])
             /\ (os_IsNotExist e = true -> fs w !! name = None)) \/
  (exists content, fs w !! name = Some content /\
     @os_Stat env R name w
     = (Next (inr (Z.of_nat (length content))), tick w, [Call (Stat name) true])).
Proof.
  unfold os_Stat. destruct (fault env (ticks w)); [left; eexists; split; [reflexivity | discriminate] |].
  destruct (fs w !! name) eqn:E; [right; eauto | left; eauto].
Qed.

Lemma os_OpenFile_cases {R} name w :
  (exists e, @os_OpenFile env R name w = (Next (Some e), tick w, [Call (OpenFile name) false])) \/
  (@os_OpenFile env R name w
   = (Next None, mkWorld (fs w) (Some (name, 0)) (S (ticks w)) (drawn w),
      [Call (OpenFile name) true])).
Proof.
  unfold os_OpenFile. destruct (fault env (ticks w)); [left; eauto |].
  destruct (fs w !! name); [right; eauto | left; eauto].
Qed.

Lemma file_Seek_cases {R} offset w :
  (exists e, @file_Seek env R offset w = (Next (Some e), tick w, [Call (Seek offset) false])) \/
  (exists name off, handle w = Some (name, off) /\
     @file_Seek env R offset w
     = (Next None, mkWorld (fs w) (Some (name, offset)) (S (ticks w)) (drawn w),
        [Call (Seek offset) true])).
Proof.
  unfold file_Seek.
  destruct (fault env (ticks w)), (handle w) as [[name off] |]; eauto 10.
Qed.

Lemma rand_Read_cases {R} n w :
  (exists e, @rand_Read env R n w = (Next (inl e), tick w, [Call (RandRead n []) false])
             /\ exists text, e = errorString text) \/
  (@rand_Read env R n w
   = (Next (inr (map (entropy env) (seq (drawn w) (Z.to_nat n)))),
      mkWorld (fs w) (handle w) (S (ticks w)) (drawn w + Z.to_nat n)%nat,
      [Call (RandRead n (map (entropy env) (seq (drawn w) (Z.to_nat n)))) true])).
Proof.
  unfold rand_Read. destruct (fault env (ticks w)); [left | right]; eauto.
Qed.

Lemma file_Write_cases {R} data w :
  (exists e off, @file_Write env R data w = (Next (Some e), tick w, [Call (Write off data) false])) \/
  (exists name off content, handle w = Some (name, off) /\ fs w !! name = Some content /\
     @file_Write env R data w
     = (Next None,
        mkWorld (<[name := write_at content (Z.to_nat off) data]> (fs w))
          (Some (name, off + Z.of_nat (length data))) (S (ticks w)) (drawn w),
        [Call (Write off data) true])).
Proof.
  unfold file_Write.
  destruct (handle w) as [[name off] |] eqn:Hh; [| left; do 2 eexists; reflexivity].
  destruct (fault env (ticks w)); [left; do 2 eexists; reflexivity |].
  destruct (fs w !! name) as [content |] eqn:Hf; [| left; do 2 eexists; reflexivity].
  right. exists name, off, content. auto.
Qed.

Lemma file_Sync_cases {R} w :
  (exists e, @file_Sync env R w = (Next (Some e), tick w, [Call Sync false])) \/
  (@file_Sync env R w = (Next None, tick w, [Call Sync true])).
Proof.
  unfold file_Sync. destruct (fault env (ticks w)), (handle w) as [[name off] |]; eauto.
Qed.

Lemma file_Close_cases {R} name w :
  (exists e, @file_Close env R name w
             = (Next (Some e), mkWorld (fs w) None (S (ticks w)) (drawn w), [Call Close false])) \/
  (@file_Close env R name w
   = (Next None, mkWorld (fs w) None (S (ticks w)) (drawn w), [Call Close true])).
Proof.
  unfold file_Close. destruct (handle w); [| left; eauto].
  destruct (fault env (ticks w)); eauto.
Qed.

Lemma os_Truncate_cases {R} name size w :
  (exists e, @os_Truncate env R name size w
             = (Next (Some e), tick w, [Call (Truncate name size) false])) \/
  (exists content, fs w !! name = Some content /\
     @os_Truncate env R name size w
     = (Next None,
        mkWorld (<[name := resize content (Z.to_nat size)]> (fs w))
          (handle w) (S (ticks w)) (drawn w),
        [Call (Truncate name size) true])).
Proof.
  unfold os_Truncate. destruct (fault env (ticks w)); [left; eauto |].
  destruct (fs w !! name); [right; eauto | left; eauto].
Qed.

Lemma os_Rename_cases {R} old new w :
  (exists e, @os_Rename env R old new w
             = (Next (Some e), tick w, [Call (Rename old new) false])) \/
  (exists content, fs w !! old = Some content /\
     @os_Rename env R old new w
     = (Next None,
        mkWorld (<[new := content]> (delete old (fs w))) (handle w) (S (ticks w)) (drawn w),
        [Call (Rename old new) true])).
Proof.
  unfold os_Rename. destruct (fault env (ticks w)); [left; eauto |].
  destruct (fs w !! old); [right; eauto | left; eauto].
Qed.

Lemma os_Remove_cases {R} name w :
  (exists e, @os_Remove env R name w = (Next (Some e), tick w, [Call (Remove name) false])) \/
  (exists content, fs w !! name = Some content /\
     @os_Remove env R name w
     = (Next None, mkWorld (delete name (fs w)) (handle w) (S (ticks w)) (drawn w),
        [Call (Remove name) true])).
Proof.
  unfold os_Remove. destruct (fault env (ticks w)); [left; eauto |].
  destruct (fs w !! name); [right; eauto | left; eauto].
Qed.


(** ** The blocks of the engine, case by case *)

Lemma report_run {R} cb p w : @report R cb p w = (Next tt, w, report_events cb p).
Proof. destruct cb; reflexivity. Qed.

Local Opaque percentage bufferSize numChunks totalSteps chunkSize.

Ltac failed_call :=
  cbn [app]; split; [reflexivity |]; split;
  [ repeat constructor
  | match goal with
    | |- ends_failed [?a] => exists []; eexists; reflexivity
    | |- ends_failed [?a; ?b] => exists [a]; eexists; reflexivity
    | |- ends_failed [?a; ?b; ?c] => exists [a; b]; eexists; reflexivity
    end ].

Lemma random_chunk_cases filePath L T cb j cs w :
  (exists e w' t,
      random_chunk env filePath L T cb j cs w = (Return (false, EmptyString, Some e), w', t)
      /\ progress_of t = [] /\ Forall overwrite_event t /\ ends_failed t) \/
  (exists name off content,
      handle w = Some (name, off) /\ fs w !! name = Some content /\
      let data := map (entropy env) (seq (drawn w) (Z.to_nat (bufferSize L j))) in
      random_chunk env filePath L T cb j cs w
      = (Next (Int64.add cs 1),
         mkWorld (<[name := write_at content (Z.to_nat off) data]> (fs w))
           (Some (name, off + Z.of_nat (length data))) (S (S (S (ticks w))))
           (drawn w + Z.to_nat (bufferSize L j))%nat,
         [Call (RandRead (bufferSize L j) data) true; Call (Write off data) true;
          Call Sync true] ++ report_events cb (percentage (Int64.add cs 1) T))).
Proof.
  cbv beta zeta delta [random_chunk bind].
  match goal with |- context [@rand_Read _ ?R ?n ?w1] =>
    destruct (@rand_Read_cases R n w1) as [(e & -> & _) | ->] end.
  { left. do 3 eexists. split; [reflexivity |]. failed_call. }
  match goal with |- context [@file_Write _ ?R ?d ?w1] =>
    destruct (@file_Write_cases R d w1)
      as [(e & off & ->) | (name & off & content & Hh & Hf & ->)] end.
  { left. do 3 eexists. split; [reflexivity |]. failed_call. }
  match goal with |- context [@file_Sync _ ?R ?w1] =>
    destruct (@file_Sync_cases R w1) as [(e & ->) | ->] end.
  { left. do 3 eexists. split; [reflexivity |]. failed_call. }
  right. exists name, off, content. split; [exact Hh |]. split; [exact Hf |].
  rewrite report_run. cbv beta iota zeta delta [ret]. cbn [app]. rewrite app_nil_r.
  reflexivity.
Qed.


Lemma zero_chunk_cases filePath L T cb j cs w :
  0 <= L ->
  (exists e w' t,
      zero_chunk env filePath L T cb j cs w = (Return (false, EmptyString, Some e), w', t)
      /\ progress_of t = [] /\ Forall overwrite_event t /\ ends_failed t) \/
  (exists name off content,
      handle w = Some (name, off) /\ fs w !! name = Some content /\
      let data := replicate (Z.to_nat (bufferSize L j)) x00 in
      zero_chunk env filePath L T cb j cs w
      = (Next (Int64.add cs 1),
         mkWorld (<[name := write_at content (Z.to_nat off) data]> (fs w))
           (Some (name, off + Z.of_nat (length data))) (S (S (ticks w))) (drawn w),
         [Call (Write off data) true; Call Sync true]
           ++ report_events cb (percentage (Int64.add cs 1) T))).
Proof.
  intros HL. cbv beta zeta delta [zero_chunk bind].
  assert (take (Z.to_nat (bufferSize L j)) (replicate (Z.to_nat chunkSize) x00)
          = replicate (Z.to_nat (bufferSize L j)) x00) as ->.
  { rewrite take_replicate. f_equal. pose proof (bufferSize_bounds L j HL). lia. }
  match goal with |- context [@file_Write _ ?R ?d ?w1] =>
    destruct (@file_Write_cases R d w1)
      as [(e & off & ->) | (name & off & content & Hh & Hf & ->)] end.
  { left. do 3 eexists. split; [reflexivity |]. failed_call. }
  match goal with |- context [@file_Sync _ ?R ?w1] =>
    destruct (@file_Sync_cases R w1) as [(e & ->) | ->] end.
  { left. do 3 eexists. split; [reflexivity |]. failed_call. }
  right. exists name, off, content. split; [exact Hh |]. split; [exact Hf |].
  rewrite report_run. cbv beta iota zeta delta [ret]. cbn [app]. rewrite app_nil_r.
  reflexivity.
Qed.


Lemma random_chunk_like filePath L T cb :
  0 <= L -> chunk_like false L T cb (random_chunk env filePath L T cb).
Proof.
  intros HL j cs w.
  destruct (random_chunk_cases filePath L T cb j cs w)
    as [H | (name & off & content & Hh & Hf & H)]; [left; exact H | right].
  pose proof (bufferSize_bounds L j HL) as Hb.
  exists name, off, content,
    (map (entropy env) (seq (drawn w) (Z.to_nat (bufferSize L j)))),
    [Call (RandRead (bufferSize L j)
             (map (entropy env) (seq (drawn w) (Z.to_nat (bufferSize L j))))) true].
  do 2 eexists.
  assert (Z.of_nat (length (map (entropy env) (seq (drawn w) (Z.to_nat (bufferSize L j)))))
          = bufferSize L j) as Hlen by (rewrite length_map, length_seq; lia).
  split; [exact Hh |]. split; [exact Hf |]. split; [exact Hlen |].
  split; [discriminate |].
  split; [repeat constructor |]. split; [reflexivity |]. split; [reflexivity |].
  rewrite H. cbn [app]. rewrite Hlen. reflexivity.
Qed.

Lemma zero_chunk_like filePath L T cb :
  0 <= L -> chunk_like true L T cb (zero_chunk env filePath L T cb).
Proof.
  intros HL j cs w.
  destruct (zero_chunk_cases filePath L T cb j cs w HL)
    as [H | (name & off & content & Hh & Hf & H)]; [left; exact H | right].
  pose proof (bufferSize_bounds L j HL) as Hb.
  exists name, off, content, (replicate (Z.to_nat (bufferSize L j)) x00), [].
  do 2 eexists.
  assert (Z.of_nat (length (replicate (Z.to_nat (bufferSize L j)) x00))
          = bufferSize L j) as Hlen by (rewrite length_replicate; lia).
  split; [exact Hh |]. split; [exact Hf |]. split; [exact Hlen |].
  split; [intros _; split; [now rewrite length_replicate | reflexivity] |].
  split; [constructor |]. split; [reflexivity |]. split; [reflexivity |].
  rewrite H. cbn [app]. rewrite Hlen. reflexivity.
Qed.


(** ** The chunk loop *)

Lemma reports_S cb T cs n :
  reports cb T cs (S n) =
  progress_of (report_events cb (percentage (Int64.add cs 1) T))
    ++ reports cb T (Int64.add cs 1) n.
Proof.
  rewrite progress_of_report. unfold reports. destruct cb as [body |]; [| reflexivity].
  cbn [seq map app]. f_equal. rewrite <- seq_shift, map_map.
  apply map_ext. intros k. unfold Int64.add. rewrite wrap64_add_l. f_equal. f_equal. lia.
Qed.

Lemma reports_app cb T cs n m :
  reports cb T cs (n + m)
  = reports cb T cs n ++ reports cb T (Int64.wrap64 (cs + Z.of_nat n)) m.
Proof.
  unfold reports. destruct cb as [body |]; [| reflexivity].
  rewrite seq_app, map_app. f_equal.
  rewrite (Nat.add_comm 1 n), <- (fmap_add_seq n 1 m).
  change (Nat.add n <$> seq 1 m) with (map (Nat.add n) (seq 1 m)).
  rewrite map_map. apply map_ext. intros k.
  rewrite wrap64_add_l. f_equal. f_equal. lia.
Qed.

Section Chunks.

Variable zero : bool.
Variables L T : Z.
Variable cb : ProgressCallback.
Variable body : Z -> Z -> M Result Z.
Hypothesis Hbody : chunk_like zero L T cb body.

(** The trace of a window that went through. *)
Lemma chunk_trace_ok rr off data p :
  Forall overwrite_event rr -> progress_of rr = [] ->
  Forall overwrite_event
    (rr ++ [Call (Write off data) true; Call Sync true] ++ report_events cb p)
  /\ reported_after_flush
       (rr ++ [Call (Write off data) true; Call Sync true] ++ report_events cb p).
Proof.
  intros Hrr Hq. split.
  - apply Forall_app. split; [exact Hrr |]. apply Forall_app. split.
    + repeat constructor.
    + apply overwrite_event_report.
  - rewrite app_assoc. destruct cb as [f |]; cbn [report_events].
    + apply reported_after_flush_one.
      * rewrite progress_of_app, Hq. reflexivity.
      * apply progress_of_logs.
      * left. exists rr, off, data. reflexivity.
    + apply reported_after_flush_quiet.
      rewrite app_nil_r, progress_of_app, Hq. reflexivity.
Qed.

Lemma chunk_like_orderly j cs w s w' t : body j cs w = (s, w', t) -> orderly s t.
Proof.
  intros H.
  destruct (Hbody j cs w) as [(e & w0 & t0 & E & Hq & Hov & Hend)
    | (name & off & content & data & rr & k & d & _ & _ & _ & _ & Hov & Hq & _ & E)];
    rewrite E in H; injection H as <- <- <-.
  - split; [exact Hov |]. split; [now apply reported_after_flush_quiet |].
    intros r [= <-]. split; [eexists; reflexivity | exact Hend].
  - destruct (chunk_trace_ok rr off data (percentage (Int64.add cs 1) T) Hov Hq) as [Hov1 Hfl1].
    split; [exact Hov1 |]. split; [exact Hfl1 | discriminate].
Qed.

(** Whatever happens in the loop, it is orderly. *)
Lemma chunks_any n j cs w s w' t : for_range n j body cs w = (s, w', t) -> orderly s t.
Proof. apply for_range_orderly. exact chunk_like_orderly. Qed.

(** When the loop runs to its end: the step counter, the offset of the
    handle, the windows written and the percentages reported. *)
Lemma chunks_complete n : forall j cs w cs' w' t name off,
  Int64.wrap64 cs = cs -> handle w = Some (name, off) ->
  for_range n j body cs w = (Next cs', w', t) ->
  cs' = Int64.wrap64 (cs + Z.of_nat n) /\
  handle w' = Some (name, off + covered (windows_from L n j off)) /\
  map window_of (writes_of t) = windows_from L n j off /\
  (zero = true -> Forall zero_write (writes_of t) /\ rand_reads_of t = []) /\
  progress_of t = reports cb T cs n.
Proof.
  induction n as [| n IH]; intros j cs w cs' w' t name off Hcs Hh H.
  - injection H as <- <- <-. cbn [windows_from covered foldr].
    rewrite !Z.add_0_r. split; [now rewrite Hcs |]. split; [exact Hh |].
    split; [reflexivity |]. split; [intros _; split; [constructor | reflexivity] |].
    unfold reports. destruct cb; reflexivity.
  - rewrite for_range_S in H.
    apply bind_inv in H as [(r & H & [=]) | (a & w1 & t1 & t2 & H1 & H2 & ->)].
    destruct (Hbody j cs w) as [(e & w0 & t0 & E & _)
      | (name' & off' & content & data & rr & k & d & Hh' & _ & Hlen & Hz & Hov & Hq & Hwr & E)];
      rewrite E in H1; [discriminate H1 |].
    injection H1 as <- <- <-.
    rewrite Hh in Hh'. injection Hh' as <- <-.
    assert (Int64.wrap64 (Int64.add cs 1) = Int64.add cs 1) as Hcs1.
    { apply wrap64_idem. }
    pose proof (fun Hx => IH _ _ _ _ _ _ name (off + bufferSize L j) Hcs1 Hx H2) as IH2.
    destruct (IH2 eq_refl) as (-> & Hh2 & Hw2 & Hz2 & Hp2). clear IH2.
    split.
    { unfold Int64.add. rewrite wrap64_add_l. f_equal. lia. }
    split.
    { rewrite Hh2. cbn [windows_from covered foldr snd]. f_equal. f_equal.
      unfold covered. lia. }
    split.
    { rewrite !writes_of_app, Hwr, !writes_of_cons, writes_of_report. cbn [app].
      rewrite map_cons, Hw2. unfold window_of at 1. cbn [fst snd windows_from].
      rewrite Hlen. reflexivity. }
    split.
    { intros Hzero. destruct (Hz Hzero) as [Hd ->]. destruct (Hz2 Hzero) as [Hz2' Hr2].
      split.
      - rewrite !writes_of_app, !writes_of_cons, writes_of_report. cbn [app].
        constructor; [exact Hd | exact Hz2'].
      - rewrite !rand_reads_of_app, !rand_reads_of_cons, Hr2. cbn [app].
        rewrite app_nil_r.
        destruct cb as [f |]; [| reflexivity]. cbn [report_events].
        rewrite rand_reads_of_cons. exact (rand_reads_of_logs _). }
    rewrite reports_S, !progress_of_app, Hq, !progress_of_cons, Hp2. reflexivity.
Qed.

End Chunks.


(** ** The finalizer *)

Lemma finalize_cases filePath cb w :
  (exists e w' t,
      finalize filepath_Dir filepath_Join env filePath cb w
      = (Return (false, EmptyString, Some e), w', t)
      /\ progress_of t = [] /\ ends_failed t
      /\ rename_target env filepath_Dir filepath_Join filePath t
      /\ (renames_of t <> [] -> fs w' !! filePath = Some [])) \/
  (exists content,
      fs w !! filePath = Some content /\
      let randomBytes := map (entropy env) (seq (drawn w) 32) in
      let newPath :=
        filepath_Join (filepath_Dir filePath) (obfuscated_name (clock env) randomBytes) in
      finalize filepath_Dir filepath_Join env filePath cb w
      = (Return (true, newPath, None),
         mkWorld (<[newPath := []]> (delete filePath (<[filePath := []]> (fs w)))) None
           (S (S (S (S (ticks w))))) (drawn w + 32)%nat,
         finalizer_prefix filePath randomBytes (clock env)
           ++ [Call (Rename filePath newPath) true;
               Log ("Redacted: " ++ filePath ++ " -> Renamed to: " ++ newPath)]
           ++ report_events cb 100)).
Proof.
  cbv beta zeta delta [finalize bind].
  match goal with |- context [@file_Close _ ?R ?p ?w1] =>
    destruct (@file_Close_cases R p w1) as [(e & ->) | ->] end.
  { left. do 3 eexists. split; [reflexivity |]. cbn [app].
    split; [reflexivity |]. split; [exists []; eexists; reflexivity |].
    split; [now apply rename_target_quiet | intros H; now destruct H]. }
  match goal with |- context [@os_Truncate _ ?R ?p ?z ?w1] =>
    destruct (@os_Truncate_cases R p z w1) as [(e & ->) | (content & Hf & ->)] end.
  { left. do 3 eexists. split; [reflexivity |]. cbn [app].
    split; [reflexivity |]. split; [exists [Call Close true]; eexists; reflexivity |].
    split; [now apply rename_target_quiet | intros H; now destruct H]. }
  match goal with |- context [@rand_Read _ ?R ?n ?w1] =>
    destruct (@rand_Read_cases R n w1) as [(e & -> & _) | ->] end.
  { left. do 3 eexists. split; [reflexivity |]. cbn [app].
    split; [reflexivity |].
    split; [exists [Call Close true; Call (Truncate filePath 0) true]; eexists; reflexivity |].
    split; [now apply rename_target_quiet | intros H; now destruct H]. }
  cbv beta iota zeta delta [time_Now_Unix].
  match goal with |- context [@os_Rename _ ?R ?a ?b ?w1] =>
    destruct (@os_Rename_cases R a b w1) as [(e & ->) | (content' & Hf' & ->)] end.
  { left. do 3 eexists. split; [reflexivity |]. cbn [app].
    split; [reflexivity |].
    split; [eexists [_; _; _; _]; eexists; reflexivity |].
    split.
    - apply (rename_target_one filePath [Call Close true; Call (Truncate filePath 0) true]
               (drawn w) false []); reflexivity.
    - intros _. cbn [fs]. apply lookup_insert_eq. }
  right. exists content. split; [exact Hf |].
  cbn [fs] in Hf'. rewrite lookup_insert_eq in Hf'. injection Hf' as <-.
  cbv beta iota zeta delta [log_Printf emit return_]. rewrite report_run.
  cbn [app fs handle ticks drawn]. rewrite !app_nil_r. reflexivity.
Qed.


(** ** The random passes *)

Section Passes.

Variable filePath : string.
Variables L T : Z.
Variable cb : ProgressCallback.
Hypothesis HL : 0 <= L.

Lemma random_pass_any i cs w s w' t :
  random_pass env filePath L T cb i cs w = (s, w', t) -> orderly s t.
Proof.
  cbv beta zeta delta [random_pass bind].
  match goal with |- context [@file_Seek _ ?R ?o ?w1] =>
    destruct (@file_Seek_cases R o w1) as [(e & ->) | (name & off & _ & ->)] end.
  - intros [= <- <- <-]. cbn [app]. split; [repeat constructor |].
    split; [now apply reported_after_flush_quiet |].
    intros r [= <-]. split; [eexists; reflexivity | exists []; eexists; reflexivity].
  - match goal with |- context [for_range ?n ?j ?b ?c ?w1] =>
      destruct (for_range n j b c w1) as [[s2 w2] t2] eqn:E end.
    intros [= <- <- <-]. apply (orderly_prefix _ [Call (Seek 0) true]);
      [repeat constructor | reflexivity |].
    exact (chunks_any false L T cb _ (random_chunk_like filePath L T cb HL) _ _ _ _ _ _ _ E).
Qed.

Lemma random_pass_complete i cs w cs' w' t name off :
  Int64.wrap64 cs = cs -> handle w = Some (name, off) ->
  random_pass env filePath L T cb i cs w = (Next cs', w', t) ->
  cs' = Int64.wrap64 (cs + Z.of_nat (Z.to_nat (numChunks L))) /\
  handle w' = Some (name, covered (windows L)) /\
  map window_of (writes_of t) = windows L /\
  progress_of t = reports cb T cs (Z.to_nat (numChunks L)).
Proof.
  intros Hcs Hh. cbv beta zeta delta [random_pass bind].
  match goal with |- context [@file_Seek _ ?R ?o ?w1] =>
    destruct (@file_Seek_cases R o w1) as [(e & ->) | (name' & off' & Hh' & ->)] end;
    [discriminate |].
  rewrite Hh in Hh'. injection Hh' as <- <-.
  match goal with |- context [for_range ?n ?j ?b ?c ?w1] =>
    destruct (for_range n j b c w1) as [[s2 w2] t2] eqn:E end.
  intros [= -> <- <-].
  pose proof (fun Hx => chunks_complete false L T cb _ (random_chunk_like filePath L T cb HL)
                          _ _ _ _ _ _ _ name 0 Hcs Hx E) as HC.
  destruct (HC eq_refl) as (-> & Hh2 & Hw2 & _ & Hp2). clear HC.
  split; [reflexivity |]. split; [rewrite Hh2; reflexivity |].
  split; [rewrite writes_of_cons; exact Hw2 |].
  rewrite progress_of_cons. exact Hp2.
Qed.

(** All the random passes, whatever happens. *)
Lemma random_passes_any n i cs w s w' t :
  for_range n i (random_pass env filePath L T cb) cs w = (s, w', t) -> orderly s t.
Proof. apply for_range_orderly. intros j c w0 s0 w0' t0. apply random_pass_any. Qed.

(** All the random passes, when they run to their end. *)
Lemma random_passes_complete n : forall i cs w cs' w' t name off,
  Int64.wrap64 cs = cs -> handle w = Some (name, off) ->
  for_range n i (random_pass env filePath L T cb) cs w = (Next cs', w', t) ->
  cs' = Int64.wrap64 (cs + Z.of_nat (n * Z.to_nat (numChunks L))) /\
  (exists off', handle w' = Some (name, off')) /\
  map window_of (writes_of t) = concat (replicate n (windows L)) /\
  progress_of t = reports cb T cs (n * Z.to_nat (numChunks L)).
Proof.
  induction n as [| n IH]; intros i cs w cs' w' t name off Hcs Hh H.
  - injection H as <- <- <-. cbn [Nat.mul]. rewrite Z.add_0_r.
    split; [now rewrite Hcs |]. split; [eauto |]. split; [reflexivity |].
    unfold reports. destruct cb; reflexivity.
  - rewrite for_range_S in H.
    apply bind_inv in H as [(r & H & [=]) | (a & w1 & t1 & t2 & H1 & H2 & ->)].
    destruct (random_pass_complete _ _ _ _ _ _ _ _ Hcs Hh H1) as (-> & Hh1 & Hw1 & Hp1).
    assert (Int64.wrap64 (Int64.wrap64 (cs + Z.of_nat (Z.to_nat (numChunks L))))
            = Int64.wrap64 (cs + Z.of_nat (Z.to_nat (numChunks L)))) as Hcs1.
    { apply wrap64_idem. }
    destruct (IH _ _ _ _ _ _ _ _ Hcs1 Hh1 H2) as (-> & Hh2 & Hw2 & Hp2).
    split; [rewrite wrap64_add_l; f_equal; lia |]. split; [exact Hh2 |].
    split.
    + rewrite writes_of_app, map_app, Hw1, Hw2. reflexivity.
    + rewrite progress_of_app, Hp1, Hp2. cbn [Nat.mul]. now rewrite reports_app.
Qed.

End Passes.


(** ** The engine after the handle is open *)

Lemma finalize_any filePath cb w s w' t :
  finalize filepath_Dir filepath_Join env filePath cb w = (s, w', t) ->
  reported_after_flush t /\ rename_target env filepath_Dir filepath_Join filePath t /\
  exists r, s = Return r /\ engine_result filePath r t.
Proof.
  intros H.
  destruct (finalize_cases filePath cb w)
    as [(e & w0 & t0 & E & Hq & Hend & Hrt & _) | (content & Hf & E)];
    cbv zeta in E; rewrite E in H; injection H as <- <- <-.
  - split; [now apply reported_after_flush_quiet |]. split; [exact Hrt |].
    eexists. split; [reflexivity |]. left. split; [eexists; reflexivity | exact Hend].
  - split; [| split].
    + unfold finalizer_prefix. destruct cb as [f |]; cbn [report_events app].
      * match goal with
        | |- reported_after_flush (?a :: ?b :: ?c :: ?d :: ?e :: ?g :: Progress ?p :: ?post) =>
            apply (reported_after_flush_one [a; b; c; d; e; g] p post);
              [reflexivity | apply progress_of_logs |];
              right; split; [| reflexivity]; exists [a; b; c; d]; do 3 eexists; reflexivity
        end.
      * apply reported_after_flush_quiet. reflexivity.
    + apply (rename_target_one filePath [Call Close true; Call (Truncate filePath 0) true]
               (drawn w) true); [reflexivity |].
      rewrite renames_of_cons. exact (renames_of_report cb 100).
    + eexists. split; [reflexivity |]. right. eexists. split; [reflexivity |].
      unfold finalizer_prefix. cbn [app].
      rewrite !renames_of_cons, renames_of_report. reflexivity.
Qed.

Lemma engine_result_prefix filePath r t0 t :
  renames_of t0 = [] -> engine_result filePath r t -> engine_result filePath r (t0 ++ t).
Proof.
  intros H0 [[Hf He] | (newPath & -> & Hr)].
  - left. split; [exact Hf | now apply ends_failed_app].
  - right. exists newPath. split; [reflexivity |]. now rewrite renames_of_app, H0.
Qed.

Lemma orderly_engine_result {A} filePath (s : step Result A) t r :
  orderly s t -> s = Return r -> engine_result filePath r t.
Proof. intros (_ & _ & Hret) Hs. left. exact (Hret r Hs). Qed.

Section Overwrite.

Variable filePath : string.
Variables L passes : Z.
Variable cb : ProgressCallback.
Hypothesis HL : 0 <= L.

Lemma overwrite_any w s w' t :
  overwrite filepath_Dir filepath_Join env filePath L passes cb w = (s, w', t) ->
  reported_after_flush t /\ rename_target env filepath_Dir filepath_Join filePath t /\
  exists r, s = Return r /\ engine_result filePath r t.
Proof.
  cbv beta zeta delta [overwrite]. intros H.
  apply bind_inv in H as [(r & H & ->) | (cs & w1 & t1 & t2 & H1 & H2 & ->)].
  { pose proof (random_passes_any filePath L _ cb HL _ _ _ _ _ _ _ H) as Ho.
    destruct Ho as (Hov & Hfl & Hret).
    split; [exact Hfl |]. split; [now apply rename_target_quiet, renames_of_overwrite |].
    exists r. split; [reflexivity |]. left. exact (Hret r eq_refl). }
  pose proof (random_passes_any filePath L _ cb HL _ _ _ _ _ _ _ H1) as (Hov1 & Hfl1 & _).
  revert H2. cbv beta zeta delta [bind].
  match goal with |- context [@file_Seek _ ?R ?o ?w0] =>
    destruct (@file_Seek_cases R o w0) as [(e & ->) | (name & off & _ & ->)] end.
  { intros [= <- <- <-]. cbn [app].
    split; [apply reported_after_flush_app; [exact Hfl1 | now apply reported_after_flush_quiet] |].
    split.
    - apply rename_target_quiet. rewrite renames_of_app, (renames_of_overwrite _ Hov1). reflexivity.
    - eexists. split; [reflexivity |]. left.
      split; [eexists; reflexivity | apply ends_failed_app; exists []; eexists; reflexivity]. }
  match goal with |- context [for_range ?n ?j ?b ?c ?w0] =>
    destruct (for_range n j b c w0) as [[[cs2 | r2] w2] t2'] eqn:E end.
  2: { intros [= <- <- <-].
       pose proof (chunks_any true L _ cb _ (zero_chunk_like filePath L _ cb HL)
                     _ _ _ _ _ _ _ E) as (Hov2 & Hfl2 & Hret2).
       assert (Forall overwrite_event (t1 ++ [Call (Seek 0) true] ++ t2')) as Hov.
       { apply Forall_app. split; [exact Hov1 |]. apply Forall_app. split; [repeat constructor | exact Hov2]. }
       split.
       { apply reported_after_flush_app; [exact Hfl1 |].
         apply (reported_after_flush_app [Call (Seek 0) true] t2');
           [now apply reported_after_flush_quiet | exact Hfl2]. }
       split; [now apply rename_target_quiet, renames_of_overwrite |].
       eexists. split; [reflexivity |]. left. destruct (Hret2 r2 eq_refl) as [Hf He].
       split; [exact Hf |]. apply ends_failed_app.
       now apply (ends_failed_app [Call (Seek 0) true] t2'). }
  pose proof (chunks_any true L _ cb _ (zero_chunk_like filePath L _ cb HL)
                _ _ _ _ _ _ _ E) as (Hov2 & Hfl2 & _).
  destruct (finalize filepath_Dir filepath_Join env filePath cb w2) as [[s3 w3] t3] eqn:E3.
  intros [= <- <- <-].
  destruct (finalize_any _ _ _ _ _ _ E3) as (Hfl3 & Hrt3 & r & -> & Hres).
  assert (renames_of (t1 ++ [Call (Seek 0) true] ++ t2') = []) as Hq.
  { apply renames_of_overwrite. apply Forall_app. split; [exact Hov1 |].
    apply Forall_app. split; [repeat constructor | exact Hov2]. }
  replace (t1 ++ Call (Seek 0) true :: t2' ++ t3)
    with ((t1 ++ [Call (Seek 0) true] ++ t2') ++ t3)
    by (rewrite <- !app_assoc; reflexivity).
  split.
  { apply reported_after_flush_app; [| exact Hfl3].
    apply reported_after_flush_app; [exact Hfl1 |].
    apply (reported_after_flush_app [Call (Seek 0) true] t2');
      [now apply reported_after_flush_quiet | exact Hfl2]. }
  split; [apply rename_target_app; [now apply rename_target_quiet | exact Hrt3] |].
  exists r. split; [reflexivity |]. now apply engine_result_prefix.
Qed.

Lemma overwrite_success w newPath w' t name off :
  handle w = Some (name, off) ->
  overwrite filepath_Dir filepath_Join env filePath L passes cb w
  = (Return (true, newPath, None), w', t) ->
  let T := totalSteps passes L in
  let n := Z.to_nat (numChunks L) in
  exists t_rand t_zero d fs_mid,
    let randomBytes := map (entropy env) (seq d 32) in
    t = t_rand ++ [Call (Seek 0) true] ++ t_zero
          ++ finalizer_prefix filePath randomBytes (clock env)
          ++ [Call (Rename filePath newPath) true;
              Log ("Redacted: " ++ filePath ++ " -> Renamed to: " ++ newPath)]
          ++ report_events cb 100 /\
    newPath = filepath_Join (filepath_Dir filePath) (obfuscated_name (clock env) randomBytes) /\
    Forall overwrite_event t_rand /\
    map window_of (writes_of t_rand) = concat (replicate (Z.to_nat passes) (windows L)) /\
    progress_of t_rand = reports cb T 0 (Z.to_nat passes * n) /\
    Forall overwrite_event t_zero /\
    map window_of (writes_of t_zero) = windows L /\
    Forall zero_write (writes_of t_zero) /\
    rand_reads_of t_zero = [] /\
    progress_of t_zero = reports cb T (Int64.wrap64 (Z.of_nat (Z.to_nat passes * n))) n /\
    (Z.to_nat passes = 0%nat -> t_rand = []) /\
    fs w' = <[newPath := []]> (delete filePath (<[filePath := []]> fs_mid)) /\
    handle w' = None.
Proof.
  intros Hh H. cbv zeta. revert H. cbv beta zeta delta [overwrite]. intros H.
  apply bind_inv in H as [(r & H & [= <-]) | (cs & w1 & t1 & t2 & H1 & H2 & ->)].
  { destruct (random_passes_any filePath L _ cb HL _ _ _ _ _ _ _ H) as (_ & _ & Hret).
    destruct (Hret _ eq_refl) as [[e [=]] _]. }
  pose proof (random_passes_any filePath L _ cb HL _ _ _ _ _ _ _ H1) as (Hov1 & _ & _).
  destruct (random_passes_complete filePath L _ cb HL _ _ _ _ _ _ _ name off
              (wrap64_small 0 ltac:(unfold Int64.min_signed, Int64.max_signed; lia)) Hh H1)
    as (-> & (off1 & Hh1) & Hw1 & Hp1).
  revert H2. cbv beta zeta delta [bind].
  match goal with |- context [@file_Seek _ ?R ?o ?w0] =>
    destruct (@file_Seek_cases R o w0) as [(e & ->) | (name' & off' & Hh' & ->)] end;
    [discriminate |].
  rewrite Hh1 in Hh'. injection Hh' as <- <-.
  match goal with |- context [for_range ?n ?j ?b ?c ?w0] =>
    destruct (for_range n j b c w0) as [[[cs2 | r2] w2] t2'] eqn:E end.
  2: { intros [= -> <- <-].
       destruct (chunks_any true L _ cb _ (zero_chunk_like filePath L _ cb HL)
                   _ _ _ _ _ _ _ E) as (_ & _ & Hret).
       destruct (Hret _ eq_refl) as [[e [=]] _]. }
  pose proof (chunks_any true L _ cb _ (zero_chunk_like filePath L _ cb HL)
                _ _ _ _ _ _ _ E) as (Hov2 & _ & _).
  pose proof (fun Hx => chunks_complete true L _ cb _ (zero_chunk_like filePath L _ cb HL)
                          _ _ _ _ _ _ _ name 0 (wrap64_idem _) Hx E) as HC.
  destruct (HC eq_refl) as (_ & _ & Hw2 & Hz2 & Hp2). clear HC.
  destruct (Hz2 eq_refl) as [Hz2' Hr2].
  destruct (finalize_cases filePath cb w2)
    as [(e & w0 & t0 & E3 & _) | (content & Hf & E3)];
    cbv zeta in E3; rewrite E3; intros [= <- <- <-].
  exists t1, t2', (drawn w2), (fs w2).
  rewrite Z.add_0_l in Hp2.
  repeat (split; [first [assumption | reflexivity] |]).
  split; [| split; reflexivity].
  intros Hz. rewrite Hz in H1. cbn [for_range] in H1. unfold ret in H1. congruence.
Qed.

End Overwrite.


(** ** The whole function *)

Lemma deferred_close_run filePath w :
  exists t,
    deferred_close env filePath w
    = (Next tt, mkWorld (fs w) None (S (ticks w)) (drawn w), t) /\
    progress_of t = [] /\ renames_of t = [] /\
    (handle w = None ->
     t = [Call Close false;
          Log ("Error closing file " ++ filePath ++ ": "
               ++ Error (PathError "close" filePath ErrClosed))]).
Proof.
  cbv beta zeta delta [deferred_close bind file_Close].
  destruct (handle w) as [h |].
  - destruct (fault env (ticks w)) as [text |]; eexists;
      (split; [reflexivity |]); (split; [reflexivity |]); (split; [reflexivity |]); discriminate.
  - eexists. split; [reflexivity |]. split; [reflexivity |]. split; [reflexivity |].
    intros _. reflexivity.
Qed.

Lemma SecureShredFile_any filePath passes cb w r w' t :
  SecureShredFile filepath_Dir filepath_Join env filePath passes cb w = (r, w', t) ->
  reported_after_flush t /\ rename_target env filepath_Dir filepath_Join filePath t /\
  (failure r \/
   exists newPath, r = (true, newPath, None) /\ renames_of t = [(filePath, newPath, true)]).
Proof.
  cbv beta zeta delta [SecureShredFile call SecureShredFile_body bind].
  match goal with |- context [@os_Stat _ ?R ?p ?w0] =>
    destruct (@os_Stat_cases R p w0) as [(e & -> & _) | (content & Hf & ->)] end.
  { destruct (os_IsNotExist e); intros [= <- <- <-]; cbn [app];
      (split; [now apply reported_after_flush_quiet |]);
      (split; [now apply rename_target_quiet |]); left; eexists; reflexivity. }
  match goal with |- context [@os_OpenFile _ ?R ?p ?w0] =>
    destruct (@os_OpenFile_cases R p w0) as [(e & ->) | ->] end.
  { intros [= <- <- <-]; cbn [app].
    split; [now apply reported_after_flush_quiet |].
    split; [now apply rename_target_quiet |]. left; eexists; reflexivity. }
  cbv beta zeta delta [defer].
  match goal with |- context [overwrite ?a ?b ?c ?d ?e ?f ?g ?w0] =>
    destruct (overwrite a b c d e f g w0) as [[s1 w1] t1] eqn:E end.
  destruct (deferred_close_run filePath w1) as (t2 & -> & Hq2 & Hr2 & _).
  destruct (overwrite_any filePath _ passes cb (Nat2Z.is_nonneg _) _ _ _ _ E)
    as (Hfl & Hrt & r0 & -> & Hres).
  intros [= <- <- <-]. cbn [app].
  assert (forall t0, renames_of t0 = [] ->
            rename_target env filepath_Dir filepath_Join filePath t0) as Hquiet
    by (intros; now apply rename_target_quiet).
  split.
  { apply (reported_after_flush_app [_; _]); [now apply reported_after_flush_quiet |].
    apply reported_after_flush_app; [exact Hfl | now apply reported_after_flush_quiet]. }
  split.
  { apply (rename_target_app filePath [_; _]); [now apply Hquiet |].
    apply rename_target_app; [exact Hrt | now apply Hquiet]. }
  destruct Hres as [[Hf' _] | (newPath & -> & Hr)]; [left; exact Hf' | right].
  exists newPath. split; [reflexivity |].
  rewrite !renames_of_cons, renames_of_app, Hr, Hr2. reflexivity.
Qed.

Lemma SecureShredFile_success filePath passes cb w newPath w' t :
  SecureShredFile filepath_Dir filepath_Join env filePath passes cb w
  = ((true, newPath, None), w', t) ->
  exists content fs_mid,
    fs w !! filePath = Some content /\
    successful_run env filepath_Dir filepath_Join filePath passes cb
      (Z.of_nat (length content)) newPath t /\
    fs w' = <[newPath := []]> (delete filePath (<[filePath := []]> fs_mid)).
Proof.
  cbv beta zeta delta [SecureShredFile call SecureShredFile_body bind].
  match goal with |- context [@os_Stat _ ?R ?p ?w0] =>
    destruct (@os_Stat_cases R p w0) as [(e & -> & _) | (content & Hf & ->)] end.
  { destruct (os_IsNotExist e); discriminate. }
  match goal with |- context [@os_OpenFile _ ?R ?p ?w0] =>
    destruct (@os_OpenFile_cases R p w0) as [(e & ->) | ->] end.
  { discriminate. }
  cbv beta zeta delta [defer].
  match goal with |- context [overwrite ?a ?b ?c ?d ?e ?f ?g ?w0] =>
    destruct (overwrite a b c d e f g w0) as [[s1 w1] t1] eqn:E end.
  destruct (deferred_close_run filePath w1) as (t2 & -> & _ & _ & Hclosed).
  destruct (overwrite_any filePath _ passes cb (Nat2Z.is_nonneg _) _ _ _ _ E)
    as (_ & _ & r0 & -> & _).
  intros [= -> <- <-].
  pose proof (fun Hx => overwrite_success filePath _ passes cb (Nat2Z.is_nonneg _)
                          _ _ _ _ filePath 0 Hx E) as HS.
  destruct (HS eq_refl)
    as (t_rand & t_zero & d & fs_mid & -> & Hnew & Hov1 & Hw1 & Hp1 & Hov2 & Hw2 & Hz2 & Hr2 & Hp2
        & Hnone & Hfs & Hh).
  exists content, fs_mid. split; [exact Hf |]. split; [| exact Hfs].
  exists t_rand, t_zero, d. rewrite (Hclosed Hh).
  split; [repeat (cbn [app]; rewrite <- ?app_assoc); reflexivity |].
  repeat (split; [assumption |]). assumption.
Qed.


(** ** Results of the function (claim C10) *)

(** C10.  Whenever [SecureShredFile] returns a non-nil error it returns
    [false] and the empty string; the error is nil exactly when the flag is
    [true], and then the path returned is the obfuscated path: the target of
    the one rename of the run, built from the clock and 32 random bytes in
    the directory of the original file. *)
Theorem SecureShredFile_result_shape filePath passes cb w success finalPath err w' t :
  SecureShredFile filepath_Dir filepath_Join env filePath passes cb w
  = ((success, finalPath, err), w', t) ->
  (err <> None -> success = false /\ finalPath = EmptyString) /\
  (err = None <-> success = true) /\
  (success = true ->
   renames_of t = [(filePath, finalPath, true)] /\
   exists randomBytes,
     In (Call (RandRead 32 randomBytes) true) t /\
     finalPath = filepath_Join (filepath_Dir filePath)
                   (obfuscated_name (clock env) randomBytes)).
Proof.
  intros H. destruct (SecureShredFile_any _ _ _ _ _ _ _ H) as (_ & _ & Hres).
  destruct Hres as [(e & [= -> -> ->]) | (newPath & [= -> -> ->] & Hr)].
  - split; [auto |]. split; [split; discriminate | discriminate].
  - split; [intros E; now destruct E |]. split; [split; reflexivity |].
    intros _. split; [exact Hr |].
    destruct (SecureShredFile_success _ _ _ _ _ _ _ H)
      as (content & fs_mid & _ & (t_rand & t_zero & d & -> & Hnew & _) & _).
    exists (map (entropy env) (seq d 32)). split; [| exact Hnew].
    unfold finalizer_prefix. cbn [app]. do 2 right. apply in_or_app. right.
    right. apply in_or_app. right. do 2 right. left. reflexivity.
Qed.

(** ** Flush before report (claim C9) *)

(** C9.  In the trace of any run, successful or not, every invocation of the
    progress callback comes immediately after a successful write and its
    successful [Sync], in the random passes and in the zero pass alike; the
    one exception is the final report of 100, which comes immediately after
    the successful rename and its log line. *)
Theorem progress_only_after_flush filePath passes cb w r w' t :
  SecureShredFile filepath_Dir filepath_Join env filePath passes cb w = (r, w', t) ->
  forall pre p post, t = pre ++ Progress p :: post ->
    (exists pre' off data, pre = pre' ++ [Call (Write off data) true; Call Sync true]) \/
    ((exists pre' old new msg, pre = pre' ++ [Call (Rename old new) true; Log msg]) /\ p = 100).
Proof.
  intros H. destruct (SecureShredFile_any _ _ _ _ _ _ _ H) as (Hfl & _ & _). exact Hfl.
Qed.

(** ** The replacement name (claim C7) *)

(** C7.  In the trace of any run, every rename attempt moves the original
    path to [Join (Dir filePath) name], where [name] is the unpadded
    base64url encoding of the decimal Unix time, an underscore, and the
    unpadded base64url encoding of 32 bytes that the random source has just
    delivered: the read of the random source and the reading of the clock
    are the two events right before the rename. *)
Theorem rename_target_is_obfuscated filePath passes cb w r w' t :
  SecureShredFile filepath_Dir filepath_Join env filePath passes cb w = (r, w', t) ->
  forall pre old new ok post, t = pre ++ Call (Rename old new) ok :: post ->
    old = filePath /\
    exists randomBytes pre' d,
      pre = pre' ++ [Call (RandRead 32 randomBytes) true; Now (clock env)] /\
      randomBytes = map (entropy env) (seq d 32) /\
      length randomBytes = 32%nat /\
      new = filepath_Join (filepath_Dir filePath)
              ((Base64.EncodeToString (bytes_of_string (strconv_FormatInt (clock env)))
                  ++ "_" ++ Base64.EncodeToString randomBytes)%string).
Proof.
  intros H. destruct (SecureShredFile_any _ _ _ _ _ _ _ H) as (_ & Hrt & _).
  intros pre old new ok post E.
  destruct (Hrt pre old new ok post E) as (-> & rb & pre' & d & -> & -> & ->).
  split; [reflexivity |]. exists (map (entropy env) (seq d 32)), pre', d.
  split; [reflexivity |]. split; [reflexivity |]. split; [| reflexivity].
  now rewrite length_map, length_seq.
Qed.


(** ** The exported wrapper *)

(** What [shred] does after the engine has succeeded: it logs, looks at the
    original path, and tries to remove the renamed file. *)
Lemma shred_after_success path count w finalPath w1 t1 :
  SecureShredFile filepath_Dir filepath_Join env path count shred_progressCallback w
  = ((true, finalPath, None), w1, t1) ->
  exists w2 t_head t_stat ok msg,
    shred filepath_Dir filepath_Join env path count w
    = (Returned, w2, t_head ++ t1 ++ t_stat ++ [Call (Remove finalPath) ok; Log msg]) /\
    (ok = true -> fs w2 = delete finalPath (fs w1)) /\
    (ok = false -> fs w2 = fs w1).
Proof.
  intros H. cbv beta iota zeta delta [shred call shred_body bind log_Printf emit return_].
  rewrite H. cbv beta iota zeta.
  match goal with |- context [@os_Stat _ ?R ?p ?w0] =>
    destruct (@os_Stat_cases R p w0) as [(e & -> & _) | (content & Hf & ->)] end.
  - destruct (os_IsNotExist e); cbv beta iota zeta delta [negb];
      match goal with |- context [@os_Remove _ ?R ?p ?w0] =>
        destruct (@os_Remove_cases R p w0) as [(e' & ->) | (content' & Hf' & ->)] end;
      eexists _, [_], [_; _; _; _], _, _;
      (split; [cbn [app]; rewrite ?app_nil_r, <- ?app_assoc; reflexivity |]);
      split; first [discriminate | reflexivity | intros _; reflexivity].
  - match goal with |- context [@os_Remove _ ?R ?p ?w0] =>
      destruct (@os_Remove_cases R p w0) as [(e' & ->) | (content' & Hf' & ->)] end;
      eexists _, [_], [_; _; _; _], _, _;
      (split; [cbn [app]; rewrite ?app_nil_r, <- ?app_assoc; reflexivity |]);
      split; first [discriminate | reflexivity | intros _; reflexivity].
Qed.

(** ** The final state (claim C1) *)

(** C1, as amended.  After a successful call of the engine made by [shred]:
    [shred] returns and has tried to remove the file at the returned path.
    If that removal succeeded, no file exists at the original path nor at
    the returned path.  If it failed, the renamed file is still there, with
    no content, and the original path is free unless the returned path is
    the original path itself. *)
Theorem shred_final_state path count w finalPath w1 t1 st w2 t2 :
  SecureShredFile filepath_Dir filepath_Join env path count shred_progressCallback w
  = ((true, finalPath, None), w1, t1) ->
  shred filepath_Dir filepath_Join env path count w = (st, w2, t2) ->
  st = Returned /\
  ((In (Call (Remove finalPath) true) t2
    /\ fs w2 !! path = None /\ fs w2 !! finalPath = None) \/
   (In (Call (Remove finalPath) false) t2
    /\ fs w2 !! finalPath = Some [] /\ (finalPath <> path -> fs w2 !! path = None))).
Proof.
  intros H1 H2.
  destruct (shred_after_success _ _ _ _ _ _ H1)
    as (w2' & t_head & t_stat & ok & msg & E & Hok & Hfail).
  rewrite E in H2. injection H2 as <- <- <-. split; [reflexivity |].
  destruct (SecureShredFile_success _ _ _ _ _ _ _ H1) as (content & fs_mid & _ & _ & Hfs).
  assert (In (Call (Remove finalPath) ok)
            (t_head ++ t1 ++ t_stat ++ [Call (Remove finalPath) ok; Log msg])) as Hin.
  { apply in_or_app. right. apply in_or_app. right. apply in_or_app. right. left. reflexivity. }
  destruct ok.
  - left. split; [exact Hin |]. rewrite (Hok eq_refl), Hfs.
    split; [| apply lookup_delete_eq].
    destruct (decide (finalPath = path)) as [-> | Hne]; [apply lookup_delete_eq |].
    rewrite lookup_delete_ne, lookup_insert_ne by exact Hne. apply lookup_delete_eq.
  - right. split; [exact Hin |]. rewrite (Hfail eq_refl), Hfs.
    split; [apply lookup_insert_eq |]. intros Hne.
    rewrite lookup_insert_ne by exact Hne. apply lookup_delete_eq.
Qed.

(** ** The zero pass (claim C5) *)

Lemma length_windows_from L n j off : length (windows_from L n j off) = n.
Proof. revert j off. induction n as [| n IH]; intros j off; [reflexivity |]. cbn. now rewrite IH. Qed.

Lemma length_concat_replicate {A} n (l : list A) :
  length (concat (replicate n l)) = (n * length l)%nat.
Proof. induction n as [| n IH]; [reflexivity |]. cbn. rewrite length_app, IH. reflexivity. Qed.

Lemma rand_reads_of_overwrite_free cb p : rand_reads_of (report_events cb p) = [].
Proof.
  destruct cb as [f |]; [| reflexivity]. cbn [report_events].
  rewrite rand_reads_of_cons. exact (rand_reads_of_logs _).
Qed.

(** C5.  In every successful run the writes are those of the random passes
    followed by those of one zero pass: one write of zero bytes per window,
    at the window's offset and of the window's length.  There are
    [passes * numChunks] random writes, so none when [passes = 0], in which
    case the only read of the random source is the 32 bytes of the new name.
    Truncation and rename have succeeded, and [shred] goes on to try the
    removal of the renamed file. *)
Theorem zero_pass_runs_unconditionally filePath passes cb w content finalPath w' t :
  fs w !! filePath = Some content ->
  SecureShredFile filepath_Dir filepath_Join env filePath passes cb w
  = ((true, finalPath, None), w', t) ->
  let L := Z.of_nat (length content) in
  exists random_writes zero_writes,
    writes_of t = random_writes ++ zero_writes /\
    length random_writes = (Z.to_nat passes * Z.to_nat (numChunks L))%nat /\
    map window_of zero_writes = windows L /\
    length zero_writes = Z.to_nat (numChunks L) /\
    Forall (fun wr => wr.2 = replicate (length wr.2) x00) zero_writes /\
    (passes = 0 ->
     random_writes = [] /\
     exists randomBytes, rand_reads_of t = [randomBytes] /\ length randomBytes = 32%nat) /\
    In (Call (Truncate filePath 0) true) t /\
    In (Call (Rename filePath finalPath) true) t /\
    (cb = shred_progressCallback ->
     exists st w2 t2 ok,
       shred filepath_Dir filepath_Join env filePath passes w = (st, w2, t2) /\
       In (Call (Remove finalPath) ok) t2).
Proof.
  intros Hf H L.
  destruct (SecureShredFile_success _ _ _ _ _ _ _ H)
    as (content' & fs_mid & Hf' & Hrun & _).
  rewrite Hf in Hf'. injection Hf' as <-. fold L in Hrun.
  destruct Hrun as (t_rand & t_zero & d & Ht & Hnew & Hov1 & Hw1 & Hp1 & Hov2 & Hw2 & Hz2
                    & Hr2 & Hp2 & Hnone).
  exists (writes_of t_rand), (writes_of t_zero).
  split.
  { rewrite Ht. unfold finalizer_prefix. cbn [app].
    rewrite !writes_of_cons, !writes_of_app, !writes_of_cons, !writes_of_app,
      !writes_of_cons, writes_of_app, writes_of_report. cbn [app].
    now rewrite app_nil_r. }
  split.
  { rewrite <- (length_map window_of), Hw1, length_concat_replicate.
    unfold windows. now rewrite length_windows_from. }
  split; [exact Hw2 |].
  split.
  { rewrite <- (length_map window_of), Hw2. unfold windows. apply length_windows_from. }
  split; [exact Hz2 |].
  split.
  { intros ->. rewrite (Hnone eq_refl) in *. split; [reflexivity |].
    exists (map (entropy env) (seq d 32)). split; [| now rewrite length_map, length_seq].
    rewrite Ht. unfold finalizer_prefix. cbn [app].
    rewrite !rand_reads_of_cons, !rand_reads_of_app, Hr2, !rand_reads_of_cons,
      rand_reads_of_app, rand_reads_of_overwrite_free. reflexivity. }
  split.
  { rewrite Ht. do 2 (apply in_or_app; right). apply in_or_app. right.
    apply in_or_app. right. apply in_or_app. left. right. left. reflexivity. }
  split.
  { rewrite Ht. do 2 (apply in_or_app; right). apply in_or_app. right.
    apply in_or_app. right. apply in_or_app. right. apply in_or_app. left. left. reflexivity. }
  intros ->.
  destruct (shred_after_success _ _ _ _ _ _ H)
    as (w2 & t_head & t_stat & ok & msg & E & _).
  eexists _, _, _, ok. split; [exact E |].
  apply in_or_app. right. apply in_or_app. right. apply in_or_app. right. left. reflexivity.
Qed.


(** ** The reported percentages (claim C4) *)

(** C4.  In a successful run with a progress callback, for a pass count
    that is not negative and a file size and a step total that fit in an
    [int64], the percentages handed to the callback never decrease, each of
    them lies between 0 and 100, and the last one is 100. *)
Theorem progress_is_monotone filePath passes body w content finalPath w' t :
  fs w !! filePath = Some content ->
  SecureShredFile filepath_Dir filepath_Join env filePath passes (Some body) w
  = ((true, finalPath, None), w', t) ->
  let L := Z.of_nat (length content) in
  0 <= passes -> L < 2 ^ 63 -> (passes + 1) * numChunks L < 2 ^ 63 ->
  nondecreasing (progress_of t) /\
  Forall (fun p => 0 <= p <= 100) (progress_of t) /\
  last (progress_of t) = Some 100.
Proof.
  intros Hf Hrun L Hp HL Hb.
  destruct (SecureShredFile_success _ _ _ _ _ _ _ Hrun) as (content' & fs_mid & Hf' & Hsr & _).
  rewrite Hf in Hf'. injection Hf' as <-. fold L in Hsr.
  destruct Hsr as (t_rand & t_zero & d & -> & _ & _ & _ & Hp1 & _ & _ & _ & _ & Hp2 & _).
  destruct (totalSteps_exact passes L Hp ltac:(lia) Hb) as [HT HT1].
  destruct (numChunks_positive L ltac:(lia)) as [Hn _].
  set (T := totalSteps passes L) in *. set (n := Z.to_nat (numChunks L)) in *.
  assert (progress_of
            ([Call (Stat filePath) true; Call (OpenFile filePath) true]
               ++ t_rand ++ [Call (Seek 0) true] ++ t_zero
               ++ finalizer_prefix filePath (map (entropy env) (seq d 32)) (clock env)
               ++ [Call (Rename filePath finalPath) true;
                   Log ("Redacted: " ++ filePath ++ " -> Renamed to: " ++ finalPath)]
               ++ report_events (Some body) 100
               ++ [Call Close false;
                   Log ("Error closing file " ++ filePath ++ ": "
                        ++ Error (PathError "close" filePath ErrClosed))])
          = reports (Some body) T 0 (Z.to_nat passes * n + n) ++ [100]) as ->.
  { rewrite reports_app, Z.add_0_l, <- Hp1, <- Hp2.
    rewrite !progress_of_app, progress_of_report. cbn [progress_of omap finalizer_prefix].
    rewrite <- !app_assoc. reflexivity. }
  apply reports_shape; [lia |].
  subst n. rewrite Nat2Z.inj_add, Nat2Z.inj_mul, !Z2Nat.id by lia. lia.
Qed.

(** ** The number of reports *)

(** In a successful run with a progress callback there is one report per
    chunk of every random pass and of the zero pass, and then the final
    report of 100. *)
Theorem progress_count filePath passes body w content finalPath w' t :
  fs w !! filePath = Some content ->
  SecureShredFile filepath_Dir filepath_Join env filePath passes (Some body) w
  = ((true, finalPath, None), w', t) ->
  let n := Z.to_nat (numChunks (Z.of_nat (length content))) in
  exists before,
    progress_of t = before ++ [100] /\
    length before = (Z.to_nat passes * n + n)%nat.
Proof.
  intros Hf Hrun n.
  destruct (SecureShredFile_success _ _ _ _ _ _ _ Hrun) as (content' & fs_mid & Hf' & Hsr & _).
  rewrite Hf in Hf'. injection Hf' as <-. fold n in Hsr.
  destruct Hsr as (t_rand & t_zero & d & -> & _ & _ & _ & Hp1 & _ & _ & _ & _ & Hp2 & _).
  exists (progress_of t_rand ++ progress_of t_zero). split.
  - rewrite !progress_of_app, progress_of_report. cbn [progress_of omap finalizer_prefix].
    rewrite <- !app_assoc. reflexivity.
  - rewrite length_app, Hp1, Hp2. unfold reports. rewrite !length_map, !length_seq. reflexivity.
Qed.

(** ** The footprint of the overwrite passes *)

Lemma confined_refl filePath w : confined filePath w w.
Proof. split; auto. Qed.

Lemma confined_trans filePath w1 w2 w3 :
  confined filePath w1 w2 -> confined filePath w2 w3 -> confined filePath w1 w3.
Proof.
  intros [H1 K1] [H2 K2]. split.
  - intros p Hp. rewrite H2, H1 by exact Hp. reflexivity.
  - auto.
Qed.

Lemma confined_same_fs filePath w w' : fs w' = fs w -> confined filePath w w'.
Proof. intros E. unfold confined. rewrite E. auto. Qed.

Lemma confined_insert filePath w w' c :
  fs w' = <[filePath := c]> (fs w) -> confined filePath w w'.
Proof.
  intros E. unfold confined. rewrite E. split.
  - intros p Hp. apply lookup_insert_ne. congruence.
  - intros _. rewrite lookup_insert_eq. eauto.
Qed.

Lemma tidy_ret {A} filePath (a : A) : tidy filePath (ret a).
Proof.
  intros w s w' t Hh [= <- <- <-]. split; [exact Hh |].
  split; [apply confined_refl | discriminate].
Qed.

Lemma tidy_emit filePath t0 : tidy filePath (@emit Result t0).
Proof.
  intros w s w' t Hh [= <- <- <-]. split; [exact Hh |].
  split; [apply confined_refl | discriminate].
Qed.

Lemma tidy_report filePath cb p : tidy filePath (@report Result cb p).
Proof. destruct cb; [apply tidy_emit | apply tidy_ret]. Qed.

Lemma tidy_return {A} filePath r : explained filePath r -> tidy filePath (@return_ Result A r).
Proof.
  intros Hr w s w' t Hh [= <- <- <-]. split; [exact Hh |].
  split; [apply confined_refl |]. intros r' [= <-]. exact Hr.
Qed.

Lemma tidy_bind {A B} filePath (m : M Result A) (k : A -> M Result B) :
  tidy filePath m -> (forall a, tidy filePath (k a)) -> tidy filePath (bind m k).
Proof.
  intros Hm Hk w s w' t Hh H.
  apply bind_inv in H as [(r & H & ->) | (a & w1 & t1 & t2 & H1 & H2 & ->)].
  - destruct (Hm _ _ _ _ Hh H) as (Hh1 & Hc1 & Hr).
    split; [exact Hh1 |]. split; [exact Hc1 |].
    intros r' [= <-]. exact (Hr r eq_refl).
  - destruct (Hm _ _ _ _ Hh H1) as (Hh1 & Hc1 & _).
    destruct (Hk a _ _ _ _ Hh1 H2) as (Hh2 & Hc2 & Hr).
    split; [exact Hh2 |]. split; [exact (confined_trans _ _ _ _ Hc1 Hc2) | exact Hr].
Qed.

Lemma tidy_for_range {S} filePath (body : Z -> S -> M Result S) :
  (forall j s, tidy filePath (body j s)) ->
  forall n j s, tidy filePath (for_range n j body s).
Proof.
  intros Hbody. induction n as [| n IH]; intros j s; [apply tidy_ret |].
  rewrite for_range_S. apply tidy_bind; [apply Hbody | intros s'; apply IH].
Qed.

(** The explained failures, as the program builds them. *)
Lemma explained_path filePath before after cause :
  explained filePath
    (false, EmptyString, Some (fmt_Errorf_w (before ++ filePath ++ after) cause)).
Proof. eexists. split; [reflexivity |]. right. eauto 10. Qed.

Ltac tidy_world :=
  match goal with
  | |- held _ _ /\ _ => split; [| split; [| discriminate]]
  end.

Lemma tidy_file_Seek filePath offset : tidy filePath (@file_Seek env Result offset).
Proof.
  intros w s w' t Hh H.
  destruct (@file_Seek_cases Result offset w) as [(e & E) | (name & off & Hn & E)];
    rewrite E in H; injection H as <- <- <-; tidy_world.
  - exact Hh.
  - apply confined_same_fs; reflexivity.
  - intros n o [= <- <-]. exact (Hh _ _ Hn).
  - apply confined_same_fs; reflexivity.
Qed.

Lemma tidy_rand_Read filePath n : tidy filePath (@rand_Read env Result n).
Proof.
  intros w s w' t Hh H.
  destruct (@rand_Read_cases Result n w) as [(e & E & _) | E];
    rewrite E in H; injection H as <- <- <-; tidy_world;
    first [exact Hh | apply confined_same_fs; reflexivity].
Qed.

Lemma tidy_file_Write filePath data : tidy filePath (@file_Write env Result data).
Proof.
  intros w s w' t Hh H.
  destruct (@file_Write_cases Result data w)
    as [(e & off & E) | (name & off & content & Hn & Hf & E)];
    rewrite E in H; injection H as <- <- <-; tidy_world.
  - exact Hh.
  - apply confined_same_fs; reflexivity.
  - intros n o [= <- <-]. exact (Hh _ _ Hn).
  - rewrite (Hh _ _ Hn). eapply confined_insert. reflexivity.
Qed.

Lemma tidy_file_Sync filePath : tidy filePath (@file_Sync env Result).
Proof.
  intros w s w' t Hh H.
  destruct (@file_Sync_cases Result w) as [(e & E) | E];
    rewrite E in H; injection H as <- <- <-; tidy_world;
    first [exact Hh | apply confined_same_fs; reflexivity].
Qed.

Lemma tidy_file_Close filePath name : tidy filePath (@file_Close env Result name).
Proof.
  intros w s w' t Hh H.
  destruct (@file_Close_cases Result name w) as [(e & E) | E];
    rewrite E in H; injection H as <- <- <-; tidy_world;
    first [discriminate | apply confined_same_fs; reflexivity].
Qed.

Lemma tidy_os_Truncate filePath size : tidy filePath (@os_Truncate env Result filePath size).
Proof.
  intros w s w' t Hh H.
  destruct (@os_Truncate_cases Result filePath size w) as [(e & E) | (content & Hf & E)];
    rewrite E in H; injection H as <- <- <-; tidy_world.
  - exact Hh.
  - apply confined_same_fs; reflexivity.
  - exact Hh.
  - eapply confined_insert. reflexivity.
Qed.
Lemma tidy_time_Now_Unix filePath : tidy filePath (@time_Now_Unix env Result).
Proof.
  intros w s w' t Hh [= <- <- <-]. split; [exact Hh |].
  split; [apply confined_refl | discriminate].
Qed.

Lemma tidy_random_chunk filePath L T cb j cs :
  tidy filePath (random_chunk env filePath L T cb j cs).
Proof.
  unfold random_chunk. apply tidy_bind; [apply tidy_rand_Read |].
  intros [err | data]; [apply tidy_return, explained_path |].
  apply tidy_bind; [apply tidy_file_Write |].
  intros [err |]; [apply tidy_return, explained_path |].
  apply tidy_bind; [apply tidy_file_Sync |].
  intros [err |]; [apply tidy_return, explained_path |].
  apply tidy_bind; [apply tidy_report | intros _; apply tidy_ret].
Qed.

Lemma tidy_zero_chunk filePath L T cb j cs :
  tidy filePath (zero_chunk env filePath L T cb j cs).
Proof.
  unfold zero_chunk. apply tidy_bind; [apply tidy_file_Write |].
  intros [err |]; [apply tidy_return, explained_path |].
  apply tidy_bind; [apply tidy_file_Sync |].
  intros [err |]; [apply tidy_return, explained_path |].
  apply tidy_bind; [apply tidy_report | intros _; apply tidy_ret].
Qed.

Lemma tidy_random_pass filePath L T cb i cs :
  tidy filePath (random_pass env filePath L T cb i cs).
Proof.
  unfold random_pass. apply tidy_bind; [apply tidy_file_Seek |].
  intros [err |]; [apply tidy_return, explained_path |].
  apply tidy_for_range. intros j s. apply tidy_random_chunk.
Qed.

(** ** The footprint of the whole run *)

Lemma delete_confined filePath w w1 :
  confined filePath w w1 -> delete filePath (fs w1) = delete filePath (fs w).
Proof.
  intros [Hc _]. apply map_eq. intros p.
  destruct (decide (p = filePath)) as [-> | Hne].
  - rewrite !lookup_delete_eq. reflexivity.
  - rewrite !lookup_delete_ne by congruence. apply Hc. exact Hne.
Qed.

Lemma settled_of_tidy {A} filePath (m : M Result A) : tidy filePath m -> settled filePath m.
Proof. intros Hm w s w' t Hh H. right. exact (Hm _ _ _ _ Hh H). Qed.

Lemma settled_bind {A B} filePath (m : M Result A) (k : A -> M Result B) :
  tidy filePath m -> (forall a, settled filePath (k a)) -> settled filePath (bind m k).
Proof.
  intros Hm Hk w s w' t Hh H.
  apply bind_inv in H as [(r & H & ->) | (a & w1 & t1 & t2 & H1 & H2 & ->)].
  - right. destruct (Hm _ _ _ _ Hh H) as (Hh1 & Hc1 & Hr).
    split; [exact Hh1 |]. split; [exact Hc1 |].
    intros r' [= <-]. exact (Hr r eq_refl).
  - destruct (Hm _ _ _ _ Hh H1) as (Hh1 & [Hc1 Hs1] & _).
    destruct (Hk a _ _ _ _ Hh1 H2) as [(newPath & c & -> & E) | (Hh2 & Hc2 & Hr)].
    + left. exists newPath, c. split; [reflexivity |]. rewrite E. f_equal.
      exact (delete_confined _ _ _ (conj Hc1 Hs1)).
    + right. split; [exact Hh2 |].
      split; [exact (confined_trans _ _ _ _ (conj Hc1 Hs1) Hc2) | exact Hr].
Qed.

Lemma settled_finalize filePath cb :
  settled filePath (finalize filepath_Dir filepath_Join env filePath cb).
Proof.
  unfold finalize. apply settled_bind; [apply tidy_file_Close |].
  intros [err |]; [apply settled_of_tidy, tidy_return, explained_path |].
  apply settled_bind; [apply tidy_os_Truncate |].
  intros [err |]; [apply settled_of_tidy, tidy_return, explained_path |].
  apply settled_bind; [apply tidy_rand_Read |].
  intros [err | randomBytes].
  { apply settled_of_tidy, tidy_return. eexists. split; [reflexivity |]. right. eauto 10. }
  apply settled_bind; [apply tidy_time_Now_Unix |]. intros now.
  intros w s w' t Hh H.
  apply bind_inv in H as [(r & H & ->) | (a & w1 & t1 & t2 & H1 & H2 & ->)].
  - exfalso. match type of H with @os_Rename _ ?R ?o ?n ?w0 = _ =>
      destruct (@os_Rename_cases R o n w0) as [(e & E) | (c & _ & E)] end;
      rewrite E in H; discriminate H.
  - match type of H1 with @os_Rename _ ?R ?o ?n ?w0 = _ =>
      destruct (@os_Rename_cases R o n w0) as [(e & E) | (c & Hc & E)] end;
      rewrite E in H1; injection H1 as <- <- <-.
    + right. injection H2 as <- <- <-. split; [exact Hh |].
      split; [apply confined_same_fs; reflexivity |].
      intros r [= <-].
      match goal with |- explained _ (_, _, Some (fmt_Errorf_w (?a ++ _ ++ ?b) _)) =>
        apply (explained_path filePath a b) end.
    + left. revert H2. cbv beta iota zeta delta [bind log_Printf emit return_].
      rewrite report_run. intros [= <- <- <-]. eauto.
Qed.
Lemma settled_overwrite filePath L passes cb :
  settled filePath (overwrite filepath_Dir filepath_Join env filePath L passes cb).
Proof.
  unfold overwrite. cbv zeta.
  apply settled_bind; [apply tidy_for_range; intros; apply tidy_random_pass |].
  intros cs. apply settled_bind; [apply tidy_file_Seek |].
  intros [err |]; [apply settled_of_tidy, tidy_return, explained_path |].
  apply settled_bind; [apply tidy_for_range; intros; apply tidy_zero_chunk |].
  intros _. apply settled_finalize.
Qed.

(** What a run does to the files: a successful run moves the file to the
    returned path; any other run returns an explained failure and leaves
    every other file alone and a file at [filePath]. *)
Lemma SecureShredFile_effect filePath passes cb w r w' t :
  SecureShredFile filepath_Dir filepath_Join env filePath passes cb w = (r, w', t) ->
  (exists newPath c,
      r = (true, newPath, None) /\ fs w' = <[newPath := c]> (delete filePath (fs w))) \/
  (confined filePath w w' /\ explained filePath r).
Proof.
  cbv beta zeta delta [SecureShredFile call SecureShredFile_body bind].
  match goal with |- context [@os_Stat _ ?R ?p ?w0] =>
    destruct (@os_Stat_cases R p w0) as [(e & -> & _) | (content & Hf & ->)] end.
  { destruct (os_IsNotExist e); intros [= <- <- <-]; right.
    - split; [apply confined_same_fs; reflexivity |].
      eexists. split; [reflexivity |]. left. reflexivity.
    - split; [apply confined_same_fs; reflexivity | apply explained_path]. }
  match goal with |- context [@os_OpenFile _ ?R ?p ?w0] =>
    destruct (@os_OpenFile_cases R p w0) as [(e & ->) | ->] end.
  { intros [= <- <- <-]. right.
    split; [apply confined_same_fs; reflexivity | apply explained_path]. }
  cbv beta zeta delta [defer].
  match goal with |- context [overwrite ?a ?b ?c ?d ?e ?f ?g ?w0] =>
    destruct (overwrite a b c d e f g w0) as [[s1 w1] t1] eqn:E end.
  destruct (deferred_close_run filePath w1) as (t2 & -> & _).
  destruct (overwrite_any filePath _ passes cb (Nat2Z.is_nonneg _) _ _ _ _ E)
    as (_ & _ & r0 & -> & _).
  intros [= <- <- <-].
  assert (held filePath
            (mkWorld (fs (tick w)) (Some (filePath, 0)) (S (ticks (tick w))) (drawn (tick w))))
    as Hh by (intros n o [= <- <-]; reflexivity).
  destruct (settled_overwrite filePath _ passes cb _ _ _ _ Hh E)
    as [(newPath & c & [= ->] & Hfs) | (_ & Hc & Hr)].
  - left. exists newPath, c. split; [reflexivity |]. exact Hfs.
  - right. split; [| exact (Hr r0 eq_refl)].
    destruct Hc as [Hc1 Hc2]. split; [exact Hc1 | exact Hc2].
Qed.

(** Every error the function returns is either "file does not exist: "
    followed by the path, or wraps the error of the call that failed: its
    text is a text of the program followed by the text of the cause, and the
    text of the program contains the path, except when the random source
    fails while the new name is generated. *)
Theorem failure_is_explained filePath passes cb w success finalPath e w' t :
  SecureShredFile filepath_Dir filepath_Join env filePath passes cb w
  = ((success, finalPath, Some e), w', t) ->
  e = errorString ("file does not exist: " ++ filePath) \/
  exists text cause,
    e = wrapError (text ++ Error cause) cause /\
    (text = "error generating random bytes for new file name: "%string \/
     exists before after, text = (before ++ filePath ++ after)%string).
Proof.
  intros H.
  destruct (SecureShredFile_effect _ _ _ _ _ _ _ H)
    as [(newPath & c & [=] & _) | (_ & e' & [= -> -> ->] & He)].
  exact He.
Qed.

(** The function never returns with the file open, and on success the
    deferred close comes after the close of line 119: it fails with "file
    already closed" and the failure is logged. *)
Theorem file_closed_on_every_path filePath passes cb w success finalPath err w' t :
  SecureShredFile filepath_Dir filepath_Join env filePath passes cb w
  = ((success, finalPath, err), w', t) ->
  (handle w = None -> handle w' = None) /\
  (success = true ->
   exists pre,
     t = pre ++ [Call Close false;
                 Log ("Error closing file " ++ filePath ++ ": close " ++ filePath
                      ++ ": file already closed")]).
Proof.
  intros H. split.
  - revert H. cbv beta zeta delta [SecureShredFile call SecureShredFile_body bind].
    match goal with |- context [@os_Stat _ ?R ?p ?w0] =>
      destruct (@os_Stat_cases R p w0) as [(e & -> & _) | (content & Hf & ->)] end.
    { destruct (os_IsNotExist e); intros [= _ _ _ <- _] Hn; exact Hn. }
    match goal with |- context [@os_OpenFile _ ?R ?p ?w0] =>
      destruct (@os_OpenFile_cases R p w0) as [(e & ->) | ->] end.
    { intros [= _ _ _ <- _] Hn. exact Hn. }
    cbv beta zeta delta [defer].
    match goal with |- context [overwrite ?a ?b ?c ?d ?e ?f ?g ?w0] =>
      destruct (overwrite a b c d e f g w0) as [[s1 w1] t1] eqn:E end.
    destruct (deferred_close_run filePath w1) as (t2 & -> & _).
    destruct s1 as [[[? ?] ?] | [[? ?] ?]]; intros [= _ _ _ <- _] _; reflexivity.
  - intros ->.
    destruct (SecureShredFile_any _ _ _ _ _ _ _ H) as (_ & _ & [(e & [=]) | (p & [= -> ->] & _)]).
    destruct (SecureShredFile_success _ _ _ _ _ _ _ H)
      as (content & fs_mid & _ & (t_rand & t_zero & d & -> & _) & _).
    eexists. rewrite !app_assoc. reflexivity.
Qed.

(** ** What the passes leave in the file *)

Lemma length_write_at c off d :
  length (write_at c off d) = Nat.max (length c) (off + length d).
Proof.
  unfold write_at. rewrite !length_app, length_take, length_replicate, length_drop. lia.
Qed.

(** A write that starts where the one before ended continues it. *)
Lemma write_at_app c off d1 d2 :
  write_at (write_at c off d1) (off + length d1) d2 = write_at c off (d1 ++ d2).
Proof.
  assert (length (take off c ++ replicate (off - length c) x00) = off) as HA
    by (rewrite length_app, length_take, length_replicate; lia).
  unfold write_at at 1. rewrite length_write_at.
  replace (off + length d1 - Nat.max (length c) (off + length d1))%nat with 0%nat by lia.
  cbn [replicate app]. unfold write_at.
  rewrite !(app_assoc (take off c)).
  set (A := take off c ++ replicate (off - length c) x00) in *.
  rewrite (app_assoc A d1).
  rewrite take_app_length' by (rewrite length_app; lia).
  rewrite drop_app_add' by (rewrite length_app; lia).
  rewrite drop_drop, length_app, <- !app_assoc.
  do 3 f_equal. f_equal. lia.
Qed.

Lemma write_at_0 c d : write_at c 0 d = d ++ drop (length d) c.
Proof. unfold write_at. rewrite take_0. reflexivity. Qed.

Lemma write_at_nil c off : (off <= length c)%nat -> write_at c off [] = c.
Proof.
  intros H. unfold write_at. replace (off - length c)%nat with 0%nat by lia.
  cbn [replicate app length]. rewrite Nat.add_0_r. apply take_drop.
Qed.

Lemma covered_nonneg L n : 0 <= L -> forall j off, 0 <= covered (windows_from L n j off).
Proof.
  intros HL. induction n as [| n IH]; intros j off; [cbn; lia |].
  cbn [windows_from covered foldr snd]. fold (covered (windows_from L n (j + 1) (off + bufferSize L j))).
  pose proof (bufferSize_bounds L j HL). pose proof (IH (j + 1) (off + bufferSize L j)). lia.
Qed.

Lemma covered_shift L n : forall j off off',
  covered (windows_from L n j off) = covered (windows_from L n j off').
Proof.
  induction n as [| n IH]; intros j off off'; [reflexivity |].
  cbn [windows_from covered foldr snd].
  fold (covered (windows_from L n (j + 1) (off + bufferSize L j))).
  fold (covered (windows_from L n (j + 1) (off' + bufferSize L j))).
  f_equal. apply IH.
Qed.

Section ChunkContents.

Variable zero : bool.
Variables L T : Z.
Variable cb : ProgressCallback.
Variable body : Z -> Z -> M Result Z.
Hypothesis Hbody : chunk_like zero L T cb body.
Hypothesis HL : 0 <= L.

(** The windows of a pass that ran to its end, as one write: the file holds
    the bytes written, laid out from the offset the pass started at. *)
Lemma chunks_content n : forall j cs w cs' w' t name off c,
  0 <= off <= Z.of_nat (length c) ->
  handle w = Some (name, off) -> fs w !! name = Some c ->
  for_range n j body cs w = (Next cs', w', t) ->
  exists datas,
    fs w' !! name = Some (write_at c (Z.to_nat off) datas) /\
    Z.of_nat (length datas) = covered (windows_from L n j off) /\
    datas = concat (map snd (writes_of t)) /\
    (zero = true -> datas = replicate (length datas) x00).
Proof.
  induction n as [| n IH]; intros j cs w cs' w' t name off c Hoff Hh Hf H.
  - injection H as <- <- <-. exists []. rewrite write_at_nil by lia.
    split; [exact Hf |]. split; [reflexivity |]. split; [reflexivity |]. reflexivity.
  - rewrite for_range_S in H.
    apply bind_inv in H as [(r & H & [=]) | (a & w1 & t1 & t2 & H1 & H2 & ->)].
    destruct (Hbody j cs w) as [(e & w0 & t0 & E & _)
      | (name' & off' & content & data & rr & k & d & Hh' & Hf' & Hlen & Hz & Hov & Hq & Hwr & E)];
      rewrite E in H1; [discriminate H1 |].
    injection H1 as <- <- <-.
    rewrite Hh in Hh'. injection Hh' as <- <-.
    rewrite Hf in Hf'. injection Hf' as <-.
    pose proof (bufferSize_bounds L j HL) as Hb.
    assert (0 <= off + bufferSize L j
            <= Z.of_nat (length (write_at c (Z.to_nat off) data))) as Hoff'
      by (rewrite length_write_at; lia).
    pose proof (fun Hx Hy => IH _ _ _ _ _ _ name (off + bufferSize L j)
                               (write_at c (Z.to_nat off) data) Hoff' Hx Hy H2) as IH2.
    destruct (IH2 eq_refl (lookup_insert_eq _ _ _)) as (datas & Hfs & Hlen' & Hcat & Hz').
    clear IH2.
    exists (data ++ datas).
    split.
    { rewrite Hfs. f_equal. rewrite <- write_at_app. f_equal. lia. }
    split.
    { rewrite length_app, Nat2Z.inj_add, Hlen, Hlen'.
      cbn [windows_from covered foldr snd]. reflexivity. }
    split.
    { rewrite !writes_of_app, Hwr, !writes_of_cons, writes_of_report. cbn [app map concat snd].
      rewrite Hcat. reflexivity. }
    intros Hzero. destruct (Hz Hzero) as [Hd _].
    rewrite length_app, replicate_add. f_equal; [exact Hd | exact (Hz' Hzero)].
Qed.

End ChunkContents.
Section PassContents.

Variable filePath : string.
Variables L T : Z.
Variable cb : ProgressCallback.
Hypothesis HL : 0 <= L.

(** One random pass that ran to its end has replaced the bytes its windows
    cover and left the rest of the file as it was. *)
Lemma random_pass_content i cs w cs' w' t name off c :
  handle w = Some (name, off) -> fs w !! name = Some c ->
  random_pass env filePath L T cb i cs w = (Next cs', w', t) ->
  exists datas,
    fs w' !! name = Some (datas ++ drop (length datas) c) /\
    Z.of_nat (length datas) = covered (windows L).
Proof.
  intros Hh Hf. cbv beta zeta delta [random_pass bind].
  match goal with |- context [@file_Seek _ ?R ?o ?w1] =>
    destruct (@file_Seek_cases R o w1) as [(e & ->) | (name' & off' & Hh' & ->)] end;
    [discriminate |].
  rewrite Hh in Hh'. injection Hh' as <- <-.
  match goal with |- context [for_range ?n ?j ?b ?c ?w1] =>
    destruct (for_range n j b c w1) as [[s2 w2] t2] eqn:E end.
  intros [= -> <- <-].
  pose proof (fun Hx Hy Hz =>
                chunks_content false L T cb _ (random_chunk_like filePath L T cb HL) HL
                  _ _ _ _ _ _ _ name 0 c Hx Hy Hz E) as HC.
  destruct (HC ltac:(lia) eq_refl Hf) as (datas & Hfs & Hlen & _). clear HC.
  exists datas. rewrite Hfs. change (Z.to_nat 0) with 0%nat. rewrite write_at_0.
  split; [reflexivity | exact Hlen].
Qed.

(** Random passes never touch the file beyond the bytes their windows
    cover. *)
Lemma random_passes_content n : forall i cs w cs' w' t name off c,
  Int64.wrap64 cs = cs ->
  handle w = Some (name, off) -> fs w !! name = Some c ->
  for_range n i (random_pass env filePath L T cb) cs w = (Next cs', w', t) ->
  exists c',
    fs w' !! name = Some c' /\
    drop (Z.to_nat (covered (windows L))) c' = drop (Z.to_nat (covered (windows L))) c.
Proof.
  induction n as [| n IH]; intros i cs w cs' w' t name off c Hcs Hh Hf H.
  - injection H as <- <- <-. eauto.
  - rewrite for_range_S in H.
    apply bind_inv in H as [(r & H & [=]) | (a & w1 & t1 & t2 & H1 & H2 & ->)].
    destruct (random_pass_complete filePath L T cb HL _ _ _ _ _ _ _ _ Hcs Hh H1)
      as (-> & Hh1 & _).
    destruct (random_pass_content _ _ _ _ _ _ _ _ _ Hh Hf H1) as (datas & Hf1 & Hlen).
    destruct (IH _ _ _ _ _ _ _ _ _ (wrap64_idem _) Hh1 Hf1 H2) as (c' & Hf2 & Hd).
    exists c'. split; [exact Hf2 |]. rewrite Hd.
    replace (Z.to_nat (covered (windows L))) with (length datas) by lia.
    rewrite drop_app_length. reflexivity.
Qed.

End PassContents.
(** Truncation is no call of the overwrite passes. *)
Lemma no_truncate_in_passes t name size ok :
  Forall overwrite_event t -> In (Call (Truncate name size) ok) t -> False.
Proof.
  intros Hov Hin. apply list_elem_of_In in Hin.
  rewrite Forall_forall in Hov. exact (Hov _ Hin).
Qed.

(** What the finalizer leaves at [filePath] when it fails at the truncation
    or after it. *)
Lemma finalize_content filePath cb w s w' t content ok :
  fs w !! filePath = Some content ->
  finalize filepath_Dir filepath_Join env filePath cb w = (s, w', t) ->
  In (Call (Truncate filePath 0) ok) t ->
  (exists newPath, s = Return (true, newPath, None)) \/
  fs w' !! filePath = Some (if ok then [] else content).
Proof.
  intros Hf. cbv beta zeta delta [finalize bind].
  match goal with |- context [@file_Close _ ?R ?p ?w1] =>
    destruct (@file_Close_cases R p w1) as [(e & ->) | ->] end.
  { intros [= <- <- <-] [[=] | []]. }
  match goal with |- context [@os_Truncate _ ?R ?p ?z ?w1] =>
    destruct (@os_Truncate_cases R p z w1) as [(e & ->) | (content' & Hf' & ->)] end.
  { intros [= <- <- <-] [[=] | [[= <-] | []]]. right. exact Hf. }
  cbn [fs] in Hf'. rewrite Hf in Hf'. injection Hf' as <-.
  match goal with |- context [@rand_Read _ ?R ?n ?w1] =>
    destruct (@rand_Read_cases R n w1) as [(e & -> & _) | ->] end.
  { intros [= <- <- <-] [[=] | [[= <-] | [[=] | []]]]. right. cbn [fs].
    apply lookup_insert_eq. }
  cbv beta iota zeta delta [time_Now_Unix].
  match goal with |- context [@os_Rename _ ?R ?a ?b ?w1] =>
    destruct (@os_Rename_cases R a b w1) as [(e & ->) | (content' & Hf' & ->)] end.
  { intros [= <- <- <-] [[=] | [[= <-] | [[=] | [[=] | [[=] | []]]]]]. right. cbn [fs].
    apply lookup_insert_eq. }
  cbv beta iota zeta delta [log_Printf emit return_]. rewrite report_run.
  intros [= <- <- <-] _. left. eauto.
Qed.

Section OverwriteContents.

Variable filePath : string.
Variables L passes : Z.
Variable cb : ProgressCallback.
Hypothesis HL : 0 <= L.

(** When the engine gets as far as the truncation, the zero pass has
    replaced the bytes its windows cover. *)
Lemma overwrite_truncation w s w' t off content ok :
  handle w = Some (filePath, off) -> fs w !! filePath = Some content ->
  overwrite filepath_Dir filepath_Join env filePath L passes cb w = (s, w', t) ->
  In (Call (Truncate filePath 0) ok) t ->
  (exists newPath, s = Return (true, newPath, None)) \/
  fs w' !! filePath
  = Some (if ok then []
          else replicate (Z.to_nat (covered (windows L))) x00
                 ++ drop (Z.to_nat (covered (windows L))) content).
Proof.
  intros Hh Hf. cbv beta zeta delta [overwrite]. intros H Hin.
  apply bind_inv in H as [(r & H & ->) | (cs & w1 & t1 & t2 & H1 & H2 & ->)].
  { destruct (random_passes_any filePath L _ cb HL _ _ _ _ _ _ _ H) as (Hov & _).
    destruct (no_truncate_in_passes _ _ _ _ Hov Hin). }
  pose proof (random_passes_any filePath L _ cb HL _ _ _ _ _ _ _ H1) as (Hov1 & _ & _).
  assert (Int64.wrap64 0 = 0) as H0
    by (apply wrap64_small; unfold Int64.min_signed, Int64.max_signed; lia).
  destruct (random_passes_complete filePath L _ cb HL _ _ _ _ _ _ _ filePath off H0 Hh H1)
    as (-> & (off1 & Hh1) & _).
  destruct (random_passes_content filePath L _ cb HL _ _ _ _ _ _ _ filePath off content
              H0 Hh Hf H1) as (c1 & Hf1 & Hd1).
  revert H2 Hin. cbv beta zeta delta [bind].
  match goal with |- context [@file_Seek _ ?R ?o ?w0] =>
    destruct (@file_Seek_cases R o w0) as [(e & ->) | (name' & off' & Hh' & ->)] end.
  { intros [= <- <- <-] Hin. exfalso.
    apply (no_truncate_in_passes (t1 ++ [Call (Seek 0) false]) filePath 0 ok); [| exact Hin].
    apply Forall_app. split; [exact Hov1 | repeat constructor]. }
  rewrite Hh1 in Hh'. injection Hh' as <- <-.
  match goal with |- context [for_range ?n ?j ?b ?c ?w0] =>
    destruct (for_range n j b c w0) as [[[cs2 | r2] w2] t2'] eqn:E end.
  2: { intros [= <- <- <-] Hin. exfalso.
       pose proof (chunks_any true L _ cb _ (zero_chunk_like filePath L _ cb HL)
                     _ _ _ _ _ _ _ E) as (Hov2 & _).
       apply (no_truncate_in_passes (t1 ++ [Call (Seek 0) true] ++ t2') filePath 0 ok);
         [| exact Hin].
       apply Forall_app. split; [exact Hov1 |].
       apply Forall_app. split; [repeat constructor | exact Hov2]. }
  pose proof (chunks_any true L _ cb _ (zero_chunk_like filePath L _ cb HL)
                _ _ _ _ _ _ _ E) as (Hov2 & _ & _).
  pose proof (fun Hx Hy Hz =>
                chunks_content true L _ cb _ (zero_chunk_like filePath L _ cb HL) HL
                  _ _ _ _ _ _ _ filePath 0 c1 Hx Hy Hz E) as HC.
  destruct (HC ltac:(lia) eq_refl Hf1) as (datas & Hf2 & Hlen & _ & Hz). clear HC.
  change (Z.to_nat 0) with 0%nat in Hf2. rewrite write_at_0, (Hz eq_refl) in Hf2.
  rewrite length_replicate in Hf2.
  replace (length datas) with (Z.to_nat (covered (windows L))) in Hf2
    by (unfold windows in *; lia).
  rewrite Hd1 in Hf2.
  destruct (finalize filepath_Dir filepath_Join env filePath cb w2) as [[s3 w3] t3] eqn:E3.
  intros [= <- <- <-] Hin.
  apply (finalize_content _ _ _ _ _ _ _ ok Hf2 E3).
  apply in_app_or in Hin as [Hin | Hin].
  { destruct (no_truncate_in_passes _ _ _ _ Hov1 Hin). }
  destruct Hin as [[=] | Hin].
  apply in_app_or in Hin as [Hin | Hin]; [| exact Hin].
  destruct (no_truncate_in_passes _ _ _ _ Hov2 Hin).
Qed.

End OverwriteContents.

(** The deferred close makes no other call than the close. *)
Lemma deferred_close_quiet filePath w s w' t name size ok :
  deferred_close env filePath w = (s, w', t) -> In (Call (Truncate name size) ok) t -> False.
Proof.
  cbv beta zeta delta [deferred_close bind].
  match goal with |- context [@file_Close _ ?R ?p ?w1] =>
    destruct (@file_Close_cases R p w1) as [(e & ->) | ->] end.
  - intros [= <- <- <-] [[=] | [[=] | []]].
  - intros [= <- <- <-] [[=] | []].
Qed.

(** The state of the file when a run fails at the truncation or after it. *)
Lemma SecureShredFile_truncation filePath passes cb w content success finalPath err w' t ok :
  fs w !! filePath = Some content ->
  SecureShredFile filepath_Dir filepath_Join env filePath passes cb w
  = ((success, finalPath, err), w', t) ->
  In (Call (Truncate filePath 0) ok) t ->
  success = false ->
  let covered := Z.to_nat (covered (windows (Z.of_nat (length content)))) in
  fs w' !! filePath
  = Some (if ok then [] else replicate covered x00 ++ drop covered content).
Proof.
  intros Hf. cbv beta zeta delta [SecureShredFile call SecureShredFile_body bind].
  match goal with |- context [@os_Stat _ ?R ?p ?w0] =>
    destruct (@os_Stat_cases R p w0) as [(e & -> & _) | (content' & Hf' & ->)] end.
  { destruct (os_IsNotExist e); intros [= <- <- <- <- <-] [[=] | []]. }
  rewrite Hf in Hf'. injection Hf' as <-.
  match goal with |- context [@os_OpenFile _ ?R ?p ?w0] =>
    destruct (@os_OpenFile_cases R p w0) as [(e & ->) | ->] end.
  { intros [= <- <- <- <- <-] [[=] | [[=] | []]]. }
  cbv beta zeta delta [defer].
  match goal with |- context [overwrite ?a ?b ?c ?d ?e ?f ?g ?w0] =>
    destruct (overwrite a b c d e f g w0) as [[s1 w1] t1] eqn:E end.
  destruct (deferred_close env filePath w1) as [[s2 w2] t2] eqn:E2.
  destruct (deferred_close_run filePath w1) as (t2' & E2' & _).
  rewrite E2' in E2. injection E2 as <- <- <-.
  destruct (overwrite_any filePath _ passes cb (Nat2Z.is_nonneg _) _ _ _ _ E)
    as (_ & _ & r0 & -> & _).
  intros [= -> <- <-] Hin ->.
  destruct Hin as [[=] | [[=] | Hin]].
  apply in_app_or in Hin as [Hin | Hin].
  2: { destruct (deferred_close_quiet _ _ _ _ _ _ _ _ E2' Hin). }
  pose proof (fun Hx Hy => overwrite_truncation filePath _ passes cb (Nat2Z.is_nonneg _)
                             _ _ _ _ 0 content ok Hx Hy E Hin) as HT.
  destruct (HT eq_refl Hf) as [(newPath & [=]) | Hc].
  exact Hc.
Qed.

(** ** Where the bytes written come from *)

Lemma sourced_quiet t : writes_of t = [] -> sourced env t.
Proof.
  intros H pre off data post ->. rewrite writes_of_app, writes_of_cons in H.
  apply app_eq_nil in H as [_ H]. discriminate H.
Qed.

Lemma sourced_app t1 t2 : sourced env t1 -> sourced env t2 -> sourced env (t1 ++ t2).
Proof.
  intros H1 H2 pre off data post E.
  apply app_eq_app in E as [l [[-> E] | [-> E]]].
  - destruct l as [| x l].
    + simpl in E. destruct (H2 [] off data post (eq_sym E)) as [Hz | (pre' & n & d & F & _)];
        [left; exact Hz |].
      destruct pre'; discriminate F.
    + injection E as <- ->. apply (H1 pre off data l). reflexivity.
  - destruct (H2 l off data post E) as [Hz | (pre' & n & d & -> & Hd)]; [left; exact Hz |].
    right. exists (t1 ++ pre'), n, d. rewrite app_assoc. auto.
Qed.

Lemma write_split_unique pre0 o d0 post0 pre off data post :
  writes_of pre0 = [] -> writes_of post0 = [] ->
  pre0 ++ Call (Write o d0) true :: post0 = pre ++ Call (Write off data) true :: post ->
  pre = pre0 /\ off = o /\ data = d0.
Proof.
  intros Hpre Hpost. revert pre Hpre.
  induction pre0 as [| x pre0 IH]; intros [| y pre] Hpre E.
  - injection E as -> -> _. auto.
  - injection E as <- E. rewrite E, writes_of_app, writes_of_cons in Hpost.
    apply app_eq_nil in Hpost as [_ Hpost]. discriminate Hpost.
  - injection E as -> _. discriminate Hpre.
  - injection E as -> E.
    assert (writes_of pre0 = []) as Hq.
    { rewrite writes_of_cons in Hpre. now apply app_eq_nil in Hpre as [_ Hpre]. }
    destruct (IH pre Hq E) as (-> & -> & ->). auto.
Qed.

(** A write of the bytes just read. *)
Lemma sourced_random n d off post :
  writes_of post = [] ->
  let data := map (entropy env) (seq d (Z.to_nat n)) in
  sourced env ([Call (RandRead n data) true] ++ Call (Write off data) true :: post).
Proof.
  intros Hpost data pre off' data' post' E.
  apply write_split_unique in E as (-> & -> & ->); [| reflexivity | exact Hpost].
  right. exists [], n, d. auto.
Qed.

(** A write of zeros. *)
Lemma sourced_zeros k off post :
  writes_of post = [] -> sourced env (Call (Write off (replicate k x00)) true :: post).
Proof.
  intros Hpost pre off' data' post' E.
  apply (write_split_unique []) in E as (-> & -> & ->); [| reflexivity | exact Hpost].
  left. rewrite length_replicate. reflexivity.
Qed.

Lemma for_range_sourced {S} (body : Z -> S -> M Result S) :
  (forall j s w s' w' t, body j s w = (s', w', t) -> sourced env t) ->
  forall n j s w s' w' t, for_range n j body s w = (s', w', t) -> sourced env t.
Proof.
  intros Hbody. induction n as [| n IH]; intros j s w s' w' t H.
  - injection H as <- <- <-. now apply sourced_quiet.
  - rewrite for_range_S in H.
    apply bind_inv in H as [(r & H & ->) | (a & w1 & t1 & t2 & H1 & H2 & ->)].
    + exact (Hbody _ _ _ _ _ _ H).
    + apply sourced_app; [exact (Hbody _ _ _ _ _ _ H1) | exact (IH _ _ _ _ _ _ H2)].
Qed.

Lemma random_chunk_sourced filePath L T cb j cs w s w' t :
  random_chunk env filePath L T cb j cs w = (s, w', t) -> sourced env t.
Proof.
  cbv beta zeta delta [random_chunk bind].
  match goal with |- context [@rand_Read _ ?R ?n ?w1] =>
    destruct (@rand_Read_cases R n w1) as [(e & -> & _) | ->] end.
  { intros [= <- <- <-]. now apply sourced_quiet. }
  match goal with |- context [@file_Write _ ?R ?d ?w1] =>
    destruct (@file_Write_cases R d w1)
      as [(e & off & ->) | (name & off & content & Hh & Hf & ->)] end.
  { intros [= <- <- <-]. now apply sourced_quiet. }
  match goal with |- context [@file_Sync _ ?R ?w1] =>
    destruct (@file_Sync_cases R w1) as [(e & ->) | ->] end.
  { intros [= <- <- <-]. apply sourced_random. reflexivity. }
  rewrite report_run. cbv beta iota zeta delta [ret]. intros [= <- <- <-].
  apply sourced_random. cbn [app]. rewrite app_nil_r, writes_of_cons.
  apply writes_of_report.
Qed.

Lemma zero_chunk_sourced filePath L T cb j cs w s w' t :
  0 <= L -> zero_chunk env filePath L T cb j cs w = (s, w', t) -> sourced env t.
Proof.
  intros HL. cbv beta zeta delta [zero_chunk bind].
  assert (take (Z.to_nat (bufferSize L j)) (replicate (Z.to_nat chunkSize) x00)
          = replicate (Z.to_nat (bufferSize L j)) x00) as ->.
  { rewrite take_replicate. f_equal. pose proof (bufferSize_bounds L j HL). lia. }
  match goal with |- context [@file_Write _ ?R ?d ?w1] =>
    destruct (@file_Write_cases R d w1)
      as [(e & off & ->) | (name & off & content & Hh & Hf & ->)] end.
  { intros [= <- <- <-]. now apply sourced_quiet. }
  match goal with |- context [@file_Sync _ ?R ?w1] =>
    destruct (@file_Sync_cases R w1) as [(e & ->) | ->] end.
  { intros [= <- <- <-]. apply sourced_zeros. reflexivity. }
  rewrite report_run. cbv beta iota zeta delta [ret]. intros [= <- <- <-].
  apply sourced_zeros. cbn [app]. rewrite app_nil_r, writes_of_cons.
  apply writes_of_report.
Qed.

Lemma random_pass_sourced filePath L T cb i cs w s w' t :
  random_pass env filePath L T cb i cs w = (s, w', t) -> sourced env t.
Proof.
  cbv beta zeta delta [random_pass bind].
  match goal with |- context [@file_Seek _ ?R ?o ?w1] =>
    destruct (@file_Seek_cases R o w1) as [(e & ->) | (name & off & _ & ->)] end.
  - intros [= <- <- <-]. now apply sourced_quiet.
  - match goal with |- context [for_range ?n ?j ?b ?c ?w1] =>
      destruct (for_range n j b c w1) as [[s2 w2] t2] eqn:E end.
    intros [= <- <- <-].
    apply (sourced_app [Call (Seek 0) true] t2); [now apply sourced_quiet |].
    revert E. apply for_range_sourced. intros j s0 w0 s0' w0' t0.
    apply random_chunk_sourced.
Qed.

(** The finalizer writes nothing through the handle. *)
Lemma finalize_no_writes filePath cb w s w' t :
  finalize filepath_Dir filepath_Join env filePath cb w = (s, w', t) -> writes_of t = [].
Proof.
  cbv beta zeta delta [finalize bind].
  match goal with |- context [@file_Close _ ?R ?p ?w1] =>
    destruct (@file_Close_cases R p w1) as [(e & ->) | ->] end.
  { intros [= <- <- <-]. reflexivity. }
  match goal with |- context [@os_Truncate _ ?R ?p ?z ?w1] =>
    destruct (@os_Truncate_cases R p z w1) as [(e & ->) | (content' & Hf' & ->)] end.
  { intros [= <- <- <-]. reflexivity. }
  match goal with |- context [@rand_Read _ ?R ?n ?w1] =>
    destruct (@rand_Read_cases R n w1) as [(e & -> & _) | ->] end.
  { intros [= <- <- <-]. reflexivity. }
  cbv beta iota zeta delta [time_Now_Unix].
  match goal with |- context [@os_Rename _ ?R ?a ?b ?w1] =>
    destruct (@os_Rename_cases R a b w1) as [(e & ->) | (content2 & Hf2 & ->)] end.
  { intros [= <- <- <-]. reflexivity. }
  cbv beta iota zeta delta [log_Printf emit return_]. rewrite report_run.
  intros [= <- <- <-]. cbn [app]. rewrite !writes_of_cons, app_nil_r. cbn [app].
  apply writes_of_report.
Qed.

Lemma overwrite_sourced filePath L passes cb w s w' t :
  0 <= L ->
  overwrite filepath_Dir filepath_Join env filePath L passes cb w = (s, w', t) ->
  sourced env t.
Proof.
  intros HL. cbv beta zeta delta [overwrite]. intros H.
  assert (forall n i cs w0 s0 w0' t0,
             for_range n i (random_pass env filePath L (totalSteps passes L) cb) cs w0
             = (s0, w0', t0) -> sourced env t0) as Hrand.
  { intros n i cs w0 s0 w0' t0. apply for_range_sourced.
    intros j c w1 s1 w1' t1. apply random_pass_sourced. }
  apply bind_inv in H as [(r & H & ->) | (cs & w1 & t1 & t2 & H1 & H2 & ->)].
  { exact (Hrand _ _ _ _ _ _ _ H). }
  apply sourced_app; [exact (Hrand _ _ _ _ _ _ _ H1) |].
  revert H2. cbv beta zeta delta [bind].
  match goal with |- context [@file_Seek _ ?R ?o ?w0] =>
    destruct (@file_Seek_cases R o w0) as [(e & ->) | (name & off & _ & ->)] end.
  { intros [= <- <- <-]. now apply sourced_quiet. }
  match goal with |- context [for_range ?n ?j ?b ?c ?w0] =>
    destruct (for_range n j b c w0) as [[[cs2 | r2] w2] t2'] eqn:E end.
  2: { intros [= <- <- <-].
       apply (sourced_app [Call (Seek 0) true] t2'); [now apply sourced_quiet |].
       revert E. apply for_range_sourced. intros j c w0 s0 w0' t0.
       now apply zero_chunk_sourced. }
  destruct (finalize filepath_Dir filepath_Join env filePath cb w2) as [[s3 w3] t3] eqn:E3.
  intros [= <- <- <-].
  apply (sourced_app [Call (Seek 0) true] (t2' ++ t3)); [now apply sourced_quiet |].
  apply sourced_app.
  - revert E. apply for_range_sourced. intros j c w0 s0 w0' t0. now apply zero_chunk_sourced.
  - apply sourced_quiet. exact (finalize_no_writes _ _ _ _ _ _ E3).
Qed.

Lemma deferred_close_no_writes filePath w s w' t :
  deferred_close env filePath w = (s, w', t) -> writes_of t = [].
Proof.
  cbv beta zeta delta [deferred_close bind].
  match goal with |- context [@file_Close _ ?R ?p ?w1] =>
    destruct (@file_Close_cases R p w1) as [(e & ->) | ->] end;
    intros [= <- <- <-]; reflexivity.
Qed.

Lemma SecureShredFile_sourced filePath passes cb w r w' t :
  SecureShredFile filepath_Dir filepath_Join env filePath passes cb w = (r, w', t) ->
  sourced env t.
Proof.
  cbv beta zeta delta [SecureShredFile call SecureShredFile_body bind].
  match goal with |- context [@os_Stat _ ?R ?p ?w0] =>
    destruct (@os_Stat_cases R p w0) as [(e & -> & _) | (content & Hf & ->)] end.
  { destruct (os_IsNotExist e); intros [= <- <- <-]; now apply sourced_quiet. }
  match goal with |- context [@os_OpenFile _ ?R ?p ?w0] =>
    destruct (@os_OpenFile_cases R p w0) as [(e & ->) | ->] end.
  { intros [= <- <- <-]. now apply sourced_quiet. }
  cbv beta zeta delta [defer].
  match goal with |- context [overwrite ?a ?b ?c ?d ?e ?f ?g ?w0] =>
    destruct (overwrite a b c d e f g w0) as [[s1 w1] t1] eqn:E end.
  destruct (deferred_close env filePath w1) as [[s2 w2] t2] eqn:E2.
  intros H.
  assert (t = [Call (Stat filePath) true; Call (OpenFile filePath) true] ++ t1 ++ t2) as ->
    by (destruct s1; injection H as <- <- <-; reflexivity).
  apply sourced_app; [now apply sourced_quiet |].
  apply sourced_app.
  - exact (overwrite_sourced _ _ _ _ _ _ _ _ (Nat2Z.is_nonneg _) E).
  - apply sourced_quiet. exact (deferred_close_no_writes _ _ _ _ _ E2).
Qed.

(** In every run, whatever its outcome, a write that succeeds carries either
    zero bytes only or exactly the bytes that the read of the random source
    just before it has delivered: no other data ever reaches the file. *)
Theorem writes_are_sourced filePath passes cb w r w' t :
  SecureShredFile filepath_Dir filepath_Join env filePath passes cb w = (r, w', t) ->
  forall pre off data post, t = pre ++ Call (Write off data) true :: post ->
    data = replicate (length data) x00 \/
    exists pre' n d,
      pre = pre' ++ [Call (RandRead n data) true] /\
      data = map (entropy env) (seq d (Z.to_nat n)).
Proof. intros H. exact (SecureShredFile_sourced _ _ _ _ _ _ _ H). Qed.

(** ** The exported wrapper: failures and footprint *)


(** When the engine fails, [shred] logs the error and ends the process with
    status 1 (line 171): it does not return to its caller, makes no further
    call, and the file is still at its path. *)
Theorem shred_exits_on_failure path count w success finalPath e w1 t1 :
  SecureShredFile filepath_Dir filepath_Join env path count shred_progressCallback w
  = ((success, finalPath, Some e), w1, t1) ->
  shred filepath_Dir filepath_Join env path count w
  = (Exited 1, w1,
     [Log (String (ascii_of_nat 10) "Starting file shredding...")] ++ t1
       ++ [Log ""; Log ("File shredding failed: " ++ Error e); Exit 1]) /\
  (is_Some (fs w !! path) -> is_Some (fs w1 !! path)) /\
  (forall p, p <> path -> fs w1 !! p = fs w !! p).
Proof.
  intros H. split.
  - cbv beta iota zeta delta [shred call shred_body bind log_Printf emit return_].
    rewrite H. cbv beta iota zeta. cbn [app]. rewrite <- ?app_assoc. reflexivity.
  - destruct (SecureShredFile_effect _ _ _ _ _ _ _ H)
      as [(newPath & c & [=] & _) | ([Hc1 Hc2] & _)].
    split; [exact Hc2 | exact Hc1].
Qed.

(** On a path where there is no file the function makes one call,
    [os.Stat], changes nothing and returns the error "file does not exist"
    with the path; no attempt is made to open anything. *)
Theorem missing_file_is_reported filePath passes cb w :
  fs w !! filePath = None -> fault env (ticks w) = None ->
  SecureShredFile filepath_Dir filepath_Join env filePath passes cb w
  = ((false, EmptyString, Some (errorString ("file does not exist: " ++ filePath))),
     tick w, [Call (Stat filePath) false]).
Proof.
  intros Hf Hq.
  cbv beta iota zeta delta [SecureShredFile call SecureShredFile_body bind os_Stat].
  rewrite Hq, Hf. reflexivity.
Qed.


(** ** The new name *)

Lemma string_forall_append p s1 s2 :
  string_forall p (s1 ++ s2) = string_forall p s1 && string_forall p s2.
Proof.
  induction s1 as [| c s1 IH]; [reflexivity |].
  change (p c && string_forall p (s1 ++ s2) = p c && string_forall p s1 && string_forall p s2).
  rewrite IH. apply andb_assoc.
Qed.

Lemma string_length_append s1 s2 :
  String.length (s1 ++ s2) = (String.length s1 + String.length s2)%nat.
Proof.
  induction s1 as [| c s1 IH]; [reflexivity |].
  change (S (String.length (s1 ++ s2)) = S (String.length s1 + String.length s2)).
  now rewrite IH.
Qed.

Lemma length_bytes_of_string s : length (bytes_of_string s) = String.length s.
Proof.
  unfold bytes_of_string, list_byte_of_string. rewrite length_map.
  induction s as [| c s IH]; [reflexivity |]. cbn. now rewrite IH.
Qed.

(** Every 6-bit value is rendered by a character of the alphabet. *)
Lemma url_safe_sextet v : url_safe (Base64.sextet v) = true.
Proof.
  unfold Base64.sextet.
  assert (forallb (fun k => url_safe match String.get k Base64.encodeURL with
                                     | Some c => c
                                     | None => "A"%char
                                     end) (seq 0 64) = true) as H
    by (vm_compute; reflexivity).
  rewrite forallb_forall in H. apply H. apply in_seq.
  change 63 with (Z.ones 6). rewrite Z.land_ones by lia.
  pose proof (Z.mod_pos_bound v (2 ^ 6) ltac:(lia)). lia.
Qed.

(** Lists taken three elements at a time. *)
Lemma by_three {A} (P : list A -> Prop) :
  P [] -> (forall a, P [a]) -> (forall a b, P [a; b]) ->
  (forall a b c rest, P rest -> P (a :: b :: c :: rest)) ->
  forall l, P l.
Proof.
  intros H0 H1 H2 H3 l.
  assert (forall n l, (length l < n)%nat -> P l) as H.
  { clear l. induction n as [| n IH]; intros l Hl; [lia |].
    destruct l as [| a [| b [| c rest]]]; auto.
    apply H3, IH. cbn [length] in Hl. lia. }
  apply (H (S (length l))). lia.
Qed.

Lemma EncodeToString_url_safe src :
  string_forall url_safe (Base64.EncodeToString src) = true.
Proof.
  induction src as [| a | a b | a b c rest IH] using by_three.
  - reflexivity.
  - cbn [Base64.EncodeToString string_forall]. rewrite !url_safe_sextet. reflexivity.
  - cbn [Base64.EncodeToString string_forall]. rewrite !url_safe_sextet. reflexivity.
  - cbn [Base64.EncodeToString string_forall]. rewrite !url_safe_sextet, IH. reflexivity.
Qed.

(** Without padding, [n] bytes give [ceil(4n/3)] characters. *)
Lemma length_EncodeToString src :
  String.length (Base64.EncodeToString src) = ((4 * length src + 2) / 3)%nat.
Proof.
  induction src as [| a | a b | a b c rest IH] using by_three; try reflexivity.
  cbn [Base64.EncodeToString String.length length]. rewrite IH.
  replace (4 * S (S (S (length rest))) + 2)%nat with (4 * length rest + 2 + 4 * 3)%nat by lia.
  rewrite Nat.div_add by lia. lia.
Qed.

Lemma obfuscated_name_shape unix randomBytes :
  string_forall url_safe (obfuscated_name unix randomBytes) = true /\
  String.length (obfuscated_name unix randomBytes)
  = ((4 * String.length (strconv_FormatInt unix) + 2) / 3 + 1
     + (4 * length randomBytes + 2) / 3)%nat.
Proof.
  unfold obfuscated_name. split.
  - rewrite !string_forall_append, !EncodeToString_url_safe. reflexivity.
  - rewrite !string_length_append, !length_EncodeToString, length_bytes_of_string.
    change (String.length "_") with 1%nat. lia.
Qed.

(** The name a run gives the file consists of letters, digits, [-] and [_]
    only, so it holds no path separator and no dot, and is not empty: the
    encoded clock, one [_] and the 43 characters that encode the 32 random
    bytes. *)
Theorem new_name_is_url_safe filePath passes cb w r w' t :
  SecureShredFile filepath_Dir filepath_Join env filePath passes cb w = (r, w', t) ->
  forall pre old new ok post, t = pre ++ Call (Rename old new) ok :: post ->
    exists name,
      new = filepath_Join (filepath_Dir filePath) name /\
      string_forall url_safe name = true /\
      String.length name
      = ((4 * String.length (strconv_FormatInt (clock env)) + 2) / 3 + 44)%nat.
Proof.
  intros H pre old new ok post E.
  destruct (SecureShredFile_any _ _ _ _ _ _ _ H) as (_ & Hrt & _).
  destruct (Hrt pre old new ok post E) as (_ & rb & pre' & d & _ & -> & ->).
  eexists. split; [reflexivity |].
  destruct (obfuscated_name_shape (clock env) (map (entropy env) (seq d 32))) as [Hs Hl].
  split; [exact Hs |]. rewrite Hl, length_map, length_seq.
  change ((4 * 32 + 2) / 3)%nat with 43%nat. lia.
Qed.

(** ** The last reports *)

Lemma progress_of_successful_run filePath passes body w content finalPath w' t :
  fs w !! filePath = Some content ->
  SecureShredFile filepath_Dir filepath_Join env filePath passes (Some body) w
  = ((true, finalPath, None), w', t) ->
  let L := Z.of_nat (length content) in
  progress_of t
  = reports (Some body) (totalSteps passes L) 0
      (Z.to_nat passes * Z.to_nat (numChunks L) + Z.to_nat (numChunks L)) ++ [100].
Proof.
  intros Hf Hrun L.
  destruct (SecureShredFile_success _ _ _ _ _ _ _ Hrun) as (content' & fs_mid & Hf' & Hsr & _).
  rewrite Hf in Hf'. injection Hf' as <-. fold L in Hsr.
  destruct Hsr as (t_rand & t_zero & d & -> & _ & _ & _ & Hp1 & _ & _ & _ & _ & Hp2 & _).
  rewrite reports_app, Z.add_0_l, <- Hp1, <- Hp2.
  rewrite !progress_of_app, progress_of_report. cbn [progress_of omap finalizer_prefix].
  rewrite <- !app_assoc. reflexivity.
Qed.

(** The report made after the last window of the zero pass is already 100,
    so that the callback receives 100 twice at the end of a successful run:
    once for the last window and once from line 151. *)
Theorem last_window_reports_100 filePath passes body w content finalPath w' t :
  fs w !! filePath = Some content ->
  SecureShredFile filepath_Dir filepath_Join env filePath passes (Some body) w
  = ((true, finalPath, None), w', t) ->
  let L := Z.of_nat (length content) in
  0 <= passes -> L < 2 ^ 63 -> (passes + 1) * numChunks L < 2 ^ 63 ->
  exists before, progress_of t = before ++ [100; 100].
Proof.
  intros Hf Hrun L Hp HL Hb.
  rewrite (progress_of_successful_run _ _ _ _ _ _ _ _ Hf Hrun). fold L.
  destruct (totalSteps_exact passes L Hp ltac:(lia) Hb) as [HT HT1].
  destruct (numChunks_positive L ltac:(lia)) as [Hn _].
  set (T := totalSteps passes L) in *.
  set (m := (Z.to_nat passes * Z.to_nat (numChunks L) + Z.to_nat (numChunks L))%nat).
  assert (Z.of_nat m = T) as Hm
    by (subst m; rewrite Nat2Z.inj_add, Nat2Z.inj_mul, !Z2Nat.id by lia; lia).
  destruct m as [| m']; [lia |].
  unfold reports. rewrite seq_S, map_app. cbn [map].
  replace (Int64.wrap64 (0 + Z.of_nat (1 + m'))) with T.
  2:{ rewrite Z.add_0_l. change (1 + m')%nat with (S m'). rewrite Hm.
      symmetry. apply wrap64_small. unfold Int64.min_signed, Int64.max_signed. lia. }
  rewrite percentage_last by lia.
  eexists. rewrite <- app_assoc. reflexivity.
Qed.

End EngineFacts.

(** * Runs on concrete inputs *)

(** A 10-byte file, one random pass, no callback: the run succeeds. *)
Lemma SecureShredFile_result_shape_witness :
  exists success finalPath err w' t,
    SecureShredFile Sample.Dir Sample.Join Sample.reliable "/tmp/secret.txt" 1 None
      (Sample.disk "/tmp/secret.txt" 10)
    = ((success, finalPath, err), w', t) /\
    success = true /\
    (err <> None -> success = false /\ finalPath = EmptyString) /\
    (err = None <-> success = true) /\
    (success = true ->
     renames_of t = [("/tmp/secret.txt"%string, finalPath, true)] /\
     exists randomBytes,
       In (Call (RandRead 32 randomBytes) true) t /\
       finalPath = Sample.Join (Sample.Dir "/tmp/secret.txt")
                     (obfuscated_name (clock Sample.reliable) randomBytes)).
Proof.
  assert ((SecureShredFile Sample.Dir Sample.Join Sample.reliable "/tmp/secret.txt" 1 None
             (Sample.disk "/tmp/secret.txt" 10)).1.1.1.1 = true) as Hs
    by (vm_compute; reflexivity).
  destruct (SecureShredFile Sample.Dir Sample.Join Sample.reliable "/tmp/secret.txt" 1 None
              (Sample.disk "/tmp/secret.txt" 10)) as [[[[success finalPath] err] w'] t] eqn:E.
  exists success, finalPath, err, w', t. split; [reflexivity |].
  split; [exact Hs |].
  exact (SecureShredFile_result_shape _ _ _ _ _ _ _ _ _ _ _ _ E).
Defined.

(** The same run, seen through claim C9: every report follows a flush. *)
Lemma progress_only_after_flush_witness :
  exists r w' t,
    SecureShredFile Sample.Dir Sample.Join Sample.reliable "/tmp/secret.txt" 1
      (Some (fun _ => [])) (Sample.disk "/tmp/secret.txt" 10) = (r, w', t) /\
    progress_of t = [50; 100; 100] /\
    forall pre p post, t = pre ++ Progress p :: post ->
      (exists pre' off data, pre = pre' ++ [Call (Write off data) true; Call Sync true]) \/
      ((exists pre' old new msg, pre = pre' ++ [Call (Rename old new) true; Log msg]) /\ p = 100).
Proof.
  assert (progress_of
            (SecureShredFile Sample.Dir Sample.Join Sample.reliable "/tmp/secret.txt" 1
               (Some (fun _ => [])) (Sample.disk "/tmp/secret.txt" 10)).2 = [50; 100; 100]) as Hp
    by (vm_compute; reflexivity).
  destruct (SecureShredFile Sample.Dir Sample.Join Sample.reliable "/tmp/secret.txt" 1
              (Some (fun _ => [])) (Sample.disk "/tmp/secret.txt" 10)) as [[r w'] t] eqn:E.
  exists r, w', t. split; [reflexivity |]. split; [exact Hp |].
  exact (progress_only_after_flush _ _ _ _ _ _ _ _ _ _ E).
Defined.

(** The same run, seen through claim C7: the rename and its target. *)
Lemma rename_target_is_obfuscated_witness :
  exists r w' t,
    SecureShredFile Sample.Dir Sample.Join Sample.reliable "/tmp/secret.txt" 1 None
      (Sample.disk "/tmp/secret.txt" 10) = (r, w', t) /\
    renames_of t
    = [("/tmp/secret.txt"%string,
        "/tmp/MTcwMDAwMDAwMA_CgsMDQ4PEBESExQVFhcYGRobHB0eHyAhIiMkJSYnKCk"%string, true)] /\
    forall pre old new ok post, t = pre ++ Call (Rename old new) ok :: post ->
      old = "/tmp/secret.txt"%string /\
      exists randomBytes pre' d,
        pre = pre' ++ [Call (RandRead 32 randomBytes) true; Now (clock Sample.reliable)] /\
        randomBytes = map (entropy Sample.reliable) (seq d 32) /\
        length randomBytes = 32%nat /\
        new = Sample.Join (Sample.Dir "/tmp/secret.txt")
                ((Base64.EncodeToString
                    (bytes_of_string (strconv_FormatInt (clock Sample.reliable)))
                    ++ "_" ++ Base64.EncodeToString randomBytes)%string).
Proof.
  assert (renames_of
            (SecureShredFile Sample.Dir Sample.Join Sample.reliable "/tmp/secret.txt" 1 None
               (Sample.disk "/tmp/secret.txt" 10)).2
          = [("/tmp/secret.txt"%string,
              "/tmp/MTcwMDAwMDAwMA_CgsMDQ4PEBESExQVFhcYGRobHB0eHyAhIiMkJSYnKCk"%string, true)])
    as Hp by (vm_compute; reflexivity).
  destruct (SecureShredFile Sample.Dir Sample.Join Sample.reliable "/tmp/secret.txt" 1 None
              (Sample.disk "/tmp/secret.txt" 10)) as [[r w'] t] eqn:E.
  exists r, w', t. split; [reflexivity |]. split; [exact Hp |].
  exact (rename_target_is_obfuscated _ _ _ _ _ _ _ _ _ _ E).
Defined.

(** ** Claim C1 on concrete inputs *)

(** With no call failing, [shred] on a 10-byte file with zero passes leaves
    nothing behind. *)
Lemma shred_final_state_witness :
  exists finalPath w1 t1 st w2 t2,
    SecureShredFile Sample.Dir Sample.Join Sample.reliable "/tmp/secret.txt" 0
      shred_progressCallback (Sample.disk "/tmp/secret.txt" 10)
    = ((true, finalPath, None), w1, t1) /\
    shred Sample.Dir Sample.Join Sample.reliable "/tmp/secret.txt" 0
      (Sample.disk "/tmp/secret.txt" 10) = (st, w2, t2) /\
    st = Returned /\
    ((In (Call (Remove finalPath) true) t2
      /\ fs w2 !! "/tmp/secret.txt" = None /\ fs w2 !! finalPath = None) \/
     (In (Call (Remove finalPath) false) t2
      /\ fs w2 !! finalPath = Some []
      /\ (finalPath <> "/tmp/secret.txt"%string -> fs w2 !! "/tmp/secret.txt" = None))).
Proof.
  assert ((SecureShredFile Sample.Dir Sample.Join Sample.reliable "/tmp/secret.txt" 0
             shred_progressCallback (Sample.disk "/tmp/secret.txt" 10)).1.1
          = (true, "/tmp/MTcwMDAwMDAwMA_AAECAwQFBgcICQoLDA0ODxAREhMUFRYXGBkaGxwdHh8"%string,
             None)) as Hr by (vm_compute; reflexivity).
  destruct (SecureShredFile Sample.Dir Sample.Join Sample.reliable "/tmp/secret.txt" 0
              shred_progressCallback (Sample.disk "/tmp/secret.txt" 10))
    as [[r w1] t1] eqn:E1.
  cbn [fst] in Hr. subst r.
  destruct (shred Sample.Dir Sample.Join Sample.reliable "/tmp/secret.txt" 0
              (Sample.disk "/tmp/secret.txt" 10)) as [[st w2] t2] eqn:E2.
  eexists _, w1, t1, st, w2, t2. split; [reflexivity |]. split; [reflexivity |].
  exact (shred_final_state _ _ _ _ _ _ _ _ _ _ _ _ E1 E2).
Defined.

(** C1 as stated fails: let the removal of the renamed file fail (it is the
    call number 11 of the run, counting from 0).  The engine has succeeded,
    [shred] returns, and the renamed file still exists. *)
Lemma shred_leaves_file_when_remove_fails :
  let env := Sample.failing 11 "permission denied" in
  let w := Sample.disk "/tmp/secret.txt" 10 in
  let finalPath := "/tmp/MTcwMDAwMDAwMA_AAECAwQFBgcICQoLDA0ODxAREhMUFRYXGBkaGxwdHh8"%string in
  (SecureShredFile Sample.Dir Sample.Join env "/tmp/secret.txt" 0 shred_progressCallback w).1.1
  = (true, finalPath, None) /\
  (shred Sample.Dir Sample.Join env "/tmp/secret.txt" 0 w).1.1 = Returned /\
  In (Call (Remove finalPath) false)
    (shred Sample.Dir Sample.Join env "/tmp/secret.txt" 0 w).2 /\
  fs (shred Sample.Dir Sample.Join env "/tmp/secret.txt" 0 w).1.2 !! finalPath = Some [] /\
  fs (shred Sample.Dir Sample.Join env "/tmp/secret.txt" 0 w).1.2 !! finalPath <> None.
Proof.
  cbv zeta. split; [vm_compute; reflexivity |]. split; [vm_compute; reflexivity |].
  split; [vm_compute; tauto |].
  assert (fs (shred Sample.Dir Sample.Join (Sample.failing 11 "permission denied")
                "/tmp/secret.txt" 0 (Sample.disk "/tmp/secret.txt" 10)).1.2
          !! "/tmp/MTcwMDAwMDAwMA_AAECAwQFBgcICQoLDA0ODxAREhMUFRYXGBkaGxwdHh8" = Some []) as H
    by (vm_compute; reflexivity).
  split; [exact H | rewrite H; discriminate].
Qed.

(** ** Claim C5 on concrete inputs *)

(** The scenario of the specification: zero passes on a 10-byte file.  No
    random write, one zero write of length 10 at offset 0, and the removal is
    tried. *)
Lemma zero_pass_runs_unconditionally_witness :
  exists finalPath w' t,
    fs (Sample.disk "/tmp/secret.txt" 10) !! "/tmp/secret.txt" = Some (replicate 10 x41) /\
    SecureShredFile Sample.Dir Sample.Join Sample.reliable "/tmp/secret.txt" 0
      shred_progressCallback (Sample.disk "/tmp/secret.txt" 10)
    = ((true, finalPath, None), w', t) /\
    writes_of t = [(0, replicate 10 x00)] /\
    exists random_writes zero_writes,
      writes_of t = random_writes ++ zero_writes /\
      random_writes = [] /\
      map window_of zero_writes = [(0, 10)] /\
      Forall zero_write zero_writes /\
      In (Call (Truncate "/tmp/secret.txt" 0) true) t /\
      In (Call (Rename "/tmp/secret.txt" finalPath) true) t /\
      exists st w2 t2 ok,
        shred Sample.Dir Sample.Join Sample.reliable "/tmp/secret.txt" 0
          (Sample.disk "/tmp/secret.txt" 10) = (st, w2, t2) /\
        In (Call (Remove finalPath) ok) t2.
Proof.
  assert ((SecureShredFile Sample.Dir Sample.Join Sample.reliable "/tmp/secret.txt" 0
             shred_progressCallback (Sample.disk "/tmp/secret.txt" 10)).1.1
          = (true, "/tmp/MTcwMDAwMDAwMA_AAECAwQFBgcICQoLDA0ODxAREhMUFRYXGBkaGxwdHh8"%string,
             None)) as Hr by (vm_compute; reflexivity).
  assert (writes_of
            (SecureShredFile Sample.Dir Sample.Join Sample.reliable "/tmp/secret.txt" 0
               shred_progressCallback (Sample.disk "/tmp/secret.txt" 10)).2
          = [(0, replicate 10 x00)]) as Hw by (vm_compute; reflexivity).
  assert (fs (Sample.disk "/tmp/secret.txt" 10) !! "/tmp/secret.txt" = Some (replicate 10 x41))
    as Hf by (vm_compute; reflexivity).
  destruct (SecureShredFile Sample.Dir Sample.Join Sample.reliable "/tmp/secret.txt" 0
              shred_progressCallback (Sample.disk "/tmp/secret.txt" 10))
    as [[r w'] t] eqn:E.
  cbn [fst snd] in Hr, Hw. subst r.
  eexists _, w', t. split; [exact Hf |]. split; [reflexivity |]. split; [exact Hw |].
  destruct (zero_pass_runs_unconditionally _ _ _ _ _ _ _ _ _ _ _ Hf E)
    as (random_writes & zero_writes & H1 & _ & H3 & _ & H5 & H6 & H7 & H8 & H9).
  exists random_writes, zero_writes.
  split; [exact H1 |]. split; [exact (proj1 (H6 eq_refl)) |].
  split; [rewrite H3; vm_compute; reflexivity |].
  split; [exact H5 |]. split; [exact H7 |]. split; [exact H8 |]. exact (H9 eq_refl).
Defined.

(** ** Claim C4 on a concrete input *)

(** Three random passes and the zero pass over a file of 10 bytes: four
    steps, reported as 25, 50, 75 and 100, and the final 100. *)
Lemma progress_is_monotone_witness :
  exists finalPath w' t,
    fs (Sample.disk "/tmp/secret.txt" 10) !! "/tmp/secret.txt" = Some (replicate 10 x41) /\
    SecureShredFile Sample.Dir Sample.Join Sample.reliable "/tmp/secret.txt" 3
      (Some (fun _ => [])) (Sample.disk "/tmp/secret.txt" 10)
    = ((true, finalPath, None), w', t) /\
    progress_of t = [25; 50; 75; 100; 100] /\
    nondecreasing (progress_of t) /\
    Forall (fun p => 0 <= p <= 100) (progress_of t) /\
    last (progress_of t) = Some 100.
Proof.
  assert (((SecureShredFile Sample.Dir Sample.Join Sample.reliable "/tmp/secret.txt" 3
              (Some (fun _ => [])) (Sample.disk "/tmp/secret.txt" 10)).1.1).1.1 = true
          /\ ((SecureShredFile Sample.Dir Sample.Join Sample.reliable "/tmp/secret.txt" 3
              (Some (fun _ => [])) (Sample.disk "/tmp/secret.txt" 10)).1.1).2 = None) as Hr
    by (vm_compute; split; reflexivity).
  assert (progress_of
            (SecureShredFile Sample.Dir Sample.Join Sample.reliable "/tmp/secret.txt" 3
               (Some (fun _ => [])) (Sample.disk "/tmp/secret.txt" 10)).2
          = [25; 50; 75; 100; 100]) as Hp by (vm_compute; reflexivity).
  assert (fs (Sample.disk "/tmp/secret.txt" 10) !! "/tmp/secret.txt" = Some (replicate 10 x41))
    as Hf by (vm_compute; reflexivity).
  destruct (SecureShredFile Sample.Dir Sample.Join Sample.reliable "/tmp/secret.txt" 3
              (Some (fun _ => [])) (Sample.disk "/tmp/secret.txt" 10))
    as [[[[ok finalPath] err] w'] t] eqn:E.
  cbn [fst snd] in Hr, Hp. destruct Hr as [-> ->].
  exists finalPath, w', t. split; [exact Hf |]. split; [reflexivity |]. split; [exact Hp |].
  apply (progress_is_monotone Sample.Dir Sample.Join Sample.reliable
           "/tmp/secret.txt" 3 (fun _ => []) _ (replicate 10 x41) finalPath w' t Hf E).
  - lia.
  - vm_compute. reflexivity.
  - vm_compute. reflexivity.
Defined.

(** ** Claim C2 on a concrete input: the planner *)

(** C2 fails for a file of 2^53 + 1 bytes.  The conversion to [float64]
    rounds the length to 2^53, the quotient by 65536 is then the integer
    2^37, and [math.Ceil] has nothing left to round up: the planner counts
    2^37 windows where the ceiling of the exact quotient is 2^37 + 1. *)
Theorem numChunks_loses_a_window :
  numChunks (2 ^ 53 + 1) = 2 ^ 37 /\
  Z.max 1 ((2 ^ 53 + 1 + chunkSize - 1) / chunkSize) = 2 ^ 37 + 1 /\
  Float64.of_int (2 ^ 53 + 1) = Float64.of_int (2 ^ 53) /\
  bufferSize (2 ^ 53 + 1) (2 ^ 37 - 1) = 1.
Proof. vm_compute. repeat split; reflexivity. Qed.

(** ** Claim C3 on a concrete input: the percentage *)

(** C3 fails for 49 random passes over a 10-byte file: there are 50 steps,
    and the 29th report is 57 although 29 * 100 / 50 = 58: the quotient
    29/50 is not a binary fraction, and its nearest [float64] times 100
    rounds to a value just below 58. *)
Theorem progress_29_of_50_reports_57 :
  let run := SecureShredFile Sample.Dir Sample.Join Sample.reliable "/tmp/secret.txt" 49
               (Some (fun _ => [])) (Sample.disk "/tmp/secret.txt" 10) in
  run.1.1.1.1 = true /\
  totalSteps 49 10 = 50 /\
  length (progress_of run.2) = 51%nat /\
  progress_of run.2 !! 28%nat = Some 57 /\
  percentage 29 50 = 57 /\
  29 * 100 / 50 = 58.
Proof. vm_compute. repeat split; reflexivity. Qed.

(** ** Claim C6 on a concrete input: the error of the naming phase *)

(** C6 fails when the random source fails while the new name is generated
    (call number 7 of a run with zero passes): the error returned names the
    phase and not the path.  The error of the same failure in a random pass
    (call number 3 of a run with one pass) does name the path. *)
Theorem naming_failure_omits_path :
  let w := Sample.disk "/tmp/secret.txt" 10 in
  let naming := SecureShredFile Sample.Dir Sample.Join
                  (Sample.failing 7 "entropy source unavailable") "/tmp/secret.txt" 0 None w in
  let pass := SecureShredFile Sample.Dir Sample.Join
                (Sample.failing 3 "entropy source unavailable") "/tmp/secret.txt" 1 None w in
  naming.1.1
  = (false, EmptyString,
     Some (wrapError
             "error generating random bytes for new file name: entropy source unavailable"
             (errorString "entropy source unavailable"))) /\
  mentions (match naming.1.1.2 with Some e => Error e | None => EmptyString end)
    "/tmp/secret.txt" = false /\
  pass.1.1
  = (false, EmptyString,
     Some (wrapError
             "error generating random data for /tmp/secret.txt: entropy source unavailable"
             (errorString "entropy source unavailable"))) /\
  mentions (match pass.1.1.2 with Some e => Error e | None => EmptyString end)
    "/tmp/secret.txt" = true.
Proof. vm_compute. repeat split; reflexivity. Qed.

(** ** Claim C8 on a concrete input: the bytes a pass covers *)

(** All windows but the last have the full chunk size. *)
Lemma covered_windows_from L n : forall j off,
  numChunks L = j + Z.of_nat (S n) ->
  covered (windows_from L (S n) j off)
  = Z.of_nat n * chunkSize + bufferSize L (numChunks L - 1).
Proof.
  induction n as [| n IH]; intros j off HN.
  - cbn [windows_from covered foldr snd]. replace (numChunks L - 1) with j by lia. lia.
  - change (windows_from L (S (S n)) j off)
      with ((off, bufferSize L j) :: windows_from L (S n) (j + 1) (off + bufferSize L j)).
    change (covered ((off, bufferSize L j) :: ?l)) with (bufferSize L j + covered l).
    unfold covered at 1. cbn [foldr snd]. fold (covered (windows_from L (S n) (j + 1) (off + bufferSize L j))).
    rewrite IH by lia.
    assert (bufferSize L j = chunkSize) as ->.
    { rewrite bufferSize_eq. replace (j =? numChunks L - 1) with false; [reflexivity |].
      symmetry. apply Z.eqb_neq. lia. }
    lia.
Qed.

(** The bytes one pass covers, in closed form. *)
Lemma covered_windows L :
  1 <= numChunks L ->
  covered (windows L) = (numChunks L - 1) * chunkSize + bufferSize L (numChunks L - 1).
Proof.
  intros HN. unfold windows.
  replace (Z.to_nat (numChunks L)) with (S (Z.to_nat (numChunks L - 1))) by lia.
  rewrite covered_windows_from by lia. rewrite Z2Nat.id by lia. reflexivity.
Qed.

(** C8 fails for a file of 2^53 + 1 bytes (the defect of claim C2): the
    windows of one pass cover 2^53 - 65535 bytes, so the last 65536 bytes of
    the file are never overwritten. *)
Theorem pass_misses_tail_of_huge_file :
  covered (windows (2 ^ 53 + 1)) = 2 ^ 53 - 65535 /\
  covered (windows (2 ^ 53 + 1)) < 2 ^ 53 + 1.
Proof.
  assert (numChunks (2 ^ 53 + 1) = 2 ^ 37) as HN by (vm_compute; reflexivity).
  assert (bufferSize (2 ^ 53 + 1) (2 ^ 37 - 1) = 1) as HB by (vm_compute; reflexivity).
  rewrite covered_windows by (rewrite HN; lia).
  rewrite HN, HB. unfold chunkSize. lia.
Qed.

(** For a file of 1 to [2^53] bytes the windows of one pass cover exactly
    the file. *)
Lemma windows_cover_file L : 1 <= L <= 2 ^ 53 -> covered (windows L) = L.
Proof.
  intros HL. pose proof (numChunks_exact L ltac:(lia)) as HN.
  assert (1 <= (L + chunkSize - 1) / chunkSize) as Hq
    by (unfold chunkSize; apply Z.div_le_lower_bound; lia).
  rewrite Z.max_r in HN by lia.
  rewrite covered_windows by lia. rewrite bufferSize_eq, Z.eqb_refl. cbn [andb].
  rewrite Z.rem_mod_nonneg by (unfold chunkSize; lia).
  pose proof (Z.div_mod L chunkSize ltac:(unfold chunkSize; lia)) as Hdm.
  pose proof (Z.mod_pos_bound L chunkSize ltac:(unfold chunkSize; lia)) as Hm.
  destruct (Z.eqb_spec (L mod chunkSize) 0) as [H0 | H0]; cbn [negb].
  - assert ((L + chunkSize - 1) / chunkSize = L / chunkSize) as Hc.
    { symmetry. apply Z.div_unique with (chunkSize - 1); lia. }
    rewrite HN, Hc. lia.
  - assert ((L + chunkSize - 1) / chunkSize = L / chunkSize + 1) as Hc.
    { symmetry. apply Z.div_unique with (L mod chunkSize - 1); lia. }
    rewrite HN, Hc. lia.
Qed.

(** ** The planner on files of at most 2^53 bytes *)

(** For a file of at most [2^53] bytes the planner counts
    [max(1, ceil(L / C))] windows; window [j] has [C] bytes, except the last
    one when [C] does not divide [L], which has [L mod C] bytes; no window
    is empty. *)
Theorem planner_exact L :
  0 <= L <= 2 ^ 53 ->
  numChunks L = Z.max 1 ((L + chunkSize - 1) / chunkSize) /\
  forall j,
    bufferSize L j
    = (if (j =? numChunks L - 1) && negb (L mod chunkSize =? 0)
       then L mod chunkSize else chunkSize) /\
    0 < bufferSize L j <= chunkSize.
Proof.
  intros HL. split; [apply numChunks_exact; exact HL |].
  intros j. split; [| apply bufferSize_bounds; lia].
  rewrite bufferSize_eq, Z.rem_mod_nonneg by (unfold chunkSize; lia). reflexivity.
Qed.

(** A file of 150000 bytes: three windows of 65536, 65536 and 18928 bytes. *)
Lemma planner_exact_witness :
  0 <= 150000 <= 2 ^ 53 /\
  numChunks 150000 = 3 /\
  map (bufferSize 150000) [0; 1; 2] = [65536; 65536; 18928] /\
  numChunks 150000 = Z.max 1 ((150000 + chunkSize - 1) / chunkSize) /\
  forall j,
    bufferSize 150000 j
    = (if (j =? numChunks 150000 - 1) && negb (150000 mod chunkSize =? 0)
       then 150000 mod chunkSize else chunkSize) /\
    0 < bufferSize 150000 j <= chunkSize.
Proof.
  split; [vm_compute; split; discriminate |].
  split; [vm_compute; reflexivity |].
  split; [vm_compute; reflexivity |].
  apply (planner_exact 150000). vm_compute. split; discriminate.
Defined.

(** For a file of 1 to [2^53] bytes the windows of one pass start at offset
    0, follow one another and cover exactly the file. *)
Theorem pass_covers_file L :
  1 <= L <= 2 ^ 53 ->
  covered (windows L) = L /\
  windows L = windows_from L (Z.to_nat (Z.max 1 ((L + chunkSize - 1) / chunkSize))) 0 0.
Proof.
  intros HL. split; [apply windows_cover_file; exact HL |].
  unfold windows. rewrite numChunks_exact by lia. reflexivity.
Qed.

Lemma pass_covers_file_witness :
  1 <= 150000 <= 2 ^ 53 /\
  windows 150000 = [(0, 65536); (65536, 65536); (131072, 18928)] /\
  covered (windows 150000) = 150000 /\
  windows 150000
  = windows_from 150000 (Z.to_nat (Z.max 1 ((150000 + chunkSize - 1) / chunkSize))) 0 0.
Proof.
  split; [vm_compute; split; discriminate |].
  split; [vm_compute; reflexivity |].
  apply (pass_covers_file 150000). vm_compute. split; discriminate.
Defined.

(** One random pass and the zero pass over a file of 10 bytes: two reports
    and the final one. *)
Lemma progress_count_witness :
  exists finalPath w' t before,
    fs (Sample.disk "/tmp/secret.txt" 10) !! "/tmp/secret.txt" = Some (replicate 10 x41) /\
    SecureShredFile Sample.Dir Sample.Join Sample.reliable "/tmp/secret.txt" 1
      (Some (fun _ => [])) (Sample.disk "/tmp/secret.txt" 10)
    = ((true, finalPath, None), w', t) /\
    progress_of t = before ++ [100] /\
    length before
    = (Z.to_nat 1 * Z.to_nat (numChunks (Z.of_nat (length (replicate 10 x41))))
       + Z.to_nat (numChunks (Z.of_nat (length (replicate 10 x41)))))%nat /\
    length before = 2%nat.
Proof.
  assert (((SecureShredFile Sample.Dir Sample.Join Sample.reliable "/tmp/secret.txt" 1
              (Some (fun _ => [])) (Sample.disk "/tmp/secret.txt" 10)).1.1).1.1 = true
          /\ ((SecureShredFile Sample.Dir Sample.Join Sample.reliable "/tmp/secret.txt" 1
              (Some (fun _ => [])) (Sample.disk "/tmp/secret.txt" 10)).1.1).2 = None) as Hr
    by (vm_compute; split; reflexivity).
  assert (fs (Sample.disk "/tmp/secret.txt" 10) !! "/tmp/secret.txt" = Some (replicate 10 x41))
    as Hf by (vm_compute; reflexivity).
  destruct (SecureShredFile Sample.Dir Sample.Join Sample.reliable "/tmp/secret.txt" 1
              (Some (fun _ => [])) (Sample.disk "/tmp/secret.txt" 10))
    as [[[[ok finalPath] err] w'] t] eqn:E.
  cbn [fst snd] in Hr. destruct Hr as [-> ->].
  destruct (progress_count Sample.Dir Sample.Join Sample.reliable
              "/tmp/secret.txt" 1 (fun _ => []) _ (replicate 10 x41) finalPath w' t Hf E)
    as (before & Hb & Hlen).
  exists finalPath, w', t, before. split; [exact Hf |]. split; [reflexivity |].
  split; [exact Hb |]. split; [exact Hlen |]. rewrite Hlen. vm_compute. reflexivity.
Defined.

(** ** Footprint, errors and closing on concrete inputs *)


(** The flush of the first window fails. *)
Lemma failure_is_explained_witness :
  exists e w' t,
    SecureShredFile Sample.Dir Sample.Join (Sample.failing 5 "input/output error")
      "/tmp/secret.txt" 1 None (Sample.disk "/tmp/secret.txt" 10)
    = ((false, EmptyString, Some e), w', t) /\
    Error e = ("error syncing file /tmp/secret.txt after writing random data: "
               ++ "sync /tmp/secret.txt: input/output error")%string /\
    (e = errorString ("file does not exist: " ++ "/tmp/secret.txt") \/
     exists text cause,
       e = wrapError (text ++ Error cause) cause /\
       (text = "error generating random bytes for new file name: "%string \/
        exists before after, text = (before ++ "/tmp/secret.txt" ++ after)%string)).
Proof.
  assert (exists e,
            (SecureShredFile Sample.Dir Sample.Join (Sample.failing 5 "input/output error")
               "/tmp/secret.txt" 1 None (Sample.disk "/tmp/secret.txt" 10)).1.1
            = (false, EmptyString, Some e)
            /\ Error e = ("error syncing file /tmp/secret.txt after writing random data: "
                          ++ "sync /tmp/secret.txt: input/output error")%string) as (e & Hr & He)
    by (eexists; vm_compute; split; reflexivity).
  destruct (SecureShredFile Sample.Dir Sample.Join (Sample.failing 5 "input/output error")
              "/tmp/secret.txt" 1 None (Sample.disk "/tmp/secret.txt" 10))
    as [[r w'] t] eqn:E.
  cbn [fst snd] in Hr. subst r.
  exists e, w', t. split; [reflexivity |]. split; [exact He |].
  exact (failure_is_explained Sample.Dir Sample.Join (Sample.failing 5 "input/output error")
           "/tmp/secret.txt" 1 None _ false EmptyString e w' t E).
Defined.

(** A successful run: the trace ends with the second close and its log
    line. *)
Lemma file_closed_on_every_path_witness :
  exists finalPath w' t pre,
    SecureShredFile Sample.Dir Sample.Join Sample.reliable "/tmp/secret.txt" 0 None
      (Sample.disk "/tmp/secret.txt" 10)
    = ((true, finalPath, None), w', t) /\
    handle w' = None /\
    t = pre ++ [Call Close false;
                Log "Error closing file /tmp/secret.txt: close /tmp/secret.txt: file already closed"].
Proof.
  assert (((SecureShredFile Sample.Dir Sample.Join Sample.reliable "/tmp/secret.txt" 0 None
              (Sample.disk "/tmp/secret.txt" 10)).1.1).1.1 = true
          /\ ((SecureShredFile Sample.Dir Sample.Join Sample.reliable "/tmp/secret.txt" 0 None
              (Sample.disk "/tmp/secret.txt" 10)).1.1).2 = None) as Hr
    by (vm_compute; split; reflexivity).
  destruct (SecureShredFile Sample.Dir Sample.Join Sample.reliable "/tmp/secret.txt" 0 None
              (Sample.disk "/tmp/secret.txt" 10))
    as [[[[ok finalPath] err] w'] t] eqn:E.
  cbn [fst snd] in Hr. destruct Hr as [-> ->].
  destruct (file_closed_on_every_path Sample.Dir Sample.Join Sample.reliable
              "/tmp/secret.txt" 0 None _ true finalPath None w' t E) as [Hh Ht].
  destruct (Ht eq_refl) as (pre & Hpre).
  exists finalPath, w', t, pre. split; [reflexivity |].
  split; [exact (Hh eq_refl) | exact Hpre].
Defined.

(** ** The file when a run fails late *)

(** When a run fails at the truncation, the zero pass has gone over the
    file: the bytes its windows cover are zero, and for a file of 1 to
    [2^53] bytes that is the whole file.  When a run fails after the
    truncation, the file at the original path is empty. *)
Theorem zeroed_before_truncation filepath_Dir filepath_Join env
    filePath passes cb w content success finalPath err w' t ok :
  fs w !! filePath = Some content ->
  SecureShredFile filepath_Dir filepath_Join env filePath passes cb w
  = ((success, finalPath, err), w', t) ->
  In (Call (Truncate filePath 0) ok) t ->
  success = false ->
  let covered := Z.to_nat (covered (windows (Z.of_nat (length content)))) in
  fs w' !! filePath
  = Some (if ok then [] else replicate covered x00 ++ drop covered content) /\
  (1 <= Z.of_nat (length content) <= 2 ^ 53 -> ok = false ->
   fs w' !! filePath = Some (replicate (length content) x00)).
Proof.
  intros Hf H Hin Hs covered.
  pose proof (SecureShredFile_truncation _ _ _ _ _ _ _ _ _ _ _ _ _ _ Hf H Hin Hs) as Hc.
  cbv zeta in Hc. fold covered in Hc. split; [exact Hc |].
  intros HL ->. rewrite Hc. subst covered. rewrite windows_cover_file by exact HL.
  rewrite Nat2Z.id, drop_all, app_nil_r. reflexivity.
Qed.

(** The truncation of a 10-byte file fails after a run with no random pass:
    the file holds ten zero bytes. *)
Lemma zeroed_before_truncation_witness :
  exists e w' t,
    fs (Sample.disk "/tmp/secret.txt" 10) !! "/tmp/secret.txt" = Some (replicate 10 x41) /\
    SecureShredFile Sample.Dir Sample.Join (Sample.failing 6 "permission denied")
      "/tmp/secret.txt" 0 None (Sample.disk "/tmp/secret.txt" 10)
    = ((false, EmptyString, Some e), w', t) /\
    In (Call (Truncate "/tmp/secret.txt" 0) false) t /\
    fs w' !! "/tmp/secret.txt" = Some (replicate 10 x00).
Proof.
  assert (fs (Sample.disk "/tmp/secret.txt" 10) !! "/tmp/secret.txt" = Some (replicate 10 x41))
    as Hf by (vm_compute; reflexivity).
  assert (exists e,
            (SecureShredFile Sample.Dir Sample.Join (Sample.failing 6 "permission denied")
               "/tmp/secret.txt" 0 None (Sample.disk "/tmp/secret.txt" 10)).1.1
            = (false, EmptyString, Some e)) as (e & Hr)
    by (eexists; vm_compute; reflexivity).
  assert (In (Call (Truncate "/tmp/secret.txt" 0) false)
            (SecureShredFile Sample.Dir Sample.Join (Sample.failing 6 "permission denied")
               "/tmp/secret.txt" 0 None (Sample.disk "/tmp/secret.txt" 10)).2) as Hin
    by (vm_compute; auto 10).
  destruct (SecureShredFile Sample.Dir Sample.Join (Sample.failing 6 "permission denied")
              "/tmp/secret.txt" 0 None (Sample.disk "/tmp/secret.txt" 10))
    as [[r w'] t] eqn:E.
  cbn [fst snd] in Hr, Hin. subst r.
  exists e, w', t. split; [exact Hf |]. split; [reflexivity |]. split; [exact Hin |].
  destruct (zeroed_before_truncation Sample.Dir Sample.Join
              (Sample.failing 6 "permission denied") "/tmp/secret.txt" 0 None _
              (replicate 10 x41) false EmptyString (Some e) w' t false Hf E Hin eq_refl)
    as [_ Hz].
  apply Hz; [vm_compute; split; discriminate | reflexivity].
Defined.

(** ** The bytes written, on a concrete input *)

(** One random pass and the zero pass over a 4-byte file: the first write
    carries the four bytes just drawn, the second four zero bytes. *)
Lemma writes_are_sourced_witness :
  exists r w' t,
    SecureShredFile Sample.Dir Sample.Join Sample.reliable "/tmp/secret.txt" 1 None
      (Sample.disk "/tmp/secret.txt" 4) = (r, w', t) /\
    writes_of t = [(0, [x00; x01; x02; x03]); (0, [x00; x00; x00; x00])] /\
    rand_reads_of t
    = [[x00; x01; x02; x03]; map Sample.counting (seq 4 32)] /\
    forall pre off data post, t = pre ++ Call (Write off data) true :: post ->
      data = replicate (length data) x00 \/
      exists pre' n d,
        pre = pre' ++ [Call (RandRead n data) true] /\
        data = map (entropy Sample.reliable) (seq d (Z.to_nat n)).
Proof.
  assert (writes_of
            (SecureShredFile Sample.Dir Sample.Join Sample.reliable "/tmp/secret.txt" 1 None
               (Sample.disk "/tmp/secret.txt" 4)).2
          = [(0, [x00; x01; x02; x03]); (0, [x00; x00; x00; x00])]) as Hw
    by (vm_compute; reflexivity).
  assert (rand_reads_of
            (SecureShredFile Sample.Dir Sample.Join Sample.reliable "/tmp/secret.txt" 1 None
               (Sample.disk "/tmp/secret.txt" 4)).2
          = [[x00; x01; x02; x03]; map Sample.counting (seq 4 32)]) as Hr
    by (vm_compute; reflexivity).
  destruct (SecureShredFile Sample.Dir Sample.Join Sample.reliable "/tmp/secret.txt" 1 None
              (Sample.disk "/tmp/secret.txt" 4)) as [[r w'] t] eqn:E.
  exists r, w', t. split; [reflexivity |]. split; [exact Hw |]. split; [exact Hr |].
  exact (writes_are_sourced Sample.Dir Sample.Join Sample.reliable
           "/tmp/secret.txt" 1 None _ r w' t E).
Defined.

(** ** The exported wrapper on concrete inputs *)

(** No file at the path: one call, no change. *)
Lemma missing_file_is_reported_witness :
  fs (Sample.disk "/tmp/other.txt" 10) !! "/tmp/secret.txt" = None /\
  fault Sample.reliable (ticks (Sample.disk "/tmp/other.txt" 10)) = None /\
  SecureShredFile Sample.Dir Sample.Join Sample.reliable "/tmp/secret.txt" 3 None
    (Sample.disk "/tmp/other.txt" 10)
  = ((false, EmptyString, Some (errorString "file does not exist: /tmp/secret.txt")),
     tick (Sample.disk "/tmp/other.txt" 10), [Call (Stat "/tmp/secret.txt") false]).
Proof.
  assert (fs (Sample.disk "/tmp/other.txt" 10) !! "/tmp/secret.txt" = None) as Hf
    by (vm_compute; reflexivity).
  split; [exact Hf |]. split; [reflexivity |].
  exact (missing_file_is_reported Sample.Dir Sample.Join Sample.reliable
           "/tmp/secret.txt" 3 None (Sample.disk "/tmp/other.txt" 10) Hf eq_refl).
Defined.

(** [shred] on a path with no file ends the process. *)
Lemma shred_exits_on_failure_witness :
  let w := Sample.disk "/tmp/other.txt" 10 in
  exists e w1 t1,
    SecureShredFile Sample.Dir Sample.Join Sample.reliable "/tmp/secret.txt" 3
      shred_progressCallback w
    = ((false, EmptyString, Some e), w1, t1) /\
    Error e = "file does not exist: /tmp/secret.txt"%string /\
    shred Sample.Dir Sample.Join Sample.reliable "/tmp/secret.txt" 3 w
    = (Exited 1, w1,
       [Log (String (ascii_of_nat 10) "Starting file shredding...")] ++ t1
         ++ [Log ""; Log ("File shredding failed: " ++ Error e); Exit 1]) /\
    (is_Some (fs w !! "/tmp/secret.txt") -> is_Some (fs w1 !! "/tmp/secret.txt")) /\
    (forall p, p <> "/tmp/secret.txt"%string -> fs w1 !! p = fs w !! p).
Proof.
  cbv zeta.
  assert (exists e,
            (SecureShredFile Sample.Dir Sample.Join Sample.reliable "/tmp/secret.txt" 3
               shred_progressCallback (Sample.disk "/tmp/other.txt" 10)).1.1
            = (false, EmptyString, Some e)
            /\ Error e = "file does not exist: /tmp/secret.txt"%string) as (e & Hr & He)
    by (eexists; vm_compute; split; reflexivity).
  destruct (SecureShredFile Sample.Dir Sample.Join Sample.reliable "/tmp/secret.txt" 3
              shred_progressCallback (Sample.disk "/tmp/other.txt" 10))
    as [[r w1] t1] eqn:E.
  cbn [fst snd] in Hr. subst r.
  exists e, w1, t1. split; [reflexivity |]. split; [exact He |].
  exact (shred_exits_on_failure Sample.Dir Sample.Join Sample.reliable
           "/tmp/secret.txt" 3 _ false EmptyString e w1 t1 E).
Defined.


(** ** The new name on a concrete input *)

(** The clock reads 1700000000, ten digits: the name has 14 + 1 + 43
    characters. *)
Lemma new_name_is_url_safe_witness :
  exists r w' t,
    SecureShredFile Sample.Dir Sample.Join Sample.reliable "/tmp/secret.txt" 0 None
      (Sample.disk "/tmp/secret.txt" 10) = (r, w', t) /\
    renames_of t
    = [("/tmp/secret.txt"%string,
        "/tmp/MTcwMDAwMDAwMA_AAECAwQFBgcICQoLDA0ODxAREhMUFRYXGBkaGxwdHh8"%string, true)] /\
    forall pre old new ok post, t = pre ++ Call (Rename old new) ok :: post ->
      exists name,
        new = Sample.Join (Sample.Dir "/tmp/secret.txt") name /\
        string_forall url_safe name = true /\
        String.length name = 58%nat.
Proof.
  assert (renames_of
            (SecureShredFile Sample.Dir Sample.Join Sample.reliable "/tmp/secret.txt" 0 None
               (Sample.disk "/tmp/secret.txt" 10)).2
          = [("/tmp/secret.txt"%string,
              "/tmp/MTcwMDAwMDAwMA_AAECAwQFBgcICQoLDA0ODxAREhMUFRYXGBkaGxwdHh8"%string, true)])
    as Hr by (vm_compute; reflexivity).
  destruct (SecureShredFile Sample.Dir Sample.Join Sample.reliable "/tmp/secret.txt" 0 None
              (Sample.disk "/tmp/secret.txt" 10)) as [[r w'] t] eqn:E.
  exists r, w', t. split; [reflexivity |]. split; [exact Hr |].
  exact (new_name_is_url_safe Sample.Dir Sample.Join Sample.reliable
           "/tmp/secret.txt" 0 None _ r w' t E).
Defined.

(** One random pass and the zero pass over a 10-byte file: 50, 100 and the
    final 100. *)
Lemma last_window_reports_100_witness :
  exists finalPath w' t before,
    fs (Sample.disk "/tmp/secret.txt" 10) !! "/tmp/secret.txt" = Some (replicate 10 x41) /\
    SecureShredFile Sample.Dir Sample.Join Sample.reliable "/tmp/secret.txt" 1
      (Some (fun _ => [])) (Sample.disk "/tmp/secret.txt" 10)
    = ((true, finalPath, None), w', t) /\
    progress_of t = [50; 100; 100] /\
    progress_of t = before ++ [100; 100].
Proof.
  assert (((SecureShredFile Sample.Dir Sample.Join Sample.reliable "/tmp/secret.txt" 1
              (Some (fun _ => [])) (Sample.disk "/tmp/secret.txt" 10)).1.1).1.1 = true
          /\ ((SecureShredFile Sample.Dir Sample.Join Sample.reliable "/tmp/secret.txt" 1
              (Some (fun _ => [])) (Sample.disk "/tmp/secret.txt" 10)).1.1).2 = None) as Hr
    by (vm_compute; split; reflexivity).
  assert (progress_of
            (SecureShredFile Sample.Dir Sample.Join Sample.reliable "/tmp/secret.txt" 1
               (Some (fun _ => [])) (Sample.disk "/tmp/secret.txt" 10)).2
          = [50; 100; 100]) as Hp by (vm_compute; reflexivity).
  assert (fs (Sample.disk "/tmp/secret.txt" 10) !! "/tmp/secret.txt" = Some (replicate 10 x41))
    as Hf by (vm_compute; reflexivity).
  destruct (SecureShredFile Sample.Dir Sample.Join Sample.reliable "/tmp/secret.txt" 1
              (Some (fun _ => [])) (Sample.disk "/tmp/secret.txt" 10))
    as [[[[ok finalPath] err] w'] t] eqn:E.
  cbn [fst snd] in Hr, Hp. destruct Hr as [-> ->].
  destruct (last_window_reports_100 Sample.Dir Sample.Join Sample.reliable
              "/tmp/secret.txt" 1 (fun _ => []) _ (replicate 10 x41) finalPath w' t Hf E)
    as (before & Hb); [lia | vm_compute; reflexivity | vm_compute; reflexivity |].
  exists finalPath, w', t, before. split; [exact Hf |]. split; [reflexivity |].
  split; [exact Hp | exact Hb].
Defined.

(** * The logger *)

Lemma init_logger_keeps_logFile env p st p' t :
  init_logger env p = (st, p', t) -> logFile p' = logFile p.
Proof.
  unfold init_logger.
  destruct (os_OpenFile_append env "shredder.log" (world p)) as [[[err | f] w'] t0];
    intros [= <- <- <-]; reflexivity.
Qed.

Lemma calls_keep_logFile filepath_Dir filepath_Join env cs : forall p st p' t,
  logFile p = None ->
  calls filepath_Dir filepath_Join env cs p = (st, p', t) ->
  logFile p' = None.
Proof.
  induction cs as [| c cs IH]; intros p st p' t Hnil H.
  - injection H as <- <- <-. exact Hnil.
  - cbn [calls] in H.
    assert (forall st1 p1 t1,
               match c with
               | Shred path count => shred_in filepath_Dir filepath_Join env path count p
               | InitLogger => init_logger env p
               | CloseLogger => close_logger env p
               end = (st1, p1, t1) -> logFile p1 = None) as Hc.
    { intros st1 p1 t1. destruct c as [path count | |].
      - unfold shred_in.
        destruct (shred filepath_Dir filepath_Join env path count (world p)) as [[s0 w0] t0].
        intros [= <- <- <-]. exact Hnil.
      - intros E. rewrite (init_logger_keeps_logFile _ _ _ _ _ E). exact Hnil.
      - unfold close_logger. rewrite Hnil. intros [= <- <- <-]. exact Hnil. }
    destruct (match c with
              | Shred path count => shred_in filepath_Dir filepath_Join env path count p
              | InitLogger => init_logger env p
              | CloseLogger => close_logger env p
              end) as [[st1 p1] t1].
    pose proof (Hc st1 p1 t1 eq_refl) as Hn1.
    destruct st1 as [| code].
    + destruct (calls filepath_Dir filepath_Join env cs p1) as [[st2 p2] t2] eqn:E2.
      injection H as <- <- <-. exact (IH _ _ _ _ Hn1 E2).
    + injection H as <- <- <-. exact Hn1.
Qed.

(** The package variable [logFile] is never assigned: whatever the host
    process has called, it is still nil, no file that [init_logger] has
    opened has been closed, and [close_logger] returns at once without
    closing anything. *)
Theorem close_logger_closes_nothing filepath_Dir filepath_Join env cs w st p t :
  calls filepath_Dir filepath_Join env cs (start w) = (st, p, t) ->
  logFile p = None /\
  close_logger env p = (Returned, p, []) /\
  (forall file, log_output p = LogTo file -> In file (open_logs p)).
Proof.
  intros H.
  pose proof (calls_keep_logFile _ _ _ cs (start w) _ _ _ eq_refl H) as Hn.
  split; [exact Hn |]. split; [unfold close_logger; rewrite Hn; reflexivity |].
  assert (forall cs p0 st p t,
             (forall file, log_output p0 = LogTo file -> In file (open_logs p0)) ->
             logFile p0 = None ->
             calls filepath_Dir filepath_Join env cs p0 = (st, p, t) ->
             forall file, log_output p = LogTo file -> In file (open_logs p)) as Hgen.
  { clear. induction cs as [| c cs IH]; intros p0 st p t Hinv Hnil H.
    - injection H as <- <- <-. exact Hinv.
    - cbn [calls] in H.
      destruct c as [path count | |].
      + unfold shred_in in H.
        destruct (shred filepath_Dir filepath_Join env path count (world p0)) as [[s0 w0] t0].
        destruct s0 as [| code].
        * destruct (calls filepath_Dir filepath_Join env cs
                      (mkProcess w0 (logFile p0) (log_output p0) (open_logs p0)))
            as [[st2 p2] t2] eqn:E2.
          injection H as <- <- <-. refine (IH _ _ _ _ _ _ E2); [exact Hinv | exact Hnil].
        * injection H as <- <- <-. exact Hinv.
      + unfold init_logger in H.
        destruct (os_OpenFile_append env "shredder.log" (world p0)) as [[[err | f] w'] t0].
        * injection H as <- <- <-. exact Hinv.
        * destruct (calls filepath_Dir filepath_Join env cs
                      (mkProcess w' (logFile p0) (LogTo f) (f :: open_logs p0)))
            as [[st2 p2] t2] eqn:E2.
          injection H as <- <- <-. refine (IH _ _ _ _ _ _ E2); [| exact Hnil].
          cbn [log_output open_logs]. intros file [= <-]. left. reflexivity.
      + unfold close_logger in H. rewrite Hnil in H.
        destruct (calls filepath_Dir filepath_Join env cs p0) as [[st2 p2] t2] eqn:E2.
        injection H as <- <- <-. exact (IH _ _ _ _ Hinv Hnil E2). }
  exact (Hgen cs (start w) st p t ltac:(intros file [=]) eq_refl H).
Qed.

(** A host that opens the log, shreds a file and closes the log: the log
    file is still open at the end. *)
Lemma close_logger_closes_nothing_witness :
  exists p t,
    calls Sample.Dir Sample.Join Sample.reliable
      [InitLogger; Shred "/tmp/secret.txt" 0; CloseLogger]
      (start (Sample.disk "/tmp/secret.txt" 10)) = (Returned, p, t) /\
    open_logs p = ["shredder.log"%string] /\
    log_output p = LogTo "shredder.log" /\
    logFile p = None /\
    close_logger Sample.reliable p = (Returned, p, []) /\
    (forall file, log_output p = LogTo file -> In file (open_logs p)).
Proof.
  assert ((calls Sample.Dir Sample.Join Sample.reliable
             [InitLogger; Shred "/tmp/secret.txt" 0; CloseLogger]
             (start (Sample.disk "/tmp/secret.txt" 10))).1.1 = Returned
          /\ open_logs (calls Sample.Dir Sample.Join Sample.reliable
                          [InitLogger; Shred "/tmp/secret.txt" 0; CloseLogger]
                          (start (Sample.disk "/tmp/secret.txt" 10))).1.2
             = ["shredder.log"%string]
          /\ log_output (calls Sample.Dir Sample.Join Sample.reliable
                           [InitLogger; Shred "/tmp/secret.txt" 0; CloseLogger]
                           (start (Sample.disk "/tmp/secret.txt" 10))).1.2
             = LogTo "shredder.log") as Hr
    by (vm_compute; repeat split; reflexivity).
  destruct (calls Sample.Dir Sample.Join Sample.reliable
              [InitLogger; Shred "/tmp/secret.txt" 0; CloseLogger]
              (start (Sample.disk "/tmp/secret.txt" 10))) as [[st p] t] eqn:E.
  cbn [fst snd] in Hr. destruct Hr as (-> & Ho & Hl).
  exists p, t. split; [reflexivity |]. split; [exact Ho |]. split; [exact Hl |].
  exact (close_logger_closes_nothing Sample.Dir Sample.Join Sample.reliable
           [InitLogger; Shred "/tmp/secret.txt" 0; CloseLogger]
           (Sample.disk "/tmp/secret.txt" 10) Returned p t E).
Defined.

(** * The new name determines what it was made from *)

(** ** Decimal rendering *)

Lemma strconv_FormatInt_inj z z' : strconv_FormatInt z = strconv_FormatInt z' -> z = z'.
Proof.
  unfold strconv_FormatInt. intros H. apply DecimalZ.to_int_inj.
  assert (forall n, DecimalString.NilZero.int_of_string
                      (DecimalString.NilZero.string_of_int (Z.to_int n))
                    = Some (Z.to_int n)) as Hisi.
  { intros n. apply DecimalString.NilZero.isi.
    - destruct n as [| p | p]; [discriminate | | discriminate].
      cbn. intros [= E]. exact (DecimalPos.Unsigned.to_uint_nonnil p E).
    - destruct n as [| p | p]; [discriminate | discriminate |].
      cbn. intros [= E]. exact (DecimalPos.Unsigned.to_uint_nonnil p E). }
  pose proof (Hisi z) as E1. rewrite H, Hisi in E1. congruence.
Qed.

Lemma bytes_of_string_inj s s' : bytes_of_string s = bytes_of_string s' -> s = s'.
Proof.
  unfold bytes_of_string. intros H.
  rewrite <- (string_of_list_byte_of_string s), <- (string_of_list_byte_of_string s'), H.
  reflexivity.
Qed.

(** ** Strings *)

Lemma string_append_inj a a' b b' :
  String.length a = String.length a' ->
  (a ++ b)%string = (a' ++ b')%string -> a = a' /\ b = b'.
Proof.
  revert a'. induction a as [| c a IH]; intros [| c' a'] Hlen H; try discriminate Hlen.
  - auto.
  - change (String c (a ++ b) = String c' (a' ++ b')) in H. injection H as -> H.
    injection Hlen as Hlen. destruct (IH a' Hlen H) as [-> ->]. auto.
Qed.

(** ** Base64 *)

Lemma byteZ_bounds b : 0 <= Base64.byteZ b < 256.
Proof.
  unfold Base64.byteZ. pose proof (Byte.to_N_bounded b) as H. lia.
Qed.

Lemma byteZ_inj a b : Base64.byteZ a = Base64.byteZ b -> a = b.
Proof.
  unfold Base64.byteZ. intros H. apply N2Z.inj in H.
  pose proof (Byte.of_to_N a) as Ha. rewrite H, Byte.of_to_N in Ha. congruence.
Qed.

(** The 24-bit group of three bytes, as a number. *)
Lemma lor_group a b c :
  0 <= a < 256 -> 0 <= b < 256 -> 0 <= c < 256 ->
  Z.lor (Z.lor (Z.shiftl a 16) (Z.shiftl b 8)) c = a * 65536 + b * 256 + c.
Proof.
  intros Ha Hb Hc. rewrite !Z.shiftl_mul_pow2 by lia.
  assert (forall hi lo n, 0 <= n -> 0 <= lo < 2 ^ n -> Z.lor (hi * 2 ^ n) lo = hi * 2 ^ n + lo)
    as Hlor.
  { intros hi lo n Hn Hlo.
    rewrite <- (Z.add_lor_land (hi * 2 ^ n) lo).
    assert (Z.land (hi * 2 ^ n) lo = 0) as ->; [| lia].
    apply Z.bits_inj'. intros k Hk. rewrite Z.land_spec, Z.bits_0.
    destruct (Z.lt_ge_cases k n) as [Hlt | Hge].
    - rewrite Z.mul_pow2_bits_low by lia. reflexivity.
    - destruct (Z.eq_dec lo 0) as [-> | Hne]; [rewrite Z.bits_0; apply andb_false_r |].
      rewrite (Z.bits_above_log2 lo k); [apply andb_false_r | lia |].
      apply Z.log2_lt_pow2; [lia |].
      apply Z.lt_le_trans with (2 ^ n); [lia | apply Z.pow_le_mono_r; lia]. }
  change (b * 2 ^ 8) with (b * 256).
  rewrite (Hlor a (b * 256) 16) by (change (2 ^ 16) with 65536; lia).
  change (2 ^ 16) with 65536.
  replace (a * 65536 + b * 256) with ((a * 256 + b) * 2 ^ 8) by (change (2 ^ 8) with 256; lia).
  rewrite (Hlor (a * 256 + b) c 8) by (change (2 ^ 8) with 256; lia).
  change (2 ^ 8) with 256. lia.
Qed.

(** Two 6-bit values with the same character are equal. *)
Lemma sextet_inj u v : Base64.sextet u = Base64.sextet v -> u mod 64 = v mod 64.
Proof.
  unfold Base64.sextet. change 63 with (Z.ones 6). rewrite !Z.land_ones by lia.
  change (2 ^ 6) with 64.
  pose proof (Z.mod_pos_bound u 64 ltac:(lia)) as Hu.
  pose proof (Z.mod_pos_bound v 64 ltac:(lia)) as Hv.
  set (i := Z.to_nat (u mod 64)). set (j := Z.to_nat (v mod 64)).
  assert (i < 64 /\ j < 64)%nat as [Hi Hj] by (subst i j; lia).
  intros H.
  assert (i = j) as Hij; [| subst i j; lia].
  assert (forallb (fun i =>
            forallb (fun j =>
              implb (Ascii.eqb
                       match String.get i Base64.encodeURL with Some c => c | None => "A"%char end
                       match String.get j Base64.encodeURL with Some c => c | None => "A"%char end)
                    (Nat.eqb i j)) (seq 0 64)) (seq 0 64) = true) as Hall
    by (vm_compute; reflexivity).
  rewrite forallb_forall in Hall.
  pose proof (Hall i ltac:(apply in_seq; lia)) as Hrow. rewrite forallb_forall in Hrow.
  pose proof (Hrow j ltac:(apply in_seq; lia)) as Hcell.
  rewrite H, Ascii.eqb_refl in Hcell. cbn [implb] in Hcell. now apply Nat.eqb_eq.
Qed.

(** The first three characters of a group determine its 18 high bits, the
    fourth the rest. *)
Lemma group_high_bits v v' :
  0 <= v < 2 ^ 24 -> 0 <= v' < 2 ^ 24 ->
  Base64.sextet (Z.shiftr v 18) = Base64.sextet (Z.shiftr v' 18) ->
  Base64.sextet (Z.shiftr v 12) = Base64.sextet (Z.shiftr v' 12) ->
  v / 4096 = v' / 4096.
Proof.
  intros Hv Hv' H1 H2. apply sextet_inj in H1, H2.
  rewrite !Z.shiftr_div_pow2 in H1, H2 by lia.
  change (2 ^ 18) with 262144 in *. change (2 ^ 12) with 4096 in *.
  change (2 ^ 24) with 16777216 in *.
  Z.to_euclidean_division_equations. lia.
Qed.

Lemma group_bits v v' :
  0 <= v < 2 ^ 24 -> 0 <= v' < 2 ^ 24 ->
  v / 4096 = v' / 4096 ->
  Base64.sextet (Z.shiftr v 6) = Base64.sextet (Z.shiftr v' 6) ->
  v / 64 = v' / 64 /\ (Base64.sextet v = Base64.sextet v' -> v = v').
Proof.
  intros Hv Hv' H12 H3. apply sextet_inj in H3.
  rewrite !Z.shiftr_div_pow2 in H3 by lia. change (2 ^ 6) with 64 in *.
  change (2 ^ 24) with 16777216 in *.
  assert (v / 64 = v' / 64) as H6 by (Z.to_euclidean_division_equations; lia).
  split; [exact H6 |]. intros H4. apply sextet_inj in H4.
  Z.to_euclidean_division_equations. lia.
Qed.

(** The encoding is injective. *)
Lemma EncodeToString_inj l : forall l',
  Base64.EncodeToString l = Base64.EncodeToString l' -> l = l'.
Proof.
  induction l as [| a | a b | a b c rest IH] using by_three;
    intros [| a' [| b' [| c' rest']]] H;
    cbn [Base64.EncodeToString] in H; cbv zeta in H; try discriminate H;
    try reflexivity.
  - injection H as H1 H2.
    pose proof (byteZ_bounds a) as Ba. pose proof (byteZ_bounds a') as Ba'.
    rewrite !Z.shiftl_mul_pow2 in H1, H2 by lia. change (2 ^ 16) with 65536 in *.
    pose proof (group_high_bits (Base64.byteZ a * 65536) (Base64.byteZ a' * 65536)
                  ltac:(change (2 ^ 24) with 16777216; lia)
                  ltac:(change (2 ^ 24) with 16777216; lia) H1 H2) as E.
    f_equal. apply byteZ_inj. Z.to_euclidean_division_equations. lia.
  - injection H as H1 H2 H3.
    pose proof (byteZ_bounds a) as Ba. pose proof (byteZ_bounds a') as Ba'.
    pose proof (byteZ_bounds b) as Bb. pose proof (byteZ_bounds b') as Bb'.
    pose proof (lor_group _ _ 0 Ba Bb ltac:(lia)) as G.
    pose proof (lor_group _ _ 0 Ba' Bb' ltac:(lia)) as G'.
    rewrite Z.lor_0_r, Z.add_0_r in G, G'. rewrite G, G' in H1, H2, H3.
    assert (0 <= Base64.byteZ a * 65536 + Base64.byteZ b * 256 < 2 ^ 24) as R
      by (change (2 ^ 24) with 16777216; lia).
    assert (0 <= Base64.byteZ a' * 65536 + Base64.byteZ b' * 256 < 2 ^ 24) as R'
      by (change (2 ^ 24) with 16777216; lia).
    pose proof (group_high_bits _ _ R R' H1 H2) as E.
    destruct (group_bits _ _ R R' E H3) as [E6 _].
    assert (Base64.byteZ a = Base64.byteZ a' /\ Base64.byteZ b = Base64.byteZ b') as [Ea Eb]
      by (Z.to_euclidean_division_equations; lia).
    apply byteZ_inj in Ea, Eb. subst. reflexivity.
  - injection H as H1 H2 H3 H4 H5.
    pose proof (byteZ_bounds a) as Ba. pose proof (byteZ_bounds a') as Ba'.
    pose proof (byteZ_bounds b) as Bb. pose proof (byteZ_bounds b') as Bb'.
    pose proof (byteZ_bounds c) as Bc. pose proof (byteZ_bounds c') as Bc'.
    rewrite (lor_group _ _ _ Ba Bb Bc), (lor_group _ _ _ Ba' Bb' Bc') in H1, H2, H3, H4.
    assert (0 <= Base64.byteZ a * 65536 + Base64.byteZ b * 256 + Base64.byteZ c < 2 ^ 24) as R
      by (change (2 ^ 24) with 16777216; lia).
    assert (0 <= Base64.byteZ a' * 65536 + Base64.byteZ b' * 256 + Base64.byteZ c' < 2 ^ 24)
      as R' by (change (2 ^ 24) with 16777216; lia).
    pose proof (group_high_bits _ _ R R' H1 H2) as E.
    destruct (group_bits _ _ R R' E H3) as [_ E24]. specialize (E24 H4).
    assert (Base64.byteZ a = Base64.byteZ a' /\ Base64.byteZ b = Base64.byteZ b'
            /\ Base64.byteZ c = Base64.byteZ c') as (Ea & Eb & Ec) by lia.
    apply byteZ_inj in Ea, Eb, Ec. subst. f_equal. f_equal. f_equal. exact (IH _ H5).
Qed.

(** ** The name *)

(** The new name determines the clock reading and the random bytes it was
    made from: two draws of the same length that differ, or two different
    clock readings, never give the same name. *)
Theorem obfuscated_name_inj unix unix' randomBytes randomBytes' :
  length randomBytes = length randomBytes' ->
  obfuscated_name unix randomBytes = obfuscated_name unix' randomBytes' ->
  unix = unix' /\ randomBytes = randomBytes'.
Proof.
  intros Hlen H. unfold obfuscated_name in H.
  assert (String.length (Base64.EncodeToString (bytes_of_string (strconv_FormatInt unix)))
          = String.length (Base64.EncodeToString (bytes_of_string (strconv_FormatInt unix'))))
    as HA.
  { apply (f_equal String.length) in H.
    rewrite !string_length_append, !(length_EncodeToString randomBytes),
      !(length_EncodeToString randomBytes'), Hlen in H. lia. }
  destruct (string_append_inj _ _ _ _ HA H) as [EA EB].
  destruct (string_append_inj "_" "_" _ _ eq_refl EB) as [_ EB'].
  split.
  - apply strconv_FormatInt_inj, bytes_of_string_inj, EncodeToString_inj, EA.
  - apply EncodeToString_inj, EB'.
Qed.

Lemma obfuscated_name_inj_witness :
  length (map Sample.counting (seq 0 32)) = length (map Sample.counting (seq 0 32)) /\
  obfuscated_name 1700000000 (map Sample.counting (seq 0 32))
  = "MTcwMDAwMDAwMA_AAECAwQFBgcICQoLDA0ODxAREhMUFRYXGBkaGxwdHh8"%string /\
  (1700000000 = 1700000000 /\
   map Sample.counting (seq 0 32) = map Sample.counting (seq 0 32)).
Proof.
  split; [reflexivity |]. split; [vm_compute; reflexivity |].
  exact (obfuscated_name_inj 1700000000 1700000000
           (map Sample.counting (seq 0 32)) (map Sample.counting (seq 0 32))
           eq_refl eq_refl).
Defined.

(** ** Accuracy of the reported percentage

    The percentage of lines 84 and 115 is computed in float64.  Reading every
    float as the rational it stands for bounds the error of each of the three
    operations and places the reported integer next to [100 * k / T]. *)

(** The nearest integer is at most half a unit away. *)
Lemma rne_half a b : 0 < b -> - b <= 2 * (rne a b * b - a) <= b.
Proof.
  intros Hb. unfold rne.
  pose proof (Z.div_mod a b ltac:(lia)) as Hd.
  pose proof (Z.mod_pos_bound a b Hb) as Hm.
  destruct (Z.ltb_spec (2 * (a mod b)) b); [nia |].
  destruct (Z.ltb_spec b (2 * (a mod b))); [nia |].
  destruct (Z.even (a / b)); nia.
Qed.

Module Accuracy.
Import QArith Qpower Qabs Lqa.
Import Exact.

Lemma two_pow_pos e : 0 < 2 ^ e.
Proof. apply Qpower_0_lt. reflexivity. Qed.

Lemma two_pow_add a b : 2 ^ (a + b) == 2 ^ a * 2 ^ b.
Proof. apply Qpower_plus. discriminate. Qed.

Lemma two_pow_sub a b : 2 ^ (a - b) == 2 ^ a / 2 ^ b.
Proof.
  unfold Z.sub. rewrite two_pow_add, Qpower_opp. reflexivity.
Qed.

Lemma value_rounds_to a b c x :
  rounds_to a b c x -> value x == inject_Z (rne a b) * 2 ^ c.
Proof.
  intros (M & E & -> & HM & [[-> HM'] | (-> & HM' & Hr)]); cbn [value].
  - rewrite HM'. reflexivity.
  - rewrite HM', Hr. rewrite two_pow_add. change (2 ^ 1) with 2.
    change (inject_Z (2 ^ 52)) with (4503599627370496 # 1).
    change (inject_Z (2 ^ 53)) with (9007199254740992 # 1).
    ring.
Qed.

Ltac push_inject H :=
  unfold Z.sub in H;
  repeat first [rewrite inject_Z_mult in H | rewrite inject_Z_plus in H
               | rewrite inject_Z_opp in H].

Lemma cancel_pos_le u v B : 0 < B -> u * B <= v * B -> u <= v.
Proof. intros HB H. nra. Qed.

(** A rounded quotient is within a relative error of [2^-53] of the exact
    one. *)
Lemma rounds_to_error a b c x :
  rounds_to a b c x -> (0 < b)%Z -> (2 ^ 52 * b <= a)%Z ->
  let exact := inject_Z a / inject_Z b * 2 ^ c in
  exact * (1 - eps) <= value x <= exact * (1 + eps).
Proof.
  intros Hr Hb Hn exact. subst exact. rewrite (value_rounds_to _ _ _ _ Hr).
  pose proof (rne_half a b Hb) as [H1 H2].
  rewrite Zle_Qle in H1, H2, Hn. rewrite Zlt_Qlt in Hb.
  push_inject H1. push_inject H2. push_inject Hn.
  change (inject_Z (2 ^ 52)) with (4503599627370496 # 1) in Hn.
  change (inject_Z 2) with 2 in H1, H2. change (inject_Z 0) with 0 in Hb.
  set (R := inject_Z (rne a b)) in *. set (A := inject_Z a) in *. set (B := inject_Z b) in *.
  pose proof (two_pow_pos c) as HP. set (P := 2 ^ c) in *.
  assert (A / B * B == A) as HX by (field; lra).
  set (X := A / B) in *. unfold eps.
  assert (4503599627370496 # 1 <= X) as HX52.
  { apply (cancel_pos_le _ _ B Hb). rewrite HX. exact Hn. }
  assert (X - (1 # 2) <= R <= X + (1 # 2)) as [HL HU].
  { split; apply (cancel_pos_le _ _ B Hb); nra. }
  split; nra.
Qed.

(** Up to [2^53] the conversion of an integer is exact. *)
Lemma value_of_int k :
  (1 <= k <= 2 ^ 53)%Z ->
  exists M E,
    Float64.of_int k = S754_finite false M E /\
    (2 ^ 52 <= Z.pos M < 2 ^ 53)%Z /\ (-52 <= E <= 1)%Z /\
    inject_Z (Z.pos M) * 2 ^ E == inject_Z k.
Proof.
  intros Hk. destruct (of_int_exact k Hk) as (M & E & HE & HM & HEr & Hv).
  exists M, E. split; [exact HE |]. split; [exact HM |]. split; [exact HEr |].
  assert (inject_Z (Z.pos M * 2 ^ (E + 52)) == inject_Z (k * 2 ^ 52)) as Hq
    by (rewrite Hv; reflexivity).
  rewrite !inject_Z_mult in Hq.
  rewrite (Zpower_Qpower 2 (E + 52)) in Hq by lia.
  change (inject_Z 2) with 2 in Hq. rewrite two_pow_add in Hq.
  change (inject_Z (2 ^ 52)) with (4503599627370496 # 1) in Hq.
  change (2 ^ 52) with (4503599627370496 # 1) in Hq.
  pose proof (two_pow_pos E) as HP. set (P := 2 ^ E) in *.
  set (m := inject_Z (Z.pos M)) in *. set (kk := inject_Z k) in *.
  nra.
Qed.

Lemma div_error M1 E1 M3 E3 :
  (2 ^ 52 <= Z.pos M1 < 2 ^ 53)%Z -> (2 ^ 52 <= Z.pos M3 < 2 ^ 53)%Z ->
  (-400 <= E1 <= 400)%Z -> (-400 <= E3 <= 400)%Z ->
  let x1 := S754_finite false M1 E1 in
  let x3 := S754_finite false M3 E3 in
  let exact := value x1 / value x3 in
  exact * (1 - eps) <= value (Float64.div x1 x3) <= exact * (1 + eps).
Proof.
  intros HM1 HM3 HE1 HE3 x1 x3 exact.
  destruct (div_rounds M1 E1 M3 E3 HM1 HM3 HE1 HE3) as [Hr Hn]. cbv zeta in Hr, Hn.
  set (n := if (Z.pos M1 <? Z.pos M3)%Z then 0%Z else 1%Z) in *.
  assert (0 < Z.pos M3 * 2 ^ n)%Z as Hb by (subst n; destruct (Z.pos M1 <? Z.pos M3)%Z; lia).
  pose proof (rounds_to_error _ _ _ _ Hr Hb (proj1 Hn)) as H. cbv zeta in H.
  assert (inject_Z (Z.pos M1 * 2 ^ 53) / inject_Z (Z.pos M3 * 2 ^ n) * 2 ^ (E1 - E3 - 53 + n)
          == exact) as Hex.
  { subst exact x1 x3. cbn [value]. rewrite !inject_Z_mult.
    rewrite two_pow_add, !two_pow_sub.
    change (inject_Z (2 ^ 53)) with (9007199254740992 # 1).
    change (2 ^ 53) with (9007199254740992 # 1).
    pose proof (two_pow_pos E1). pose proof (two_pow_pos E3).
    assert (0 < inject_Z (Z.pos M3)) by (rewrite <- (Zlt_Qlt 0); lia).
    subst n. destruct (Z.pos M1 <? Z.pos M3)%Z.
    - change (inject_Z (2 ^ 0)) with 1. change (2 ^ 0) with 1. field. split; lra.
    - change (inject_Z (2 ^ 1)) with 2. change (2 ^ 1) with 2. field. split; lra. }
  rewrite Hex in H. exact H.
Qed.

Lemma mul100_error M E :
  (2 ^ 52 <= Z.pos M < 2 ^ 53)%Z -> (-400 <= E <= 400)%Z ->
  let x := S754_finite false M E in
  value x * 100 * (1 - eps)
  <= value (Float64.mul x (Float64.of_int 100))
  <= value x * 100 * (1 + eps).
Proof.
  intros HM HE x.
  destruct (mul100_rounds M E HM HE) as [Hr Hn]. cbv zeta in Hr, Hn.
  set (n := if (Z.pos M * 7036874417766400 <? 2 ^ 105)%Z then 52%Z else 53%Z) in *.
  assert (0 < 2 ^ n)%Z as Hb by (subst n; destruct (_ <? _)%Z; reflexivity).
  pose proof (rounds_to_error _ _ _ _ Hr Hb (proj1 Hn)) as H. cbv zeta in H.
  assert (inject_Z (Z.pos M * 7036874417766400) / inject_Z (2 ^ n) * 2 ^ (E - 46 + n)
          == value x * 100) as Hex.
  { subst x. cbn [value]. rewrite !inject_Z_mult.
    rewrite two_pow_add, two_pow_sub.
    change (inject_Z 7036874417766400) with (7036874417766400 # 1).
    change (2 ^ 46) with (70368744177664 # 1).
    pose proof (two_pow_pos E).
    subst n. destruct (_ <? _)%Z.
    - change (inject_Z (2 ^ 52)) with (4503599627370496 # 1).
      change (2 ^ 52) with (4503599627370496 # 1). field.
    - change (inject_Z (2 ^ 53)) with (9007199254740992 # 1).
      change (2 ^ 53) with (9007199254740992 # 1). field. }
  rewrite Hex in H. exact H.
Qed.

(** Truncation of a positive float is the integer part of its value. *)
Lemma trunc_floor M E :
  exists z,
    Float64.trunc (S754_finite false M E) = Some z /\
    inject_Z z <= value (S754_finite false M E) < inject_Z z + 1.
Proof.
  rewrite trunc_positive. eexists. split; [reflexivity |]. cbn [value].
  destruct (Z.leb_spec 0 E) as [HE | HE].
  - rewrite inject_Z_mult, (Zpower_Qpower 2 E) by exact HE. change (inject_Z 2) with 2.
    split; lra.
  - assert (0 < 2 ^ (- E))%Z as HD by (apply Z.pow_pos_nonneg; lia).
    pose proof (Z.div_mod (Z.pos M) (2 ^ (- E)) ltac:(lia)) as Hdm.
    pose proof (Z.mod_pos_bound (Z.pos M) (2 ^ (- E)) HD) as Hm.
    set (z := (Z.pos M / 2 ^ (- E))%Z) in *. set (D := (2 ^ (- E))%Z) in *.
    assert (z * D <= Z.pos M < (z + 1) * D)%Z as [H1 H2] by nia.
    rewrite Zle_Qle in H1. rewrite Zlt_Qlt in H2.
    push_inject H1. push_inject H2. change (inject_Z 1) with 1 in H2.
    assert (inject_Z D * 2 ^ E == 1) as HDE.
    { subst D. rewrite (Zpower_Qpower 2 (- E)) by lia. change (inject_Z 2) with 2.
      rewrite <- two_pow_add. replace (- E + E)%Z with 0%Z by lia. reflexivity. }
    pose proof (two_pow_pos E) as HP. set (P := 2 ^ E) in *.
    set (m := inject_Z (Z.pos M)) in *. set (d := inject_Z D) in *. set (zz := inject_Z z) in *.
    assert (zz * d * P <= m * P) as Ha by (apply Qmult_le_compat_r; lra).
    assert (m * P < (zz + 1) * d * P) as Hb by (apply Qmult_lt_compat_r; lra).
    assert (zz * d * P == zz) as Hc by (rewrite <- Qmult_assoc, HDE; ring).
    assert ((zz + 1) * d * P == zz + 1) as Hd by (rewrite <- Qmult_assoc, HDE; ring).
    rewrite Hc in Ha. rewrite Hd in Hb. split; assumption.
Qed.

(** The arithmetic of the two roundings: a value within two relative errors
    of [2^-53] of [100 k / T] has the integer part of [100 k / T], or one
    less when [100 k / T] is an integer. *)
Lemma floor_of_rounded (K Tq Fq Rq q p zq : Q) :
  0 < K -> K <= Tq -> Tq <= 35184372088831 ->
  100 * K == Tq * Fq + Rq -> 0 <= Rq -> Rq <= Tq - 1 ->
  K / Tq * (1 - eps) <= q <= K / Tq * (1 + eps) ->
  q * 100 * (1 - eps) <= p <= q * 100 * (1 + eps) ->
  zq <= p < zq + 1 ->
  Fq - 2 < zq /\ zq < Fq + 1 /\ (1 <= Rq -> Fq - 1 < zq).
Proof.
  intros HK HKT HT HF HR0 HR1 [Hq1 Hq2] [Hp1 Hp2] [Hz1 Hz2].
  assert (0 < Tq) as HTq by lra.
  set (X := K / Tq) in *. set (I := / Tq).
  assert (I * Tq == 1) as HI by (subst I; field; lra).
  assert (0 < I) as HI0 by (subst I; apply Qinv_lt_0_compat; exact HTq).
  assert (X == K * I) as HX by (subst X I; reflexivity).
  assert (100 * X == Fq + Rq * I) as HXF.
  { rewrite HX. transitivity ((100 * K) * I); [ring |]. rewrite HF.
    transitivity (Fq * (I * Tq) + Rq * I); [ring |]. rewrite HI. ring. }
  assert (X <= 1) as HX1.
  { rewrite HX. apply Qle_trans with (Tq * I); [apply Qmult_le_compat_r; lra |].
    rewrite Qmult_comm, HI. lra. }
  assert (0 < X) as HX0 by (rewrite HX; apply Qmult_lt_0_compat; assumption).
  assert (1 <= I * (35184372088832 # 1) - I) as HIb.
  { rewrite <- HI. assert (I * Tq <= I * (35184372088831 # 1)) by (apply Qmult_le_l; assumption).
    lra. }
  assert (0 <= Rq * I) as HY0 by (apply Qmult_le_0_compat; lra).
  assert (Rq * I <= 1 - I) as HY1.
  { apply Qle_trans with ((Tq - 1) * I); [apply Qmult_le_compat_r; lra |].
    assert ((Tq - 1) * I == I * Tq - I) as -> by ring. rewrite HI. lra. }
  unfold eps in *.
  split; [lra |]. split; [lra |].
  intros HR.
  assert (I <= Rq * I) as HY2.
  { assert (I == 1 * I) as -> by ring. rewrite Qmult_assoc.
    apply Qmult_le_compat_r; lra. }
  lra.
Qed.

(** Lines 84 and 115.  For at most [2^45 - 1] steps the percentage reported
    at step [k] of [T] is the integer part of [100 k / T], or one less than
    that; it is the integer part whenever [100 k / T] is not an integer. *)
Theorem percentage_accuracy k T :
  (1 <= k <= T)%Z -> (T < 2 ^ 45)%Z ->
  let F := (100 * k / T)%Z in
  (F - 1 <= percentage k T <= F)%Z /\
  (((100 * k) mod T)%Z <> 0%Z -> percentage k T = F).
Proof.
  intros Hk HT F. unfold percentage.
  assert (2 ^ 45 <= 2 ^ 53)%Z as H4553 by (apply Z.pow_le_mono_r; lia).
  destruct (value_of_int k ltac:(lia)) as (M1 & E1 & F1 & HM1 & HE1 & V1).
  destruct (value_of_int T ltac:(lia)) as (M3 & E3 & F3 & HM3 & HE3 & V3).
  rewrite F1, F3.
  pose proof (div_error M1 E1 M3 E3 HM1 HM3 ltac:(lia) ltac:(lia)) as Hq. cbv zeta in Hq.
  destruct (div_rounds M1 E1 M3 E3 HM1 HM3 ltac:(lia) ltac:(lia)) as [Hr _]. cbv zeta in Hr.
  apply rounds_to_finite in Hr as (Qm & G & D1 & HQm & HG).
  assert (-400 <= G <= 400)%Z as HG' by (destruct (Z.pos M1 <? Z.pos M3)%Z; lia).
  rewrite D1 in *.
  pose proof (mul100_error Qm G HQm HG') as Hp. cbv zeta in Hp.
  destruct (mul100_rounds Qm G HQm HG') as [Hr2 _]. cbv zeta in Hr2.
  apply rounds_to_finite in Hr2 as (W & J & D2 & HW & HJ).
  rewrite D2 in *.
  destruct (trunc_floor W J) as (z & Hz & Hzv).
  assert (value (S754_finite false M1 E1) / value (S754_finite false M3 E3)
          == inject_Z k / inject_Z T) as HX by (cbn [value]; rewrite V1, V3; reflexivity).
  rewrite HX in Hq.
  pose proof (Z.div_mod (100 * k) T ltac:(lia)) as Hdm. fold F in Hdm.
  pose proof (Z.mod_pos_bound (100 * k) T ltac:(lia)) as Hm.
  set (r := ((100 * k) mod T)%Z) in *.
  assert (inject_Z (100 * k) == inject_Z (T * F + r)) as HdmQ by (rewrite <- Hdm; reflexivity).
  rewrite inject_Z_plus, !inject_Z_mult in HdmQ. change (inject_Z 100) with 100 in HdmQ.
  assert (35184372088832 = 2 ^ 45)%Z as E45 by reflexivity.
  destruct (floor_of_rounded (inject_Z k) (inject_Z T) (inject_Z F) (inject_Z r)
              (value (S754_finite false Qm G)) (value (S754_finite false W J)) (inject_Z z))
    as (L1 & L2 & L3); try assumption.
  - change (inject_Z 0 < inject_Z k). rewrite <- Zlt_Qlt. lia.
  - rewrite <- Zle_Qle. lia.
  - change (inject_Z T <= inject_Z 35184372088831). rewrite <- Zle_Qle. lia.
  - change (inject_Z 0 <= inject_Z r). rewrite <- Zle_Qle. lia.
  - change (inject_Z r <= inject_Z T + - inject_Z 1).
    rewrite <- inject_Z_opp, <- inject_Z_plus, <- Zle_Qle. lia.
  - assert (F - 2 < z)%Z as L1'.
    { rewrite Zlt_Qlt. unfold Z.sub. rewrite inject_Z_plus, inject_Z_opp. exact L1. }
    assert (z < F + 1)%Z as L2'.
    { rewrite Zlt_Qlt. rewrite inject_Z_plus. exact L2. }
    assert (0 <= F <= 100)%Z as HF.
    { subst F. split; [apply Z.div_pos; lia |]. apply Z.div_le_upper_bound; lia. }
    unfold Float64.to_int64. rewrite Hz.
    assert ((Int64.min_signed <=? z)%Z && (z <=? Int64.max_signed)%Z = true) as ->.
    { apply andb_true_iff. split; apply Z.leb_le;
        unfold Int64.min_signed, Int64.max_signed; lia. }
    split; [lia |]. intros Hr0.
    assert (inject_Z 1 <= inject_Z r) as Hr1 by (rewrite <- Zle_Qle; lia).
    specialize (L3 Hr1).
    assert (F - 1 < z)%Z as L3'.
    { rewrite Zlt_Qlt. unfold Z.sub. rewrite inject_Z_plus, inject_Z_opp. exact L3. }
    lia.
Qed.

Lemma percentage_accuracy_witness :
  (1 <= 1 <= 3)%Z /\ (3 < 2 ^ 45)%Z /\ ((100 * 1) mod 3)%Z <> 0%Z /\
  (100 * 1 / 3 - 1 <= percentage 1 3 <= 100 * 1 / 3)%Z /\
  percentage 1 3 = 33%Z.
Proof.
  assert (1 <= 1 <= 3)%Z as H1 by lia.
  assert (3 < 2 ^ 45)%Z as H2 by reflexivity.
  assert (((100 * 1) mod 3)%Z <> 0%Z) as H3 by discriminate.
  destruct (percentage_accuracy 1 3 H1 H2) as [Hb He].
  split; [exact H1 |]. split; [exact H2 |]. split; [exact H3 |].
  split; [exact Hb | exact (He H3)].
Defined.

End Accuracy.
